(** * docu-notion image handling: a shallow embedding and its properties

    The module under study copies the images of Notion pages into the
    documentation tree: it parses an image block and its caption, plans
    an output file name and path, decides per target path whether the
    file on disk can be kept, fetches and writes what is missing, and
    finally sweeps the files that no block referred to.

    Conventions of the embedding.
    - A JavaScript string is a [string]; each [ascii] stands for one
      UTF-16 code unit below 256 (the Latin-1 range).  Code units above
      255 are outside the model.
    - Module-level variables, the file system, the network and the log
      of effects live in one [World] record that every operation
      threads through.
    - A thrown exception or a rejected promise is the [Err] result of
      the monad [M]; the world reached at the throw is kept. *)

From Stdlib Require Import ZArith Ascii String List Bool Lia.
From stdpp Require Import base option list strings gmap.

(** ** Strings as JavaScript uses them *)

Module Js.

Definition code (c : ascii) : nat := nat_of_ascii c.

(** [LineTerminator] of ECMAScript, restricted to the Latin-1 range:
    LF and CR. The dot of a regex without the [s] flag excludes them. *)
Definition isLineTerminator (c : ascii) : bool :=
  (code c =? 10)%nat || (code c =? 13)%nat.

(** [WhiteSpace] and [LineTerminator] below 256: what [\s] matches and
    what [trim] strips. *)
Definition isWhiteSpace (c : ascii) : bool :=
  (code c =? 9)%nat || (code c =? 10)%nat || (code c =? 11)%nat ||
  (code c =? 12)%nat || (code c =? 13)%nat || (code c =? 32)%nat ||
  (code c =? 160)%nat.

Definition isDot (c : ascii) : bool := negb (isLineTerminator c).

(** [String.prototype.toLowerCase] on one code unit below 256. *)
Definition lowerChar (c : ascii) : ascii :=
  let n := code c in
  if ((65 <=? n) && (n <=? 90))%nat then ascii_of_nat (n + 32)
  else if ((192 <=? n) && (n <=? 222) && negb (n =? 215))%nat
       then ascii_of_nat (n + 32)
  else c.

Fixpoint toLowerCase (s : string) : string :=
  match s with
  | EmptyString => EmptyString
  | String c r => String (lowerChar c) (toLowerCase r)
  end.

Fixpoint trimStart (s : string) : string :=
  match s with
  | EmptyString => EmptyString
  | String c r => if isWhiteSpace c then trimStart r else s
  end.

Fixpoint trimEnd (s : string) : string :=
  match s with
  | EmptyString => EmptyString
  | String c r =>
      match trimEnd r with
      | EmptyString => if isWhiteSpace c then EmptyString
                       else String c EmptyString
      | t => String c t
      end
  end.

Definition trim (s : string) : string := trimEnd (trimStart s).

(** [s.split(sep)] for a one-character separator: never empty. *)
Fixpoint split (sep : ascii) (s : string) : list string :=
  match s with
  | EmptyString => [EmptyString]
  | String c r =>
      if Ascii.eqb c sep then EmptyString :: split sep r
      else match split sep r with
           | [] => [String c EmptyString]
           | h :: t => String c h :: t
           end
  end.

(** [arr[0]] of a split result. *)
Definition first (l : list string) : string := List.hd EmptyString l.

(** [arr.pop()] of a split result: its last element. *)
Definition pop (l : list string) : string := List.last l EmptyString.

(** [s.replaceAll("//", "/")]: left to right, without rescanning. *)
Fixpoint replaceAllSlashSlash (s : string) : string :=
  match s with
  | EmptyString => EmptyString
  | String c r =>
      match r with
      | String d r' =>
          if Ascii.eqb c "/" && Ascii.eqb d "/"
          then String "/" (replaceAllSlashSlash r')
          else String c (replaceAllSlashSlash r)
      | EmptyString => s
      end
  end.

(** [s.replace(/^\//, "")]. *)
Definition dropLeadingSlash (s : string) : string :=
  match s with
  | String c r => if Ascii.eqb c "/" then r else s
  | EmptyString => s
  end.

(** [s.replace(/\/$/, "")]. *)
Fixpoint dropTrailingSlash (s : string) : string :=
  match s with
  | EmptyString => EmptyString
  | String c r =>
      match r with
      | EmptyString => if Ascii.eqb c "/" then EmptyString else s
      | _ => String c (dropTrailingSlash r)
      end
  end.

(** Truthiness of a string: non-empty. *)
Definition truthy (s : string) : bool :=
  match s with EmptyString => false | _ => true end.

(** [s.substring(0, n)]. *)
Definition substring0 (n : nat) (s : string) : string := String.substring 0 n s.

(** [s.includes(t)]. *)
Fixpoint includes (t s : string) : bool :=
  String.prefix t s ||
  match s with
  | EmptyString => false
  | String _ r => includes t r
  end.

(** Every character of [s] is in the class [p]. *)
Fixpoint every (p : ascii -> bool) (s : string) : bool :=
  match s with
  | EmptyString => true
  | String c r => p c && every p r
  end.

(** The character [c] does not occur in [s]. *)
Definition lacks (c : ascii) (s : string) : bool :=
  every (fun x => negb (Ascii.eqb x c)) s.

End Js.

(** ** A backtracking matcher for the regular expressions of the module

    The two regular expressions of the source are sequences of single
    character classes, greedy stars of a class and capture parentheses.
    [matchFrom] follows the backtracking order of ECMAScript: a star
    first takes as many characters as it can and gives them back one at
    a time; [exec] tries the start positions from left to right. *)

Module Regex.

Inductive atom : Type :=
| One (p : ascii -> bool)      (* one character of a class *)
| Star (p : ascii -> bool)     (* greedy [c*] *)
| Paren.                       (* an opening or closing parenthesis *)

Definition regex := list atom.

Definition lit (c : ascii) : atom := One (Ascii.eqb c).

Fixpoint lits (s : string) : regex :=
  match s with
  | EmptyString => []
  | String c r => lit c :: lits r
  end.

Fixpoint times (n : nat) (a : atom) : regex :=
  match n with O => [] | S k => a :: times k a end.

(** The result of a match: the positions of the parentheses met, the
    most recent first, and the position after the match. *)
Definition result : Type := list nat * nat.

(** The greedy star of class [p] before the continuation [k]. *)
Fixpoint star (p : ascii -> bool) (k : string -> nat -> option result)
  (s : string) (i : nat) {struct s} : option result :=
  match s with
  | String c s' =>
      if p c then
        match star p k s' (S i) with
        | Some res => Some res
        | None => k s i
        end
      else k s i
  | EmptyString => k s i
  end.

Fixpoint matchFrom (r : regex) (s : string) (i : nat) (marks : list nat)
  {struct r} : option result :=
  match r with
  | [] => Some (marks, i)
  | One p :: r' =>
      match s with
      | String c s' => if p c then matchFrom r' s' (S i) marks else None
      | EmptyString => None
      end
  | Paren :: r' => matchFrom r' s i (i :: marks)
  | Star p :: r' => star p (fun s' i' => matchFrom r' s' i' marks) s i
  end.

(** [re.exec(s)] for a regex without the [g] flag: the first start
    position, from the left, at which the regex matches. *)
Fixpoint execFrom (r : regex) (s : string) (i : nat) : option result :=
  match matchFrom r s i [] with
  | Some res => Some res
  | None =>
      match s with
      | EmptyString => None
      | String _ s' => execFrom r s' (S i)
      end
  end.

Definition exec (r : regex) (s : string) : option result := execFrom r s 0.

(** [s.slice(a, b)] for [a <= b]. *)
Definition slice (a b : nat) (s : string) : string :=
  String.substring a (b - a) s.

Fixpoint skipn (n : nat) (s : string) : string :=
  match n, s with
  | S k, String _ r => skipn k r
  | _, _ => s
  end.

(** [s.match(re)] for a regex with the [g] flag: all the matches, from
    left to right, each search resuming where the previous match
    ended (one character further after an empty match). *)
Fixpoint matchAllFuel (r : regex) (fuel : nat) (s : string) : list string :=
  match fuel with
  | O => []
  | S fuel' =>
      match matchFrom r s 0 [] with
      | Some (_, O) =>
          EmptyString ::
            match s with
            | EmptyString => []
            | String _ s' => matchAllFuel r fuel' s'
            end
      | Some (_, e) => slice 0 e s :: matchAllFuel r fuel' (skipn e s)
      | None =>
          match s with
          | EmptyString => []
          | String _ s' => matchAllFuel r fuel' s'
          end
      end
  end.

Definition matchAll (r : regex) (s : string) : list string :=
  matchAllFuel r (S (String.length s)) s.

End Regex.

(** ** SHA-256 (FIPS 180-4) on byte strings, as [crypto.createHash] computes it *)

Module Sha256.
Local Open Scope Z_scope.

Definition w32 (x : Z) : Z := Z.land x 0xffffffff.
Definition add32 (x y : Z) : Z := w32 (x + y).
Definition rotr (n x : Z) : Z :=
  Z.lor (Z.shiftr x n) (w32 (Z.shiftl x (32 - n))).
Definition shr (n x : Z) : Z := Z.shiftr x n.
Definition not32 (x : Z) : Z := Z.lxor x 0xffffffff.

Definition Ch (x y z : Z) : Z := Z.lxor (Z.land x y) (Z.land (not32 x) z).
Definition Maj (x y z : Z) : Z :=
  Z.lxor (Z.lxor (Z.land x y) (Z.land x z)) (Z.land y z).
Definition Sigma0 (x : Z) : Z := Z.lxor (Z.lxor (rotr 2 x) (rotr 13 x)) (rotr 22 x).
Definition Sigma1 (x : Z) : Z := Z.lxor (Z.lxor (rotr 6 x) (rotr 11 x)) (rotr 25 x).
Definition sigma0 (x : Z) : Z := Z.lxor (Z.lxor (rotr 7 x) (rotr 18 x)) (shr 3 x).
Definition sigma1 (x : Z) : Z := Z.lxor (Z.lxor (rotr 17 x) (rotr 19 x)) (shr 10 x).

(** The constants of the standard are defined from the primes: the
    round constants are the first 32 bits of the fractional parts of
    the cube roots of the first 64 primes, the initial hash value is
    made of the first 32 bits of the fractional parts of the square
    roots of the first 8 primes. *)
Definition isPrime (n : nat) : bool :=
  (1 <? n)%nat &&
  List.forallb (fun d => negb (Nat.eqb (n mod d) 0)) (List.seq 2 (n - 2)).

Definition primes : list Z :=
  List.map Z.of_nat (List.filter isPrime (List.seq 2 310)).

(** The integer cube root of [n], found bit by bit below [2 ^ bits]. *)
Fixpoint cubeRoot (bits : nat) (r n : Z) : Z :=
  match bits with
  | O => r
  | S k =>
      let r' := r + 2 ^ Z.of_nat k in
      if r' * r' * r' <=? n then cubeRoot k r' n else cubeRoot k r n
  end.

Definition K : list Z :=
  Eval vm_compute in
    List.map (fun p => w32 (cubeRoot 36 0 (p * 2 ^ 96))) primes.

Definition H0 : list Z :=
  Eval vm_compute in
    List.map (fun p => w32 (Z.sqrt (p * 2 ^ 64))) (List.firstn 8 primes).

(** Padding: a one bit, zero bits up to 56 modulo 64 bytes, then the
    length in bits as a 64-bit big-endian number. *)
Definition be_bytes (n : nat) (x : Z) : list Z :=
  List.map (fun k => Z.land (Z.shiftr x (8 * Z.of_nat k)) 0xff) (List.rev (List.seq 0 n)).

Definition pad (msg : list Z) : list Z :=
  let len := Z.of_nat (List.length msg) in
  let zeros := Z.to_nat ((55 - len) mod 64) in
  msg ++ [0x80] ++ List.repeat 0 zeros ++ be_bytes 8 (8 * len).

Fixpoint words (fuel : nat) (bs : list Z) : list Z :=
  match fuel, bs with
  | S f, b0 :: b1 :: b2 :: b3 :: r =>
      (b0 * 0x1000000 + b1 * 0x10000 + b2 * 0x100 + b3) :: words f r
  | _, _ => []
  end.

(** The message schedule, kept with the latest word first. *)
Fixpoint extend (n : nat) (rw : list Z) : list Z :=
  match n with
  | O => rw
  | S n' =>
      let w := add32 (add32 (sigma1 (List.nth 1 rw 0)) (List.nth 6 rw 0))
                     (add32 (sigma0 (List.nth 14 rw 0)) (List.nth 15 rw 0)) in
      extend n' (w :: rw)
  end.

Definition schedule (block : list Z) : list Z :=
  List.rev (extend 48 (List.rev block)).

Definition round (st : list Z) (kw : Z * Z) : list Z :=
  match st with
  | [a; b; c; d; e; f; g; h] =>
      let t1 := add32 (add32 (add32 h (Sigma1 e)) (add32 (Ch e f g) (fst kw))) (snd kw) in
      let t2 := add32 (Sigma0 a) (Maj a b c) in
      [add32 t1 t2; a; b; c; add32 d t1; e; f; g]
  | _ => st
  end.

Definition compress (h : list Z) (block : list Z) : list Z :=
  let st := List.fold_left round (List.combine K (schedule block)) h in
  List.map (fun p => add32 (fst p) (snd p)) (List.combine h st).

Fixpoint blocks (fuel : nat) (ws : list Z) (h : list Z) : list Z :=
  match fuel with
  | O => h
  | S f =>
      match ws with
      | [] => h
      | _ => blocks f (List.skipn 16 ws) (compress h (List.firstn 16 ws))
      end
  end.

Definition digest (msg : list Z) : list Z :=
  let ws := words (List.length msg + 72) (pad msg) in
  blocks (List.length ws) ws H0.

Definition hexDigit (n : Z) : ascii :=
  if n <? 10 then ascii_of_nat (48 + Z.to_nat n)
  else ascii_of_nat (87 + Z.to_nat n).

Fixpoint hexOfBytes (bs : list Z) : string :=
  match bs with
  | [] => EmptyString
  | b :: r => String (hexDigit (Z.shiftr b 4)) (String (hexDigit (Z.land b 15)) (hexOfBytes r))
  end.

(** The UTF-8 encoding of a string of code units below 256, which is
    what [hash.update(string)] feeds to the hash. *)
Fixpoint utf8 (s : string) : list Z :=
  match s with
  | EmptyString => []
  | String c r =>
      let n := Z.of_nat (nat_of_ascii c) in
      if n <? 128 then n :: utf8 r
      else Z.lor 0xc0 (Z.shiftr n 6) :: Z.lor 0x80 (Z.land n 0x3f) :: utf8 r
  end.

(** [createHash("sha256").update(s).digest("hex")]. *)
Definition hex (s : string) : string :=
  hexOfBytes (List.flat_map (be_bytes 4) (digest (utf8 s))).

End Sha256.

(** ** Data model *)

Inductive ImageFileNameFormat : Type :=
| FormatDefault       (* "default", or the option left out *)
| FormatLegacy        (* "legacy" *)
| FormatContentHash.  (* "content-hash" *)

Record Options : Type := {
  imageFileNameFormat : ImageFileNameFormat;
  forceRefreshImages : bool
}.

Record PageInfo : Type := {
  slug : string;
  directoryContainingMarkdown : string;
  relativeFilePathToFolderContainingPage : string
}.

Record Context : Type := {
  ctx_options : Options;
  ctx_pageInfo : PageInfo
}.

Definition Buffer : Type := list Byte.byte.

Record FileTypeResult : Type := { ext : string; mime : string }.

Record LocalizedUrl : Type := { iso632Code : string; url : string }.

Record ImageSet : Type := {
  primaryUrl : string;
  caption : string;
  localizedUrls : list LocalizedUrl;
  pageInfo : option PageInfo;
  primaryBuffer : option Buffer;
  fileType : option FileTypeResult;
  primaryFileOutputPath : option string;
  outputFileName : option string;
  filePathToUseInMarkdown : option string
}.

Definition with_pageInfo (pi : PageInfo) (s : ImageSet) : ImageSet :=
  {| primaryUrl := primaryUrl s; caption := caption s;
     localizedUrls := localizedUrls s; pageInfo := Some pi;
     primaryBuffer := primaryBuffer s; fileType := fileType s;
     primaryFileOutputPath := primaryFileOutputPath s;
     outputFileName := outputFileName s;
     filePathToUseInMarkdown := filePathToUseInMarkdown s |}.

Definition with_primaryImage (b : Buffer) (t : option FileTypeResult)
  (s : ImageSet) : ImageSet :=
  {| primaryUrl := primaryUrl s; caption := caption s;
     localizedUrls := localizedUrls s; pageInfo := pageInfo s;
     primaryBuffer := Some b; fileType := t;
     primaryFileOutputPath := primaryFileOutputPath s;
     outputFileName := outputFileName s;
     filePathToUseInMarkdown := filePathToUseInMarkdown s |}.

Definition with_plan (name path href : string) (s : ImageSet) : ImageSet :=
  {| primaryUrl := primaryUrl s; caption := caption s;
     localizedUrls := localizedUrls s; pageInfo := pageInfo s;
     primaryBuffer := primaryBuffer s; fileType := fileType s;
     primaryFileOutputPath := Some path;
     outputFileName := Some name;
     filePathToUseInMarkdown := Some href |}.

(** A Notion image block: the image is hosted by Notion ([file]) or
    lives elsewhere ([external]); the caption is a run of rich text. *)
Record RichText : Type := { plain_text : string }.

Inductive ImageSource : Type :=
| SourceFile (file_url : string)
| SourceExternal (external_url : string).

Record ImageBlock : Type := {
  image_source : ImageSource;
  image_caption : list RichText
}.

Record Block : Type := { block_id : string; block_image : ImageBlock }.

(** ** The world: module variables, file system, network, effect log *)

Record Response : Type := { status : nat; body : Buffer }.

Inductive Event : Type :=
| EMkdir (path : string)                 (* fs.mkdir *)
| EExists (path : string)                (* fs.existsSync was evaluated *)
| ESkip (path : string)                  (* "already exists, skipping" *)
| EFetch (url : string)                  (* fetch was called *)
| EWrite (path : string) (data : Buffer) (* writeAsset was called *)
| ERemove (path : string).               (* fs.rm succeeded *)

Record World : Type := {
  existingImagesNotSeenYetInPull : list string;
  imageOutputPath : string;
  imagePrefix : string;
  locales : option (list string);         (* [None]: never assigned *)
  files : gmap string Buffer;
  remote : gmap string Response;          (* [None]: the fetch rejects *)
  log : list Event                        (* oldest first *)
}.

(** The state of the module when it has just been loaded. *)
Definition moduleLoaded (fs : gmap string Buffer) (net : gmap string Response)
  : World :=
  {| existingImagesNotSeenYetInPull := [];
     imageOutputPath := ""; imagePrefix := ""; locales := None;
     files := fs; remote := net; log := [] |}.

Definition set_registry (l : list string) (w : World) : World :=
  {| existingImagesNotSeenYetInPull := l;
     imageOutputPath := imageOutputPath w; imagePrefix := imagePrefix w;
     locales := locales w; files := files w; remote := remote w;
     log := log w |}.

Definition set_config (prefix outputPath : string) (ls : list string)
  (w : World) : World :=
  {| existingImagesNotSeenYetInPull := existingImagesNotSeenYetInPull w;
     imageOutputPath := outputPath; imagePrefix := prefix;
     locales := Some ls; files := files w; remote := remote w;
     log := log w |}.

Definition set_files (fs : gmap string Buffer) (w : World) : World :=
  {| existingImagesNotSeenYetInPull := existingImagesNotSeenYetInPull w;
     imageOutputPath := imageOutputPath w; imagePrefix := imagePrefix w;
     locales := locales w; files := fs; remote := remote w;
     log := log w |}.

Definition set_log (l : list Event) (w : World) : World :=
  {| existingImagesNotSeenYetInPull := existingImagesNotSeenYetInPull w;
     imageOutputPath := imageOutputPath w; imagePrefix := imagePrefix w;
     locales := locales w; files := files w; remote := remote w;
     log := l |}.

(** ** The monad of the module's operations *)

Inductive Error : Type :=
| NotInitialised                 (* Error("Did you call initImageHandling()?") *)
| FetchRejected (url : string)   (* fetch or arrayBuffer rejected *)
| URIError                       (* decodeURI on a malformed escape *)
| TypeError                      (* a property of undefined was read *)
| PlanError                      (* makeImagePersistencePlan gave up *)
| ENOENT (path : string).        (* fs.rm on a path that is not there *)

Inductive Result (A : Type) : Type :=
| Ok (a : A)
| Err (e : Error).
Arguments Ok {A} a.
Arguments Err {A} e.

Definition M (A : Type) : Type := World -> Result A * World.

Definition ret {A} (a : A) : M A := fun w => (Ok a, w).

Definition throw {A} (e : Error) : M A := fun w => (Err e, w).

Definition bind {A B} (m : M A) (k : A -> M B) : M B :=
  fun w => match m w with
           | (Ok a, w') => k a w'
           | (Err e, w') => (Err e, w')
           end.

Notation "x <- m ;; k" := (bind m (fun x => k))
  (at level 100, m at next level, right associativity).
Notation "m ;;; k" := (bind m (fun _ => k))
  (at level 100, right associativity).

Definition get : M World := fun w => (Ok w, w).

(** The three ways in which the operations change the world. *)
Definition logged (evs : list Event) (w : World) : World :=
  set_log (log w ++ evs) w.

Definition seen (path : string) (w : World) : World :=
  set_registry
    (List.filter (fun p => negb (String.eqb p path))
       (existingImagesNotSeenYetInPull w)) w.

Definition written (path : string) (buffer : Buffer) (w : World) : World :=
  set_files (<[path := buffer]> (files w)) w.

Definition fileExists (w : World) (path : string) : bool :=
  bool_decide (is_Some (files w !! path)).

Definition emit (e : Event) : M unit := fun w => (Ok tt, logged [e] w).

Definition lift {A} (r : Result A) : M A := fun w => (r, w).

(** A [for ... of] loop that threads a value through its body. *)
Fixpoint forEach {A S} (body : A -> S -> M S) (l : list A) (s : S) : M S :=
  match l with
  | [] => ret s
  | a :: l' => s' <- body a s ;; forEach body l' s'
  end.

(** *** The primitives the module calls *)

(** [fs.existsSync]. *)
Definition existsSync (path : string) : M bool :=
  fun w => (Ok (fileExists w path), logged [EExists path] w).

(** [await fetch(url)] followed by [await response.arrayBuffer()]: the
    promise rejects when no response arrives (no connection, timeout);
    a response of any status resolves. *)
Definition fetch (u : string) : M Response :=
  emit (EFetch u) ;;;
  fun w => match remote w !! u with
           | Some r => (Ok r, w)
           | None => (Err (FetchRejected u), w)
           end.

(** Modelled from the spec: [writeAsset] of [./assets], which is not
    part of the sources at hand.  The AssetWriter durably writes the
    bytes to the path, creating parent directories as needed. *)
Definition writeAsset (path : string) (buffer : Buffer) : M unit :=
  emit (EWrite path buffer) ;;;
  fun w => (Ok tt, written path buffer w).

(** [await fs.rm(p)] without [force]: rejects when nothing is at [p]. *)
Definition rm (path : string) : M unit :=
  fun w => match files w !! path with
           | Some _ => (Ok tt, logged [ERemove path]
                                 (set_files (delete path (files w)) w))
           | None => (Err (ENOENT path), w)
           end.

(** What the module takes from its platform and from the sibling module
    [MakeImagePersistencePlan], neither of which is among the sources. *)
Class Host : Type := {
  (** [Path.posix.join] of two segments. *)
  posix_join : string -> string -> string;
  (** [decodeURI]; [None] when it throws [URIError]. *)
  decodeURI : string -> option string;
  (** [FileType.fromBuffer]. *)
  fileTypeFromBuffer : Buffer -> option FileTypeResult;
  (** [makeImagePersistencePlan], which names the file after the bytes
      read; [None] when it gives up. *)
  makeImagePersistencePlan :
    Options -> ImageSet -> string -> string -> string -> option ImageSet
}.

(** ** The operations of the module *)

(** The regex of [parseImageBlock]: white space, a group of two dots,
    white space, and a group made of [https://] and the rest of the
    line; both runs of white space and the rest are greedy stars. *)
Definition localizedLineRegex : Regex.regex :=
  [Regex.Star Js.isWhiteSpace;
   Regex.Paren; Regex.One Js.isDot; Regex.One Js.isDot; Regex.Paren;
   Regex.Star Js.isWhiteSpace;
   Regex.Paren] ++ Regex.lits "https://" ++ [Regex.Star Js.isDot; Regex.Paren].

(** [match[1]] and [match[2]] of a match of [localizedLineRegex]. *)
Definition matchGroups (l : string) (res : Regex.result) : string * string :=
  match fst res with
  | [e2; b2; e1; b1] => (Regex.slice b1 e1 l, Regex.slice b2 e2 l)
  | _ => (EmptyString, EmptyString)
  end.

(** The [\[0-9a-f\]] class under the [i] flag. *)
Definition isHexDigit (c : ascii) : bool :=
  let n := Js.code c in
  ((48 <=? n) && (n <=? 57) || (97 <=? n) && (n <=? 102) ||
   (65 <=? n) && (n <=? 70))%nat.

(** [/[0-9a-f]{8}-[0-9a-f]{4}-[0-9a-f]{4}-[0-9a-f]{4}-[0-9a-f]{12}/gi] *)
Definition uuidRegex : Regex.regex :=
  let h := Regex.One isHexDigit in
  Regex.times 8 h ++ [Regex.lit "-"] ++ Regex.times 4 h ++ [Regex.lit "-"] ++
  Regex.times 4 h ++ [Regex.lit "-"] ++ Regex.times 4 h ++ [Regex.lit "-"] ++
  Regex.times 12 h.

Definition findLastUuid (u : string) : option string :=
  match Regex.matchAll uuidRegex u with
  | [] => None
  | matches => Some (List.last matches EmptyString)
  end.

Definition hashOfString (input : string) : string :=
  Js.substring0 8 (Sha256.hex input).

(** The body of [lines.forEach] in [parseImageBlock]: the accumulator
    is the pair of [imageSet.localizedUrls] and [imageSet.caption]. *)
Definition parseLine (acc : list LocalizedUrl * string) (l : string)
  : list LocalizedUrl * string :=
  match Regex.exec localizedLineRegex l with
  | Some res =>
      let g := matchGroups l res in
      (fst acc ++ [{| iso632Code := Js.toLowerCase (fst g); url := snd g |}],
       snd acc)
  | None => (fst acc, snd acc +:+ l +:+ " ")
  end.

Definition mergedCaption (image : ImageBlock) : string :=
  List.fold_right String.append EmptyString
    (List.map plain_text (image_caption image)).

Definition parseImageBlock (image : ImageBlock) : M ImageSet :=
  w <- get ;;
  match locales w with
  | None => throw NotInitialised
  | Some ls =>
      let seeded := List.map (fun l => {| iso632Code := l; url := "" |}) ls in
      let primary := match image_source image with
                     | SourceFile u => u
                     | SourceExternal u => u
                     end in
      let lines := Js.split "010" (mergedCaption image) in
      let acc := List.fold_left parseLine lines (seeded, EmptyString) in
      ret {| primaryUrl := primary;
             caption := Js.trim (snd acc);
             localizedUrls := fst acc;
             pageInfo := None; primaryBuffer := None; fileType := None;
             primaryFileOutputPath := None; outputFileName := None;
             filePathToUseInMarkdown := None |}
  end.

Definition imageWasSeen (path : string) : M unit :=
  fun w => (Ok tt, seen path w).

Definition cleanupOldImages : M unit :=
  w <- get ;;
  forEach (fun p (_ : unit) => rm p) (existingImagesNotSeenYetInPull w) tt.

Definition initImageHandling (prefix outputPath : string)
  (incomingLocales : list string) : M unit :=
  (fun w => (Ok tt, set_config (Js.dropTrailingSlash prefix) outputPath
                      incomingLocales w)) ;;;
  if Js.truthy outputPath then emit (EMkdir outputPath) else ret tt.

(** The extension [makeImagePersistencePlanWithoutBuffer] settles on. *)
Definition imageFileExtension (urlBeforeQuery : string) : string :=
  let e := Js.pop (Js.split "." urlBeforeQuery) in
  if Js.truthy e then e else "png".

Section WithHost.
Context `{Host}.

Definition readPrimaryImage (imageSet : ImageSet) : M ImageSet :=
  response <- fetch (primaryUrl imageSet) ;;
  let buffer := body response in
  ret (with_primaryImage buffer (fileTypeFromBuffer buffer) imageSet).

(** The function assigns [outputFileName] before it can throw; the
    image set of a throwing call is dropped by the caller, so the
    model returns it only when the whole plan is made. *)
Definition makeImagePersistencePlanWithoutBuffer (options : Options)
  (imageSet : ImageSet) (imageBlockId imageOutputRootPath prefix : string)
  : Result ImageSet :=
  let urlBeforeQuery := Js.first (Js.split "?" (primaryUrl imageSet)) in
  let extension := imageFileExtension urlBeforeQuery in
  let name :=
    match imageFileNameFormat options with
    | FormatLegacy =>
        let thingToHash := default urlBeforeQuery (findLastUuid urlBeforeQuery) in
        hashOfString thingToHash +:+ "." +:+ extension
    | _ =>
        let pageSlugPart :=
          match pageInfo imageSet with
          | Some pi => if Js.truthy (slug pi)
                       then Js.dropLeadingSlash (slug pi) +:+ "."
                       else ""
          | None => ""
          end in
        pageSlugPart +:+ imageBlockId +:+ "." +:+ extension
    end in
  let root :=
    if Js.truthy imageOutputRootPath then Some imageOutputRootPath
    else directoryContainingMarkdown <$> pageInfo imageSet in
  match root with
  | None => Err TypeError
  | Some dir =>
      match decodeURI name with
      | None => Err URIError
      | Some decoded =>
          Ok (with_plan name (posix_join dir decoded)
                ((if Js.truthy prefix then prefix else ".") +:+ "/" +:+ name)
                imageSet)
      end
  end.

(** [!context.options.forceRefreshImages && fs.existsSync(path)]: the
    file system is asked only when the flag is off. *)
Definition mayKeep (options : Options) (path : string) : M bool :=
  if forceRefreshImages options then ret false else existsSync path.

(** The path of the copy of the image for one locale. *)
Definition localizedPath (imageSet : ImageSet) (pi : PageInfo)
  (localizedImage : LocalizedUrl) : string :=
  let directory :=
    "./i18n/" +:+ iso632Code localizedImage +:+
    "/docusaurus-plugin-content-docs/current/" +:+
    relativeFilePathToFolderContainingPage pi in
  Js.replaceAllSlashSlash
    (directory +:+ "/" +:+ default "undefined" (outputFileName imageSet)).

(** The body of the loop of [saveLocalizedImages]. *)
Definition saveLocalizedImage (context : Context)
  (localizedImage : LocalizedUrl) (imageSet : ImageSet) : M ImageSet :=
  match pageInfo imageSet with
  | None => throw TypeError
  | Some pi =>
      let newPath := localizedPath imageSet pi localizedImage in
      imageWasSeen newPath ;;;
      keep <- mayKeep (ctx_options context) newPath ;;
      if keep : bool then emit (ESkip newPath) ;;; ret imageSet
      else
        if Js.truthy (url localizedImage) then
          response <- fetch (url localizedImage) ;;
          writeAsset newPath (body response) ;;;
          ret imageSet
        else
          imageSet' <- (match primaryBuffer imageSet with
                        | None => readPrimaryImage imageSet
                        | Some _ => ret imageSet
                        end) ;;
          match primaryBuffer imageSet' with
          | None => throw TypeError
          | Some buffer => writeAsset newPath buffer ;;; ret imageSet'
          end
  end.

Definition saveLocalizedImages (imageSet : ImageSet) (context : Context)
  : M ImageSet :=
  forEach (saveLocalizedImage context) (localizedUrls imageSet) imageSet.

Definition saveImage (imageSet : ImageSet) (context : Context) : M ImageSet :=
  match primaryFileOutputPath imageSet with
  | None => throw TypeError
  | Some primaryPath =>
      imageWasSeen primaryPath ;;;
      keep <- mayKeep (ctx_options context) primaryPath ;;
      (if keep : bool then emit (ESkip primaryPath)
       else match primaryBuffer imageSet with
            | None => throw TypeError
            | Some buffer => writeAsset primaryPath buffer
            end) ;;;
      saveLocalizedImages imageSet context
  end.

(** The block after [processImageBlock] has rewritten it in place. *)
Definition rewriteBlock (block : Block) (imageSet : ImageSet) : Block :=
  let href := default "undefined" (filePathToUseInMarkdown imageSet) in
  {| block_id := block_id block;
     block_image :=
       {| image_source :=
            match image_source (block_image block) with
            | SourceFile _ => SourceFile href
            | SourceExternal _ => SourceExternal href
            end;
          image_caption :=
            if Js.truthy (caption imageSet)
            then [{| plain_text := caption imageSet |}]
            else [] |} |}.

(** [processImageBlock], with the image set it ends with next to the
    rewritten block. *)
Definition processImageSet (block : Block) (context : Context) : M ImageSet :=
  parsed <- parseImageBlock (block_image block) ;;
  let imageSet := with_pageInfo (ctx_pageInfo context) parsed in
  let options := ctx_options context in
  match imageFileNameFormat options with
  | FormatContentHash =>
      imageSet1 <- readPrimaryImage imageSet ;;
      w <- get ;;
      match makeImagePersistencePlan options imageSet1 (block_id block)
              (imageOutputPath w) (imagePrefix w) with
      | None => throw PlanError
      | Some imageSet2 => saveImage imageSet2 context
      end
  | _ =>
      w <- get ;;
      imageSet1 <- lift (makeImagePersistencePlanWithoutBuffer options imageSet
                           (block_id block) (imageOutputPath w) (imagePrefix w)) ;;
      let primaryPath := default "" (primaryFileOutputPath imageSet1) in
      keep <- (if forceRefreshImages options then ret false
               else if Js.truthy primaryPath then existsSync primaryPath
               else ret false) ;;
      if keep : bool then
        emit (ESkip primaryPath) ;;;
        imageWasSeen primaryPath ;;;
        saveLocalizedImages imageSet1 context
      else
        imageSet2 <- readPrimaryImage imageSet1 ;;
        saveImage imageSet2 context
  end.

Definition processImageBlock (block : Block) (context : Context) : M Block :=
  imageSet <- processImageSet block context ;;
  ret (rewriteBlock block imageSet).

Definition markdownToMDImageTransformer (block : Block) (context : Context)
  : M string :=
  block' <- processImageBlock block context ;;
  let altText := mergedCaption (block_image block') in
  let href := match image_source (block_image block') with
              | SourceFile u => u
              | SourceExternal u => u
              end in
  ret ("![" +:+ altText +:+ "](" +:+ href +:+ ")").

End WithHost.

(** A host for the examples: it joins two segments that are already
    normalised, decodes only names free of escapes, recognises no file
    type and has no planner for the content-hash format. *)
Definition plainHost : Host :=
  {| posix_join := fun a b => a +:+ "/" +:+ b;
     decodeURI := fun s => if Js.includes "%" s then None else Some s;
     fileTypeFromBuffer := fun _ => None;
     makeImagePersistencePlan := fun _ _ _ _ _ => None |}.

(** ** Reading aids for the statements *)

(** What [parseImageBlock] does with one line of the caption: the
    override it records, if any. *)
Definition lineOverride (l : string) : option LocalizedUrl :=
  match Regex.exec localizedLineRegex l with
  | Some res =>
      let g := matchGroups l res in
      Some {| iso632Code := Js.toLowerCase (fst g); url := snd g |}
  | None => None
  end.

(** The caption text gathered from the lines that record no override,
    each followed by a space, before the final trim. *)
Fixpoint captionTextOf (lines : list string) : string :=
  match lines with
  | [] => ""
  | l :: r =>
      match lineOverride l with
      | None => l +:+ " " +:+ captionTextOf r
      | Some _ => captionTextOf r
      end
  end.

(** The placeholders seeded from the configured locales. *)
Definition seeded (ls : list string) : list LocalizedUrl :=
  List.map (fun l => {| iso632Code := l; url := "" |}) ls.

(** The caption rule as the specification words it: a line is an
    override when it consists of a two-character code, then white
    space, then an https URL. *)
Definition specLocalizedLine (l : string) : bool :=
  match l with
  | String _ (String _ (String c r)) =>
      Js.isWhiteSpace c && String.prefix "https://" (Js.trimStart r)
  | _ => false
  end.

(** [primaryUrl.split("?")[0]]. *)
Definition urlBeforeQuery (u : string) : string := Js.first (Js.split "?" u).

(** The slug part of a default file name. *)
Definition pageSlugPart (pi : option PageInfo) : string :=
  match pi with
  | Some p => if Js.truthy (slug p) then Js.dropLeadingSlash (slug p) +:+ "."
              else ""
  | None => ""
  end.

(** The default file name as the specification words it. *)
Definition specDefaultName (pageSlug blockId extension : string) : string :=
  (if Js.truthy pageSlug then pageSlug +:+ "." else "") +:+
  blockId +:+ "." +:+ extension.

(** [n] hexadecimal digits at the head of [s]; the rest of [s]. *)
Fixpoint hexRun (n : nat) (s : string) : option string :=
  match n with
  | O => Some s
  | S k =>
      match s with
      | String c r => if isHexDigit c then hexRun k r else None
      | EmptyString => None
      end
  end.

Definition dash (s : string) : option string :=
  match s with
  | String c r => if Ascii.eqb "-" c then Some r else None
  | EmptyString => None
  end.

(** [s] begins with a UUID-shaped text: groups of 8, 4, 4, 4 and 12
    hexadecimal digits of either case, separated by dashes. *)
Definition uuidPrefix (s : string) : bool :=
  let next (f : string -> option string) (o : option string) :=
    match o with Some r => f r | None => None end in
  match next (hexRun 12) (next dash (next (hexRun 4) (next dash
          (next (hexRun 4) (next dash (next (hexRun 4) (next dash
             (hexRun 8 s)))))))) with
  | Some _ => true
  | None => false
  end.

(** The UUID-shaped substring of [s] that starts last, as the
    specification words the legacy rule. *)
Fixpoint lastUuidSubstring (s : string) : option string :=
  match s with
  | EmptyString => None
  | String _ r =>
      match lastUuidSubstring r with
      | Some x => Some x
      | None => if uuidPrefix s then Some (Js.substring0 36 s) else None
      end
  end.

(** The UUID-shaped substrings met by a scan from the left that
    resumes after each one it finds. *)
Fixpoint uuidScanFuel (fuel : nat) (s : string) : list string :=
  match fuel with
  | O => []
  | S fuel' =>
      if uuidPrefix s
      then Js.substring0 36 s :: uuidScanFuel fuel' (Regex.skipn 36 s)
      else match s with
           | EmptyString => []
           | String _ r => uuidScanFuel fuel' r
           end
  end.

Definition uuidScan (s : string) : list string :=
  uuidScanFuel (S (String.length s)) s.

(** The legacy file name as the specification words it. *)
Definition specLegacyName (u : string) : string :=
  hashOfString (default (urlBeforeQuery u) (lastUuidSubstring (urlBeforeQuery u)))
  +:+ "." +:+ imageFileExtension (urlBeforeQuery u).


(** Nothing to strip at the head of a string: it is empty or starts
    with a character that is no white space. *)
Definition headClean (s : string) : bool :=
  match s with
  | EmptyString => true
  | String c _ => negb (Js.isWhiteSpace c)
  end.

(** A digit of a hexadecimal digest: [0-9a-f]. *)
Definition isLowerHexDigit (c : ascii) : bool :=
  let n := Js.code c in
  ((48 <=? n) && (n <=? 57) || (97 <=? n) && (n <=? 102))%nat.

(** ** Runs *)

(** The operations the module exports. *)
Inductive Op : Type :=
| OpInit (prefix outputPath : string) (incomingLocales : list string)
| OpParse (image : ImageBlock)
| OpTransform (block : Block) (context : Context)
| OpCleanup.

(** One call from outside: the caller sees the result, the world keeps
    whatever the call did, also when it threw. *)
Definition call `{Host} (o : Op) (w : World) : World :=
  match o with
  | OpInit prefix outputPath ls => snd (initImageHandling prefix outputPath ls w)
  | OpParse image => snd (parseImageBlock image w)
  | OpTransform block context => snd (markdownToMDImageTransformer block context w)
  | OpCleanup => snd (cleanupOldImages w)
  end.

Definition calls `{Host} (os : list Op) (w : World) : World :=
  List.fold_left (fun w o => call o w) os w.

(** Modelled from the spec: the caller's pass over the image blocks of
    a pull, which is not part of the sources at hand.  Every block is
    transformed in turn with the options of the run and the context of
    its page; a block that fails ends the pass. *)
Definition processBlocks `{Host} (options : Options)
  (blocks : list (Block * PageInfo)) : M unit :=
  forEach (fun (b : Block * PageInfo) (_ : unit) =>
             markdownToMDImageTransformer (fst b)
               {| ctx_options := options; ctx_pageInfo := snd b |} ;;;
             ret tt)
    blocks tt.

(** Modelled from the spec: "After all blocks across a full run are
    processed, the cleanup phase sweeps". *)
Definition pull `{Host} (options : Options) (blocks : list (Block * PageInfo))
  : M unit :=
  processBlocks options blocks ;;; cleanupOldImages.

(** The events a computation added to the log. *)
Definition since (w w' : World) : list Event :=
  List.skipn (List.length (log w)) (log w').

Definition isFetch (e : Event) : bool :=
  match e with EFetch _ => true | _ => false end.

Definition isWrite (e : Event) : bool :=
  match e with EWrite _ _ => true | _ => false end.

(** The CacheGate contract as the specification words it. *)
Inductive GateDecision : Type := Skip | Write.

Definition CacheGate (forceRefresh fileExists : bool) : GateDecision :=
  if negb forceRefresh && fileExists then Skip else Write.

(** The events asked of the file system before a decision: none when
    the refresh is forced. *)
Definition asked (forceRefresh : bool) (path : string) : list Event :=
  if forceRefresh then [] else [EExists path].

(** The rule of the specification for one localized target: its own
    gate on its own path; on a write, the override is fetched when
    there is one, else the primary bytes are used, fetched first when
    they are not in memory. *)
Definition specLocalizedImage `{Host} (context : Context) (e : LocalizedUrl)
  (s : ImageSet) (pi : PageInfo) (w : World) : Result ImageSet * World :=
  let path := localizedPath s pi e in
  let force := forceRefreshImages (ctx_options context) in
  match CacheGate force (fileExists w path) with
  | Skip => (Ok s, logged [EExists path; ESkip path] (seen path w))
  | Write =>
      let from (u : string) (k : Buffer -> ImageSet) :=
        match remote w !! u with
        | Some r =>
            (Ok (k (body r)),
             written path (body r)
               (logged (asked force path ++ [EFetch u; EWrite path (body r)])
                  (seen path w)))
        | None =>
            (Err (FetchRejected u),
             logged (asked force path ++ [EFetch u]) (seen path w))
        end in
      if Js.truthy (url e) then from (url e) (fun _ => s)
      else match primaryBuffer s with
           | Some buffer =>
               (Ok s, written path buffer
                        (logged (asked force path ++ [EWrite path buffer])
                           (seen path w)))
           | None =>
               from (primaryUrl s)
                 (fun b => with_primaryImage b (fileTypeFromBuffer b) s)
           end
  end.

(** The world after the gate on the primary path [path] when the bytes
    [buffer] are in memory. *)
Definition specPrimaryImage (force : bool) (path : string) (buffer : Buffer)
  (w : World) : World :=
  match CacheGate force (fileExists w path) with
  | Skip => logged [EExists path; ESkip path] (seen path w)
  | Write => written path buffer
               (logged (asked force path ++ [EWrite path buffer]) (seen path w))
  end.

(** The image set of a block once parsed and planned without its
    bytes, as [processImageBlock] computes it in the default and legacy
    formats. *)
Definition plannedImageSet `{Host} (block : Block) (context : Context)
  (w : World) : Result ImageSet :=
  match fst (parseImageBlock (block_image block) w) with
  | Ok parsed =>
      makeImagePersistencePlanWithoutBuffer (ctx_options context)
        (with_pageInfo (ctx_pageInfo context) parsed) (block_id block)
        (imageOutputPath w) (imagePrefix w)
  | Err e => Err e
  end.

(** The rule of the specification for the primary target in the
    default and legacy formats: the gate comes first, and the primary
    bytes are fetched only on a write. *)
Definition specPrimaryFirst `{Host} (context : Context) (s : ImageSet)
  (path : string) (w : World) : Result ImageSet * World :=
  let force := forceRefreshImages (ctx_options context) in
  match CacheGate force (fileExists w path) with
  | Skip =>
      saveLocalizedImages s context
        (logged [EExists path; ESkip path] (seen path w))
  | Write =>
      match remote w !! primaryUrl s with
      | Some r =>
          saveLocalizedImages
            (with_primaryImage (body r) (fileTypeFromBuffer (body r)) s)
            context
            (written path (body r)
               (logged (asked force path ++ [EFetch (primaryUrl s)] ++
                        asked force path ++ [EWrite path (body r)])
                  (seen path w)))
      | None =>
          (Err (FetchRejected (primaryUrl s)),
           logged (asked force path ++ [EFetch (primaryUrl s)]) w)
      end
  end.

(** What of an image set the planning fixes: all but the bytes read
    and their type. *)
Definition planned (s : ImageSet) :=
  (primaryUrl s, caption s, localizedUrls s, pageInfo s,
   primaryFileOutputPath s, outputFileName s, filePathToUseInMarkdown s).

(** The paths of the localized copies of a planned image set. *)
Definition localizedPaths `{Host} (s : ImageSet) (pi : PageInfo) : list string :=
  List.map (localizedPath s pi) (localizedUrls s).

(** The URL a block comes with. *)
Definition sourceUrl (block : Block) : string :=
  match image_source (block_image block) with
  | SourceFile u => u
  | SourceExternal u => u
  end.

(** The paths a planned image set is checked against: the primary
    path and the localized ones. *)
Definition targets `{Host} (s : ImageSet) : list string :=
  match primaryFileOutputPath s with
  | Some path =>
      path :: match pageInfo s with
              | Some pi => localizedPaths s pi
              | None => []
              end
  | None => []
  end.

(** The paths the events are about: those the file system was asked
    about, those kept and those written. *)
Fixpoint touched (evs : list Event) : list string :=
  match evs with
  | [] => []
  | EExists p :: r | ESkip p :: r | EWrite p _ :: r => p :: touched r
  | _ :: r => touched r
  end.

(** The events of a target that is kept: the question put to the file
    system and the skip. *)
Definition quiet (e : Event) : bool :=
  match e with
  | EExists _ | ESkip _ => true
  | _ => false
  end.

(** ** Relations between the worlds before and after a computation *)

(** No path was added to the registry. *)
Definition shrinks (w w' : World) : Prop :=
  forall p, p ∈ existingImagesNotSeenYetInPull w' ->
            p ∈ existingImagesNotSeenYetInPull w.

(** What holds across the processing of blocks: the configuration and
    the network are as they were, no path was added to the registry,
    no file went away and the log was only added to. *)
Record grows (w w' : World) : Prop := {
  grows_outputPath : imageOutputPath w' = imageOutputPath w;
  grows_prefix : imagePrefix w' = imagePrefix w;
  grows_locales : locales w' = locales w;
  grows_remote : remote w' = remote w;
  grows_registry : shrinks w w';
  grows_files : forall p, is_Some (files w !! p) -> is_Some (files w' !! p);
  grows_log : log w `prefix_of` log w'
}.

(** The computation [m] takes every world to one related to it by [R],
    whether it returns or throws. *)
Definition keeps {A} (R : World -> World -> Prop) (m : M A) : Prop :=
  forall w, R w (snd (m w)).

(** Every change of the files is accounted for by a write in the log:
    a path holds what it held, or the bytes of a write to it. *)
Definition accounted (w w' : World) : Prop :=
  exists evs, log w' = log w ++ evs /\
              forall p, files w' !! p = files w !! p \/
                        exists b, EWrite p b ∈ evs /\ files w' !! p = Some b.

(** The number of downloads among the events. *)
Definition fetches (evs : list Event) : nat :=
  List.length (List.filter isFetch evs).

(** The download of the primary image that an image set may still
    need: one while its bytes are not in memory. *)
Definition pending (s : ImageSet) : nat :=
  match primaryBuffer s with Some _ => 0 | None => 1 end.

Definition owed (r : Result ImageSet) : nat :=
  match r with Ok s => pending s | Err _ => 0 end.

(** The entries that come with a URL of their own. *)
Definition overrides (l : list LocalizedUrl) : nat :=
  List.length (List.filter (fun e => Js.truthy (url e)) l).

(** ** A small pull for the examples *)

Module Sample.

Definition imageUrl : string := "https://cdn.example.com/pic.png".

Definition found : Response :=
  {| status := 200; body := String.list_byte_of_string "PNG" |}.

Definition notFound : Response :=
  {| status := 404; body := String.list_byte_of_string "Not Found" |}.

Definition page : PageInfo :=
  {| slug := "/intro"; directoryContainingMarkdown := "docs";
     relativeFilePathToFolderContainingPage := "guide" |}.

Definition block : Block :=
  {| block_id := "b1";
     block_image := {| image_source := SourceFile imageUrl;
                       image_caption := [{| plain_text := "A picture" |}] |} |}.

(** The module configured for one locale, an empty output tree and a
    network on which the image answers with [r]. *)
Definition world (r : Response) : World :=
  set_config "/img" "static/img" ["fr"] (moduleLoaded ∅ {[ imageUrl := r ]}).

Definition options (force : bool) : Options :=
  {| imageFileNameFormat := FormatDefault; forceRefreshImages := force |}.

Definition context (force : bool) : Context :=
  {| ctx_options := options force; ctx_pageInfo := page |}.

End Sample.

(** * Properties *)

(** ** Facts about strings *)

Section StringFacts.

Lemma app_String c (s t : string) : String c s +:+ t = String c (s +:+ t).
Proof. reflexivity. Qed.

Lemma app_Empty (t : string) : "" +:+ t = t.
Proof. reflexivity. Qed.

Lemma app_empty_r (s : string) : s +:+ "" = s.
Proof.
  induction s as [|c s IH]; [reflexivity|]. now rewrite app_String, IH.
Qed.

Lemma app_assoc_str (a b c : string) : (a +:+ b) +:+ c = a +:+ (b +:+ c).
Proof.
  induction a as [|x a IH]; [reflexivity|]. now rewrite !app_String, IH.
Qed.

Lemma length_app_str (a b : string) :
  String.length (a +:+ b) = String.length a + String.length b.
Proof.
  induction a as [|x a IH]; [reflexivity|].
  rewrite app_String. simpl. now rewrite IH.
Qed.

Lemma substring_prefix (b c : string) :
  String.substring 0 (String.length b) (b +:+ c) = b.
Proof.
  induction b as [|x b IH].
  - rewrite app_Empty. destruct c; reflexivity.
  - rewrite app_String. simpl. now rewrite IH.
Qed.

Lemma substring_skip (a s : string) (n : nat) :
  String.substring (String.length a) n (a +:+ s) = String.substring 0 n s.
Proof.
  induction a as [|x a IH]; [reflexivity|]. rewrite app_String. exact IH.
Qed.

Lemma slice_middle (a b c : string) :
  Regex.slice (String.length a) (String.length a + String.length b)
    (a +:+ b +:+ c) = b.
Proof.
  unfold Regex.slice.
  replace (String.length a + String.length b - String.length a)
    with (String.length b) by lia.
  rewrite substring_skip. apply substring_prefix.
Qed.

Lemma prefix_app (t post : string) : String.prefix t (t +:+ post) = true.
Proof.
  induction t as [|c t IH].
  - rewrite app_Empty. destruct post; reflexivity.
  - rewrite app_String. simpl.
    destruct (ascii_dec c c) as [_|n]; [exact IH | now destruct n].
Qed.

Lemma includes_app (t pre post : string) :
  Js.includes t (pre +:+ t +:+ post) = true.
Proof.
  induction pre as [|c pre IH].
  - rewrite app_Empty. pose proof (prefix_app t post) as Hp.
    destruct (t +:+ post); cbn [Js.includes]; now rewrite Hp.
  - rewrite app_String. cbn [Js.includes]. rewrite IH. apply orb_true_r.
Qed.

Lemma whiteSpace_not_dot_free (c : ascii) :
  Js.isWhiteSpace c = false -> Js.isDot c = true.
Proof.
  unfold Js.isWhiteSpace, Js.isDot, Js.isLineTerminator.
  intros Hc. repeat (apply orb_false_elim in Hc; destruct Hc as [Hc ?]).
  apply negb_true_iff, orb_false_intro; assumption.
Qed.

End StringFacts.

(** ** Facts about the matcher *)

Section RegexFacts.
Import Regex.

(** A star whose class runs over all of [w] and stops there takes
    [w] whole when the rest of the regex then matches. *)
Lemma star_takes_run p k (w t : string) (i : nat) res :
  Js.every p w = true ->
  match t with EmptyString => True | String c _ => p c = false end ->
  k t (i + String.length w) = Some res ->
  star p k (w +:+ t) i = Some res.
Proof.
  revert i. induction w as [|c w IH]; intros i Hw Ht Hk.
  - rewrite app_Empty. simpl in Hk. rewrite Nat.add_0_r in Hk.
    destruct t as [|c t]; simpl; [exact Hk | now rewrite Ht].
  - simpl in Hw. apply andb_true_iff in Hw as [Hc Hw].
    rewrite app_String. cbn [star]. rewrite Hc.
    rewrite (IH (S i) Hw Ht); [reflexivity|].
    simpl in Hk. now replace (S i + String.length w)
      with (i + S (String.length w)) by lia.
Qed.

(** Whatever a star takes, the rest of the regex matches a suffix. *)
Lemma star_inv p k (s : string) (i : nat) res :
  star p k s i = Some res ->
  exists pre s' i', s = pre +:+ s' /\ k s' i' = Some res.
Proof.
  revert i. induction s as [|c s IH]; intros i Hs.
  - exists EmptyString, EmptyString, i. split; [reflexivity | exact Hs].
  - simpl in Hs. destruct (p c).
    + destruct (star p k s (S i)) as [r|] eqn:E.
      * injection Hs as ->.
        destruct (IH _ E) as (pre & s' & i' & -> & Hk).
        exists (String c pre), s', i'. split; [reflexivity | exact Hk].
      * exists EmptyString, (String c s), i. split; [reflexivity | exact Hs].
    + exists EmptyString, (String c s), i. split; [reflexivity | exact Hs].
Qed.

Lemma execFrom_inv r (s : string) (i : nat) res :
  execFrom r s i = Some res ->
  exists pre s' i', s = pre +:+ s' /\ matchFrom r s' i' [] = Some res.
Proof.
  revert i. induction s as [|c s IH]; intros i Hs; simpl in Hs.
  - destruct (matchFrom r "" i []) eqn:E; [|discriminate].
    exists EmptyString, EmptyString, i. split; [reflexivity | congruence].
  - destruct (matchFrom r (String c s) i []) eqn:E.
    + exists EmptyString, (String c s), i. split; [reflexivity | congruence].
    + destruct (IH _ Hs) as (pre & s' & i' & -> & Hm).
      exists (String c pre), s', i'. split; [reflexivity | exact Hm].
Qed.

(** A literal prefix of the regex is a prefix of what it matches. *)
Lemma lits_inv (t : string) r (s : string) (i : nat) marks res :
  matchFrom (lits t ++ r) s i marks = Some res ->
  exists s', s = t +:+ s'.
Proof.
  revert s i. induction t as [|c t IH]; intros s i Hm.
  - exists s. reflexivity.
  - simpl in Hm. destruct s as [|d s]; [discriminate|].
    unfold lit in Hm.
    destruct (Ascii.eqb c d) eqn:E; [|discriminate].
    apply Ascii.eqb_eq in E as <-.
    destruct (IH _ _ Hm) as (s' & ->). exists s'. reflexivity.
Qed.

Lemma lits_match (t : string) r (s : string) (i : nat) marks :
  matchFrom (lits t ++ r) (t +:+ s) i marks =
  matchFrom r s (i + String.length t) marks.
Proof.
  revert i. induction t as [|c t IH]; intros i.
  - rewrite app_Empty. simpl. now rewrite Nat.add_0_r.
  - rewrite app_String. simpl. rewrite Ascii.eqb_refl, IH. f_equal. lia.
Qed.


Lemma execFrom_hit r (s : string) (i : nat) res :
  matchFrom r s i [] = Some res -> execFrom r s i = Some res.
Proof. intros Hm. destruct s; simpl; now rewrite Hm. Qed.

End RegexFacts.

(** ** Lines of a caption *)

Section CaptionLines.

(** A line made of white space, a code of two characters that does
    not begin with white space, white space again, and an https URL
    that runs to the end of the line: the regex finds the code and
    the URL as its two groups. *)
Lemma localized_line_accepted (w1 w2 rest : string) (c1 c2 : ascii) :
  Js.every Js.isWhiteSpace w1 = true ->
  Js.isWhiteSpace c1 = false ->
  Js.isDot c2 = true ->
  Js.every Js.isWhiteSpace w2 = true ->
  Js.every Js.isDot rest = true ->
  let l := w1 +:+ String c1 (String c2 (w2 +:+ "https://" +:+ rest)) in
  exists res,
    Regex.exec localizedLineRegex l = Some res /\
    matchGroups l res = (String c1 (String c2 ""), "https://" +:+ rest).
Proof.
  intros Hw1 Hc1 Hc2 Hw2 Hrest l.
  pose (b1 := String.length w1).
  pose (b2 := b1 + 2 + String.length w2).
  pose (e2 := b2 + String.length ("https://" +:+ rest)).
  exists ([e2; b2; b1 + 2; b1], e2). split.
  - apply execFrom_hit. unfold localizedLineRegex, l. cbn [app Regex.matchFrom].
    apply star_takes_run; [exact Hw1 | exact Hc1 |].
    cbn [Regex.matchFrom]. rewrite (whiteSpace_not_dot_free _ Hc1), Hc2.
    apply star_takes_run; [exact Hw2 | reflexivity |].
    cbn [Regex.matchFrom].
    change (Regex.lit "h" :: Regex.lit "t" :: Regex.lit "t" :: Regex.lit "p" ::
            Regex.lit "s" :: Regex.lit ":" :: Regex.lit "/" :: Regex.lit "/" ::
            [Regex.Star Js.isDot; Regex.Paren])
      with (Regex.lits "https://" ++ [Regex.Star Js.isDot; Regex.Paren]).
    rewrite lits_match. cbn [Regex.matchFrom].
    rewrite <- (app_empty_r rest) at 1.
    apply star_takes_run; [exact Hrest | exact I |].
    cbn [Regex.matchFrom]. unfold e2, b2, b1.
    rewrite length_app_str. simpl. repeat f_equal; lia.
  - unfold matchGroups. cbn [fst]. f_equal.
    + unfold l, b1.
      change (String c1 (String c2 (w2 +:+ "https://" +:+ rest)))
        with (String c1 (String c2 "") +:+ (w2 +:+ "https://" +:+ rest)).
      apply (slice_middle w1 (String c1 (String c2 ""))).
    + unfold e2, b2, b1.
      replace l with ((w1 +:+ String c1 (String c2 w2)) +:+
                      ("https://" +:+ rest) +:+ "").
      * replace (String.length w1 + 2 + String.length w2)
          with (String.length (w1 +:+ String c1 (String c2 w2)))
          by (rewrite length_app_str; simpl; lia).
        apply slice_middle.
      * unfold l. rewrite app_empty_r, app_assoc_str. reflexivity.
Qed.

(** A line in which [https://] does not occur is not matched. *)
Lemma plain_line_rejected (l : string) :
  Js.includes "https://" l = false ->
  Regex.exec localizedLineRegex l = None.
Proof.
  intros Hl. destruct (Regex.exec localizedLineRegex l) as [res|] eqn:E;
    [exfalso | reflexivity].
  apply execFrom_inv in E as (pre & s1 & i1 & -> & Hm).
  unfold localizedLineRegex in Hm. cbn [app Regex.matchFrom] in Hm.
  apply star_inv in Hm as (pre1 & s2 & i2 & -> & Hm).
  cbn [Regex.matchFrom] in Hm.
  destruct s2 as [|c1 s2]; [discriminate|].
  destruct (Js.isDot c1); [|discriminate].
  destruct s2 as [|c2 s2]; [discriminate|].
  destruct (Js.isDot c2); [|discriminate].
  apply star_inv in Hm as (pre2 & s3 & i3 & -> & Hm).
  cbn [Regex.matchFrom] in Hm.
  apply (lits_inv "https://" [Regex.Star Js.isDot; Regex.Paren])
    in Hm as (s4 & ->).
  assert (Js.includes "https://"
            ((pre +:+ pre1 +:+ String c1 (String c2 pre2)) +:+
             "https://" +:+ s4) = true) as Hin by apply includes_app.
  rewrite !app_assoc_str in Hin.
  change (String c1 (String c2 pre2) +:+ "https://" +:+ s4)
    with (String c1 (String c2 (pre2 +:+ "https://" +:+ s4))) in Hin.
  congruence.
Qed.

End CaptionLines.

(** ** Caption parsing *)

Section CaptionParsing.

Lemma parseLine_lineOverride (acc : list LocalizedUrl * string) (l : string) :
  parseLine acc l =
  match lineOverride l with
  | Some u => (fst acc ++ [u], snd acc)
  | None => (fst acc, snd acc +:+ l +:+ " ")
  end.
Proof.
  unfold parseLine, lineOverride.
  now destruct (Regex.exec localizedLineRegex l).
Qed.

Lemma fold_parseLine (lines : list string) (us : list LocalizedUrl)
  (cap : string) :
  List.fold_left parseLine lines (us, cap) =
  (us ++ omap lineOverride lines, cap +:+ captionTextOf lines).
Proof.
  revert us cap. induction lines as [|l lines IH]; intros us cap.
  - simpl. now rewrite app_nil_r, app_empty_r.
  - cbn [List.fold_left captionTextOf]. rewrite parseLine_lineOverride.
    change (omap lineOverride (l :: lines))
      with (match lineOverride l with
            | Some u => u :: omap lineOverride lines
            | None => omap lineOverride lines
            end).
    destruct (lineOverride l) as [u|]; cbn [fst snd]; rewrite IH.
    + now rewrite <- app_assoc.
    + now rewrite !app_assoc_str.
Qed.

Lemma parseImageBlock_ok (ls : list string) (image : ImageBlock) (w : World) :
  locales w = Some ls ->
  let lines := Js.split "010" (mergedCaption image) in
  parseImageBlock image w =
  (Ok {| primaryUrl := match image_source image with
                       | SourceFile u => u
                       | SourceExternal u => u
                       end;
         caption := Js.trim (captionTextOf lines);
         localizedUrls := seeded ls ++ omap lineOverride lines;
         pageInfo := None; primaryBuffer := None; fileType := None;
         primaryFileOutputPath := None; outputFileName := None;
         filePathToUseInMarkdown := None |}, w).
Proof.
  intros Hls lines. unfold parseImageBlock, bind, get. rewrite Hls.
  rewrite fold_parseLine. reflexivity.
Qed.

End CaptionParsing.

(** C9 (as amended). The merged caption is split on newlines and every
    line is either recorded as an override or appended, followed by a
    space, to the caption text, which is trimmed at the end.  A line
    made of optional white space, a two-character code that does not
    begin with white space, optional white space and an https URL up
    to the end of the line is recorded, the code in lower case and the
    URL verbatim.  A line in which https:// does not occur is
    appended. *)
Theorem caption_parsing_rule (ls : list string) (image : ImageBlock)
  (w : World) :
  locales w = Some ls ->
  let lines := Js.split "010" (mergedCaption image) in
  (exists s,
     parseImageBlock image w = (Ok s, w) /\
     localizedUrls s = seeded ls ++ omap lineOverride lines /\
     caption s = Js.trim (captionTextOf lines)) /\
  (forall w1 c1 c2 w2 rest,
     Js.every Js.isWhiteSpace w1 = true ->
     Js.isWhiteSpace c1 = false ->
     Js.isDot c2 = true ->
     Js.every Js.isWhiteSpace w2 = true ->
     Js.every Js.isDot rest = true ->
     lineOverride (w1 +:+ String c1 (String c2 (w2 +:+ "https://" +:+ rest))) =
     Some {| iso632Code := Js.toLowerCase (String c1 (String c2 ""));
             url := "https://" +:+ rest |}) /\
  (forall l, Js.includes "https://" l = false -> lineOverride l = None).
Proof.
  intros Hls lines. repeat split.
  - eexists. split; [apply (parseImageBlock_ok ls image w Hls)|].
    split; reflexivity.
  - intros w1 c1 c2 w2 rest Hw1 Hc1 Hc2 Hw2 Hrest.
    destruct (localized_line_accepted w1 w2 rest c1 c2 Hw1 Hc1 Hc2 Hw2 Hrest)
      as (res & Hexec & Hgroups).
    unfold lineOverride. rewrite Hexec. cbn zeta. now rewrite Hgroups.
  - intros l Hl. unfold lineOverride. now rewrite (plain_line_rejected l Hl).
Qed.

Lemma caption_parsing_rule_witness :
  let w := set_config "" "" ["de"] (moduleLoaded ∅ ∅) in
  let image := {| image_source := SourceFile "https://host/p.png";
                  image_caption := [{| plain_text := "A
 fr  https://example.com/a.png
B" |}] |} in
  locales w = Some ["de"] /\
  (exists s, parseImageBlock image w = (Ok s, w) /\
             localizedUrls s =
               [{| iso632Code := "de"; url := "" |};
                {| iso632Code := "fr"; url := "https://example.com/a.png" |}] /\
             caption s = "A B").
Proof.
  intros w image. split; [reflexivity|].
  destruct (caption_parsing_rule ["de"] image w eq_refl) as [(s & Hp & Hl & Hc) _].
  exists s. split; [exact Hp|]. split.
  - rewrite Hl. vm_compute. reflexivity.
  - rewrite Hc. vm_compute. reflexivity.
Defined.

(** C9 as stated fails: a line that has no white space between the
    code and the URL is not of the shape the claim asks for, and is
    recorded as an override all the same. *)
Lemma caption_parsing_rule_counterexample :
  let line := "frhttps://example.com/a.png" in
  let w := set_config "" "" [] (moduleLoaded ∅ ∅) in
  let image := {| image_source := SourceFile "https://host/p.png";
                  image_caption := [{| plain_text := line |}] |} in
  specLocalizedLine line = false /\
  exists s, parseImageBlock image w = (Ok s, w) /\
            localizedUrls s =
              [{| iso632Code := "fr"; url := "https://example.com/a.png" |}] /\
            caption s = "".
Proof.
  intros line w image. split; [vm_compute; reflexivity|].
  eexists. split; [vm_compute; reflexivity|]. split; reflexivity.
Qed.

(** C10. Once the locales are configured, the caption of the example
    parses to the caption text "Intro text. Outro." and to overrides
    for fr and es, the codes in lower case. *)
Theorem locale_extraction_example (ls : list string) (image : ImageBlock)
  (w : World) :
  locales w = Some ls ->
  mergedCaption image = "Intro text.
fr https://example.com/a.png
ES https://example.com/b.png
Outro." ->
  exists s,
    parseImageBlock image w = (Ok s, w) /\
    caption s = "Intro text. Outro." /\
    In {| iso632Code := "fr"; url := "https://example.com/a.png" |}
       (localizedUrls s) /\
    In {| iso632Code := "es"; url := "https://example.com/b.png" |}
       (localizedUrls s).
Proof.
  intros Hls Hcap. eexists. split; [apply (parseImageBlock_ok ls image w Hls)|].
  cbn [caption localizedUrls]. rewrite Hcap. split; [vm_compute; reflexivity|].
  split; apply in_or_app; right; vm_compute; auto.
Qed.

Lemma locale_extraction_example_witness :
  let w := set_config "/img" "static/img" ["de"; "fr"] (moduleLoaded ∅ ∅) in
  let image :=
    {| image_source := SourceExternal "https://host/p.png";
       image_caption := [{| plain_text := "Intro text.
fr https://example.com/a.png
" |}; {| plain_text := "ES https://example.com/b.png
Outro." |}] |} in
  exists s,
    parseImageBlock image w = (Ok s, w) /\
    caption s = "Intro text. Outro." /\
    In {| iso632Code := "fr"; url := "https://example.com/a.png" |}
       (localizedUrls s) /\
    In {| iso632Code := "es"; url := "https://example.com/b.png" |}
       (localizedUrls s).
Proof.
  intros w image.
  apply (locale_extraction_example ["de"; "fr"] image w); reflexivity.
Defined.

(** ** File names *)

(** The hash agrees with the test vectors of the standard, on one
    block and on several. *)
Example sha256_of_abc :
  Sha256.hex "abc" =
  "ba7816bf8f01cfea414140de5dae2223b00361a396177a9cb410ff61f20015ad".
Proof. vm_compute. reflexivity. Qed.

Example sha256_of_the_empty_string :
  Sha256.hex "" =
  "e3b0c44298fc1c149afbf4c8996fb92427ae41e4649b934ca495991b7852b855".
Proof. vm_compute. reflexivity. Qed.

Example sha256_of_two_blocks :
  Sha256.hex "abcdbcdecdefdefgefghfghighijhijkijkljklmklmnlmnomnopnopq" =
  "248d6a61d20638b8e5c026930c3e6039a33ce45964ff2167f6ecedd419db06c1".
Proof. vm_compute. reflexivity. Qed.

Section Splitting.

Lemma first_split_cons (sep c : ascii) (r : string) :
  Js.first (Js.split sep (String c r)) =
  if Ascii.eqb c sep then "" else String c (Js.first (Js.split sep r)).
Proof.
  simpl. destruct (Ascii.eqb c sep); [reflexivity|].
  now destruct (Js.split sep r).
Qed.

Lemma first_split_lacks (sep : ascii) (a : string) :
  Js.lacks sep a = true -> Js.first (Js.split sep a) = a.
Proof.
  induction a as [|c a IH]; [reflexivity|]. intros Ha.
  cbn in Ha. apply andb_true_iff in Ha as [Hc Ha].
  rewrite first_split_cons. apply negb_true_iff in Hc. rewrite Hc.
  now rewrite (IH Ha).
Qed.

Lemma first_split_app (sep : ascii) (a q : string) :
  Js.lacks sep a = true ->
  Js.first (Js.split sep (a +:+ String sep q)) = a.
Proof.
  induction a as [|c a IH]; intros Ha.
  - rewrite app_Empty, first_split_cons. now rewrite Ascii.eqb_refl.
  - cbn in Ha. apply andb_true_iff in Ha as [Hc Ha].
    rewrite app_String, first_split_cons. apply negb_true_iff in Hc.
    rewrite Hc. now rewrite (IH Ha).
Qed.

Lemma split_lacks (sep : ascii) (e : string) :
  Js.lacks sep e = true -> Js.split sep e = [e].
Proof.
  induction e as [|c e IH]; [reflexivity|]. intros He.
  cbn in He. apply andb_true_iff in He as [Hc He].
  apply negb_true_iff in Hc. simpl. now rewrite Hc, (IH He).
Qed.

Lemma split_app (sep : ascii) (b e : string) :
  exists l, l <> [] /\
            Js.split sep (b +:+ String sep e) = l ++ Js.split sep e.
Proof.
  induction b as [|c b (l & Hl & IH)].
  - exists [""]. split; [discriminate|].
    rewrite app_Empty. simpl. now rewrite Ascii.eqb_refl.
  - rewrite app_String. simpl. rewrite IH. destruct (Ascii.eqb c sep).
    + exists ("" :: l). split; [discriminate | reflexivity].
    + destruct l as [|h t]; [contradiction|].
      exists (String c h :: t). split; [discriminate | reflexivity].
Qed.

Lemma pop_split_app (sep : ascii) (b e : string) :
  Js.lacks sep e = true ->
  Js.pop (Js.split sep (b +:+ String sep e)) = e.
Proof.
  intros He. destruct (split_app sep b e) as (l & _ & ->).
  rewrite (split_lacks sep e He). unfold Js.pop.
  now rewrite List.last_last.
Qed.

(** The text after the last dot is the extension when it is not
    empty. *)
Lemma extension_after_last_dot (base e : string) :
  Js.truthy e = true -> Js.lacks "." e = true ->
  imageFileExtension (base +:+ "." +:+ e) = e.
Proof.
  intros Ht He. unfold imageFileExtension.
  change (base +:+ "." +:+ e) with (base +:+ String "." e).
  rewrite (pop_split_app "." base e He). now rewrite Ht.
Qed.

(** An empty text, or one that ends in a dot, gets [png]. *)
Lemma extension_default (u : string) :
  u = "" \/ (exists base, u = base +:+ ".") ->
  imageFileExtension u = "png".
Proof.
  intros [-> | (base & ->)]; [reflexivity|].
  unfold imageFileExtension.
  change (base +:+ ".") with (base +:+ String "." "").
  now rewrite (pop_split_app "." base "" eq_refl).
Qed.

(** The URL before the query is the text before the first question
    mark. *)
Lemma urlBeforeQuery_spec (a q : string) :
  Js.lacks "?" a = true ->
  urlBeforeQuery a = a /\ urlBeforeQuery (a +:+ "?" +:+ q) = a.
Proof.
  intros Ha. unfold urlBeforeQuery. split.
  - now apply first_split_lacks.
  - change (a +:+ "?" +:+ q) with (a +:+ String "?" q).
    now apply first_split_app.
Qed.

End Splitting.

(** C7 (as amended). In the default format the file name is the slug
    without one leading slash, a dot, the block id, a dot and the
    extension; the slug and its dot are left out when the slug is
    empty.  The extension is read from the URL before its first
    question mark: it is the text after the last dot when that text is
    not empty and has no slash, and png when the URL before the query
    is empty or ends in a dot. *)
Theorem default_file_name `{Host} (force : bool) (s s' : ImageSet)
  (blockId root prefix : string) :
  makeImagePersistencePlanWithoutBuffer
    {| imageFileNameFormat := FormatDefault; forceRefreshImages := force |}
    s blockId root prefix = Ok s' ->
  let u := urlBeforeQuery (primaryUrl s) in
  outputFileName s' =
    Some (pageSlugPart (pageInfo s) +:+ blockId +:+ "." +:+
          imageFileExtension u) /\
  (forall a q, Js.lacks "?" a = true ->
               primaryUrl s = a \/ primaryUrl s = a +:+ "?" +:+ q -> u = a) /\
  (forall base e, u = base +:+ "." +:+ e -> Js.truthy e = true ->
                  Js.lacks "." e = true -> Js.lacks "/" e = true ->
                  imageFileExtension u = e) /\
  (u = "" \/ (exists base, u = base +:+ ".") -> imageFileExtension u = "png").
Proof.
  intros Hplan u. repeat split.
  - unfold makeImagePersistencePlanWithoutBuffer in Hplan.
    cbn [imageFileNameFormat] in Hplan.
    destruct (if Js.truthy root then Some root
              else directoryContainingMarkdown <$> pageInfo s);
      [|discriminate].
    match type of Hplan with
    | match decodeURI ?n with _ => _ end = _ =>
        destruct (decodeURI n); [|discriminate]
    end.
    injection Hplan as <-. reflexivity.
  - intros a q Ha [Hu | Hu]; unfold u; rewrite Hu;
      apply (urlBeforeQuery_spec a q Ha).
  - intros base e Hu Ht He _. rewrite Hu.
    now apply extension_after_last_dot.
  - apply extension_default.
Qed.

Lemma default_file_name_witness :
  let s := {| primaryUrl := "https://example.com/a/pic.jpg?x=1.5";
              caption := ""; localizedUrls := [];
              pageInfo := Some {| slug := "/intro";
                                  directoryContainingMarkdown := "docs";
                                  relativeFilePathToFolderContainingPage := "" |};
              primaryBuffer := None; fileType := None;
              primaryFileOutputPath := None; outputFileName := None;
              filePathToUseInMarkdown := None |} in
  exists s',
    makeImagePersistencePlanWithoutBuffer (H := plainHost)
      {| imageFileNameFormat := FormatDefault; forceRefreshImages := false |}
      s "b1" "static/img" "/img" = Ok s' /\
    outputFileName s' = Some "intro.b1.jpg".
Proof.
  intros s. eexists. split; [vm_compute; reflexivity|].
  refine (proj1 (default_file_name (H := plainHost) false s _ "b1"
                   "static/img" "/img" _)).
  vm_compute. reflexivity.
Defined.

(** C7 as stated fails: the slug keeps no leading slash in the name. *)
Lemma default_file_name_counterexample :
  let s := {| primaryUrl := "https://example.com/a.png";
              caption := ""; localizedUrls := [];
              pageInfo := Some {| slug := "/intro";
                                  directoryContainingMarkdown := "docs";
                                  relativeFilePathToFolderContainingPage := "" |};
              primaryBuffer := None; fileType := None;
              primaryFileOutputPath := None; outputFileName := None;
              filePathToUseInMarkdown := None |} in
  exists s',
    makeImagePersistencePlanWithoutBuffer (H := plainHost)
      {| imageFileNameFormat := FormatDefault; forceRefreshImages := false |}
      s "b1" "static/img" "/img" = Ok s' /\
    outputFileName s' = Some "intro.b1.png" /\
    outputFileName s' <> Some (specDefaultName "/intro" "b1" "png").
Proof.
  intros s. eexists. split; [vm_compute; reflexivity|].
  split; [reflexivity | vm_compute; discriminate].
Qed.

(** What the code does with a URL whose path has no extension: the
    text after the last dot of the host name is taken. *)
Example extension_of_a_path_without_dot :
  imageFileExtension (urlBeforeQuery "https://example.com/image?width=200")
  = "com/image".
Proof. vm_compute. reflexivity. Qed.

Section UuidScan.
Import Regex.

Lemma times_hex_match (n : nat) r (s : string) (i : nat) marks :
  matchFrom (times n (One isHexDigit) ++ r) s i marks =
  match hexRun n s with
  | Some s' => matchFrom r s' (i + n) marks
  | None => None
  end.
Proof.
  revert s i. induction n as [|n IH]; intros s i.
  - simpl. now rewrite Nat.add_0_r.
  - destruct s as [|c s]; [reflexivity|]. simpl.
    destruct (isHexDigit c); [|reflexivity].
    rewrite IH. now replace (S i + n) with (i + S n) by lia.
Qed.

Lemma dash_match r (s : string) (i : nat) marks :
  matchFrom (lit "-" :: r) s i marks =
  match dash s with
  | Some s' => matchFrom r s' (S i) marks
  | None => None
  end.
Proof.
  destruct s as [|c s]; [reflexivity|]. unfold lit, dash.
  cbn [matchFrom]. now destruct (Ascii.eqb "-" c).
Qed.

(** The regex matches at the head of [s] exactly when [s] begins
    with a UUID-shaped text, and then it takes 36 characters. *)
Lemma uuidRegex_match (s : string) (i : nat) marks :
  matchFrom uuidRegex s i marks =
  if uuidPrefix s then Some (marks, i + 36) else None.
Proof.
  unfold uuidRegex, uuidPrefix. cbn zeta.
  rewrite times_hex_match. destruct (hexRun 8 s) as [s1|]; [|reflexivity].
  cbn [app]. rewrite dash_match. destruct (dash s1) as [s2|]; [|reflexivity].
  rewrite times_hex_match. destruct (hexRun 4 s2) as [s3|]; [|reflexivity].
  cbn [app]. rewrite dash_match. destruct (dash s3) as [s4|]; [|reflexivity].
  rewrite times_hex_match. destruct (hexRun 4 s4) as [s5|]; [|reflexivity].
  cbn [app]. rewrite dash_match. destruct (dash s5) as [s6|]; [|reflexivity].
  rewrite times_hex_match. destruct (hexRun 4 s6) as [s7|]; [|reflexivity].
  cbn [app]. rewrite dash_match. destruct (dash s7) as [s8|]; [|reflexivity].
  rewrite <- (app_nil_r (times 12 (One isHexDigit))), times_hex_match.
  destruct (hexRun 12 s8) as [s9|]; [|reflexivity].
  simpl. do 2 f_equal. lia.
Qed.

Lemma matchAllFuel_uuid (fuel : nat) (s : string) :
  matchAllFuel uuidRegex fuel s = uuidScanFuel fuel s.
Proof.
  revert s. induction fuel as [|fuel IH]; intros s; [reflexivity|].
  cbn [matchAllFuel uuidScanFuel]. rewrite uuidRegex_match.
  destruct (uuidPrefix s).
  - cbn [Nat.add]. now rewrite IH.
  - destruct s; [reflexivity | apply IH].
Qed.

Lemma pop_is_last (x : string) (l : list string) :
  Some (List.last (x :: l) "") = last (x :: l).
Proof.
  revert x. induction l as [|y l IH]; intros x; [reflexivity|].
  rewrite last_cons_cons, <- IH. reflexivity.
Qed.

Lemma findLastUuid_scan (u : string) : findLastUuid u = last (uuidScan u).
Proof.
  unfold findLastUuid, matchAll, uuidScan. rewrite matchAllFuel_uuid.
  destruct (uuidScanFuel (S (String.length u)) u) as [|x l];
    [reflexivity | apply pop_is_last].
Qed.

Lemma hexRun_spec (n : nat) (s r : string) :
  hexRun n s = Some r ->
  exists h, s = h +:+ r /\ String.length h = n /\
            forall r', hexRun n (h +:+ r') = Some r'.
Proof.
  revert s. induction n as [|n IH]; intros s Hs.
  - injection Hs as ->. exists "". repeat split.
  - destruct s as [|c s]; [discriminate|]. simpl in Hs.
    destruct (isHexDigit c) eqn:Hc; [|discriminate].
    destruct (IH _ Hs) as (h & -> & Hlen & Hh).
    exists (String c h). repeat split.
    + simpl. now rewrite Hlen.
    + intros r'. rewrite app_String. simpl. now rewrite Hc.
Qed.

Lemma dash_spec (s r : string) :
  dash s = Some r ->
  s = "-" +:+ r /\ forall r', dash ("-" +:+ r') = Some r'.
Proof.
  destruct s as [|c s]; [discriminate|]. unfold dash.
  destruct (Ascii.eqb "-" c) eqn:E; [|discriminate].
  apply Ascii.eqb_eq in E as <-. intros [= ->]. now split.
Qed.

(** A UUID-shaped head is 36 characters long and stays UUID-shaped
    whatever follows it. *)
Lemma uuidPrefix_spec (s : string) :
  uuidPrefix s = true ->
  exists x rest, s = x +:+ rest /\ String.length x = 36 /\
                 forall r', uuidPrefix (x +:+ r') = true.
Proof.
  unfold uuidPrefix. cbn zeta. intros Hs.
  destruct (hexRun 8 s) as [s1|] eqn:E1; [|discriminate].
  destruct (dash s1) as [s2|] eqn:E2; [|discriminate].
  destruct (hexRun 4 s2) as [s3|] eqn:E3; [|discriminate].
  destruct (dash s3) as [s4|] eqn:E4; [|discriminate].
  destruct (hexRun 4 s4) as [s5|] eqn:E5; [|discriminate].
  destruct (dash s5) as [s6|] eqn:E6; [|discriminate].
  destruct (hexRun 4 s6) as [s7|] eqn:E7; [|discriminate].
  destruct (dash s7) as [s8|] eqn:E8; [|discriminate].
  destruct (hexRun 12 s8) as [s9|] eqn:E9; [|discriminate].
  apply hexRun_spec in E1 as (h1 & -> & L1 & H1).
  apply dash_spec in E2 as (-> & D2).
  apply hexRun_spec in E3 as (h3 & -> & L3 & H3).
  apply dash_spec in E4 as (-> & D4).
  apply hexRun_spec in E5 as (h5 & -> & L5 & H5).
  apply dash_spec in E6 as (-> & D6).
  apply hexRun_spec in E7 as (h7 & -> & L7 & H7).
  apply dash_spec in E8 as (-> & D8).
  apply hexRun_spec in E9 as (h9 & -> & L9 & H9).
  exists (h1 +:+ "-" +:+ h3 +:+ "-" +:+ h5 +:+ "-" +:+ h7 +:+ "-" +:+ h9), s9.
  split; [now rewrite !app_assoc_str|]. split.
  - rewrite !length_app_str, L1, L3, L5, L7, L9. reflexivity.
  - intros r'. rewrite !app_assoc_str.
    now rewrite H1, D2, H3, D4, H5, D6, H7, D8, H9.
Qed.

Lemma skipn_app (x rest : string) :
  skipn (String.length x) (x +:+ rest) = rest.
Proof.
  induction x as [|c x IH]; [now destruct rest|].
  rewrite app_String. exact IH.
Qed.

(** Every text the scan returns is a UUID-shaped substring. *)
Lemma uuidScanFuel_sound (fuel : nat) (s x : string) :
  In x (uuidScanFuel fuel s) ->
  uuidPrefix x = true /\ String.length x = 36 /\
  exists pre post, s = pre +:+ x +:+ post.
Proof.
  revert s. induction fuel as [|fuel IH]; intros s Hx; [contradiction|].
  cbn [uuidScanFuel] in Hx. destruct (uuidPrefix s) eqn:Hs.
  - apply uuidPrefix_spec in Hs as (y & rest & -> & Hlen & Hy).
    unfold Js.substring0 in Hx. rewrite <- Hlen in Hx.
    rewrite substring_prefix, skipn_app in Hx. destruct Hx as [<- | Hx].
    + split; [rewrite <- (app_empty_r y); apply Hy|].
      split; [exact Hlen|]. exists "", rest. reflexivity.
    + destruct (IH _ Hx) as (Hp & Hl & pre & post & ->).
      split; [exact Hp|]. split; [exact Hl|].
      exists (y +:+ pre), post. now rewrite app_assoc_str.
  - destruct s as [|c s]; [contradiction|].
    destruct (IH _ Hx) as (Hp & Hl & pre & post & ->).
    split; [exact Hp|]. split; [exact Hl|].
    exists (String c pre), post. reflexivity.
Qed.

(** The scan finds nothing exactly when no UUID-shaped substring
    exists. *)
Lemma uuidScanFuel_nil (fuel : nat) (s : string) :
  String.length s < fuel ->
  uuidScanFuel fuel s = [] <-> lastUuidSubstring s = None.
Proof.
  revert s. induction fuel as [|fuel IH]; intros s Hlen; [lia|].
  cbn [uuidScanFuel]. destruct s as [|c s].
  - split; reflexivity.
  - cbn [lastUuidSubstring]. simpl in Hlen.
    destruct (uuidPrefix (String c s)).
    + split; [discriminate|]. now destruct (lastUuidSubstring s).
    + rewrite (IH s) by lia. now destruct (lastUuidSubstring s).
Qed.

(** The fuel of the scan is enough: more of it finds nothing more. *)
Lemma uuidScanFuel_enough (f1 f2 : nat) (s : string) :
  String.length s < f1 -> String.length s < f2 ->
  uuidScanFuel f1 s = uuidScanFuel f2 s.
Proof.
  revert f2 s. induction f1 as [|f1 IH]; intros f2 s H1 H2; [lia|].
  destruct f2 as [|f2]; [lia|]. cbn [uuidScanFuel].
  destruct (uuidPrefix s) eqn:Hs.
  - f_equal. apply uuidPrefix_spec in Hs as (x & rest & -> & Hlen & _).
    rewrite <- Hlen, skipn_app. rewrite length_app_str in H1, H2.
    apply IH; lia.
  - destruct s as [|c s]; [reflexivity|]. simpl in H1, H2. apply IH; lia.
Qed.

End UuidScan.

(** C8 (as amended). In the legacy format the file name is the first
    eight hexadecimal characters of the SHA-256 of a text, a dot and
    the extension computed as in the default format.  The text is the
    last UUID-shaped substring found by a scan of the URL before the
    query that goes from left to right and resumes after each
    substring it finds, or the whole URL before the query when it has
    no UUID-shaped substring. *)
Theorem legacy_file_name `{Host} (force : bool) (s s' : ImageSet)
  (blockId root prefix : string) :
  makeImagePersistencePlanWithoutBuffer
    {| imageFileNameFormat := FormatLegacy; forceRefreshImages := force |}
    s blockId root prefix = Ok s' ->
  let u := urlBeforeQuery (primaryUrl s) in
  outputFileName s' =
    Some (Js.substring0 8 (Sha256.hex (default u (last (uuidScan u)))) +:+
          "." +:+ imageFileExtension u) /\
  (forall x, last (uuidScan u) = Some x ->
             uuidPrefix x = true /\ String.length x = 36 /\
             exists pre post, u = pre +:+ x +:+ post) /\
  (last (uuidScan u) = None <-> lastUuidSubstring u = None).
Proof.
  intros Hplan u. split; [|split].
  - unfold makeImagePersistencePlanWithoutBuffer in Hplan.
    cbn [imageFileNameFormat] in Hplan.
    destruct (if Js.truthy root then Some root
              else directoryContainingMarkdown <$> pageInfo s);
      [|discriminate].
    match type of Hplan with
    | match decodeURI ?n with _ => _ end = _ =>
        destruct (decodeURI n); [|discriminate]
    end.
    injection Hplan as <-. cbn [outputFileName with_plan].
    rewrite findLastUuid_scan. reflexivity.
  - intros x Hx. apply last_Some_elem_of, list_elem_of_In in Hx.
    now apply uuidScanFuel_sound in Hx.
  - unfold uuidScan. rewrite last_None. apply uuidScanFuel_nil. lia.
Qed.

Lemma legacy_file_name_witness :
  let s := {| primaryUrl :=
                "https://s3.example.com/0123abcd-0123-4567-89ab-0123456789AB/pic.png?sig=1";
              caption := ""; localizedUrls := [];
              pageInfo := None;
              primaryBuffer := None; fileType := None;
              primaryFileOutputPath := None; outputFileName := None;
              filePathToUseInMarkdown := None |} in
  exists s',
    makeImagePersistencePlanWithoutBuffer (H := plainHost)
      {| imageFileNameFormat := FormatLegacy; forceRefreshImages := false |}
      s "b1" "static/img" "/img" = Ok s' /\
    outputFileName s' = Some "36c06232.png".
Proof.
  intros s. eexists. split; [vm_compute; reflexivity|].
  etransitivity;
    [refine (proj1 (legacy_file_name (H := plainHost) false s _ "b1"
                      "static/img" "/img" _)); vm_compute; reflexivity|].
  vm_compute. reflexivity.
Defined.

(** C8 as stated fails: two UUID-shaped substrings can overlap, and
    then the scan never sees the one that starts last. *)
Lemma legacy_file_name_counterexample :
  let u := "https://cdn.example.com/aaaaaaaa-bbbb-cccc-dddd-eeeeeeeeeeee-ffff-0000-1111-222222222222.png" in
  let s := {| primaryUrl := u;
              caption := ""; localizedUrls := [];
              pageInfo := None;
              primaryBuffer := None; fileType := None;
              primaryFileOutputPath := None; outputFileName := None;
              filePathToUseInMarkdown := None |} in
  lastUuidSubstring (urlBeforeQuery u) =
    Some "eeeeeeee-ffff-0000-1111-222222222222" /\
  findLastUuid (urlBeforeQuery u) = Some "aaaaaaaa-bbbb-cccc-dddd-eeeeeeeeeeee" /\
  exists s',
    makeImagePersistencePlanWithoutBuffer (H := plainHost)
      {| imageFileNameFormat := FormatLegacy; forceRefreshImages := false |}
      s "b1" "static/img" "/img" = Ok s' /\
    outputFileName s' = Some "9af645a8.png" /\
    specLegacyName u = "95a01ea9.png" /\
    outputFileName s' <> Some (specLegacyName u).
Proof.
  intros u s. split; [vm_compute; reflexivity|].
  split; [vm_compute; reflexivity|].
  eexists. split; [vm_compute; reflexivity|].
  split; [reflexivity|]. split; [vm_compute; reflexivity|].
  vm_compute. discriminate.
Qed.

(** ** The sweep *)

Section Sweep.


(** Removing files that are all there, none twice, succeeds. *)
Lemma sweep_ok (l : list string) (w : World) :
  NoDup l -> (forall q, q ∈ l -> is_Some (files w !! q)) ->
  exists w',
    forEach (fun p (_ : unit) => rm p) l tt w = (Ok tt, w') /\
    log w' = log w ++ List.map ERemove l /\
    existingImagesNotSeenYetInPull w' = existingImagesNotSeenYetInPull w /\
    (forall q, files w' !! q = if decide (q ∈ l) then None else files w !! q).
Proof.
  revert w. induction l as [|p l IH]; intros w Hnd Hall.
  - exists w. split; [reflexivity|].
    split; [simpl; now rewrite app_nil_r|]. split; [reflexivity|].
    intros q. destruct (decide (q ∈ [])) as [Hq|_]; [|reflexivity].
    now apply not_elem_of_nil in Hq.
  - apply NoDup_cons in Hnd as [Hp Hnd].
    destruct (Hall p) as [b Hb]; [left|].
    cbn [forEach]. unfold bind, rm at 1. rewrite Hb.
    set (w1 := logged _ _).
    destruct (IH w1 Hnd) as (w' & Hrun & Hlog & Hreg & Hfiles).
    { intros q Hq. unfold w1. cbn. rewrite lookup_delete_ne.
      - apply Hall. now right.
      - intros ->. contradiction. }
    exists w'. split; [exact Hrun|]. split; [|split].
    + rewrite Hlog. unfold w1. cbn. now rewrite <- app_assoc.
    + rewrite Hreg. reflexivity.
    + intros q. rewrite Hfiles. unfold w1. cbn.
      destruct (decide (q ∈ l)) as [Hq|Hq].
      * rewrite decide_True; [reflexivity | now right].
      * destruct (decide (q = p)) as [->|Hne].
        -- rewrite decide_True; [|left]. apply lookup_delete_eq.
        -- rewrite decide_False; [now apply lookup_delete_ne|].
           intros Hin. apply elem_of_cons in Hin as [?|?]; contradiction.
Qed.

End Sweep.




(** ** Frame rules *)

Section Frames.
Context (R : World -> World -> Prop) `{!PreOrder R}.

Lemma keeps_ret {A} (a : A) : keeps R (ret a).
Proof. intros w. reflexivity. Qed.

Lemma keeps_throw {A} (e : Error) : keeps R (throw (A := A) e).
Proof. intros w. reflexivity. Qed.

Lemma keeps_get : keeps R get.
Proof. intros w. reflexivity. Qed.

Lemma keeps_lift {A} (r : Result A) : keeps R (lift r).
Proof. intros w. reflexivity. Qed.

Lemma keeps_bind {A B} (m : M A) (k : A -> M B) :
  keeps R m -> (forall a, keeps R (k a)) -> keeps R (bind m k).
Proof.
  intros Hm Hk w. unfold bind. specialize (Hm w).
  destruct (m w) as [[a|e] w1]; [|exact Hm].
  etransitivity; [exact Hm | apply Hk].
Qed.

Lemma keeps_forEach {A S} (body : A -> S -> M S) (l : list A) (s : S) :
  (forall a s, keeps R (body a s)) -> keeps R (forEach body l s).
Proof.
  intros Hbody. revert s. induction l as [|a l IH]; intros s.
  - apply keeps_ret.
  - cbn [forEach]. apply keeps_bind; [apply Hbody | exact IH].
Qed.

End Frames.

Global Instance shrinks_preorder : PreOrder shrinks.
Proof.
  split.
  - intros w p Hp. exact Hp.
  - intros w1 w2 w3 H12 H23 p Hp. apply H12, H23, Hp.
Qed.

Global Instance grows_preorder : PreOrder grows.
Proof.
  split.
  - intros w. split; try reflexivity; auto.
  - intros w1 w2 w3 [] []. split; try (etransitivity; eassumption); auto.
Qed.

(** Structural steps of a frame proof. *)
Ltac frame_step :=
  first
    [ apply keeps_ret; solve [typeclasses eauto]
    | apply keeps_throw; solve [typeclasses eauto]
    | apply keeps_get; solve [typeclasses eauto]
    | apply keeps_lift; solve [typeclasses eauto]
    | apply keeps_forEach; [typeclasses eauto | intros]
    | apply keeps_bind; [typeclasses eauto | | intros]
    | match goal with
      | |- keeps _ (match ?x with _ => _ end) => destruct x
      end ].

Section Primitives.

Lemma filter_shrinks (path : string) (w : World) :
  shrinks w (set_registry
               (List.filter (fun p => negb (String.eqb p path))
                  (existingImagesNotSeenYetInPull w)) w).
Proof.
  intros p Hp. cbn in Hp. apply list_elem_of_In, List.filter_In in Hp as [Hp _].
  now apply list_elem_of_In.
Qed.

Lemma grows_emit (e : Event) : keeps grows (emit e).
Proof.
  intros w. split; try reflexivity; cbn; auto.
  - intros p Hp. exact Hp.
  - now apply prefix_app_r.
Qed.

Lemma grows_existsSync (path : string) : keeps grows (existsSync path).
Proof.
  intros w. split; try reflexivity; cbn; auto.
  - intros p Hp. exact Hp.
  - now apply prefix_app_r.
Qed.

Lemma grows_fetch (u : string) : keeps grows (fetch u).
Proof.
  unfold fetch. apply keeps_bind; [typeclasses eauto | apply grows_emit |].
  intros _ w. destruct (remote w !! u); reflexivity.
Qed.

Lemma grows_writeAsset (path : string) (b : Buffer) :
  keeps grows (writeAsset path b).
Proof.
  unfold writeAsset. apply keeps_bind; [typeclasses eauto | apply grows_emit |].
  intros _ w. split; try reflexivity; cbn.
  - intros p Hp. exact Hp.
  - intros p Hp. destruct (decide (path = p)) as [->|Hne].
    + rewrite lookup_insert_eq. now eexists.
    + now rewrite lookup_insert_ne.
Qed.

Lemma grows_imageWasSeen (path : string) : keeps grows (imageWasSeen path).
Proof.
  intros w. split; try reflexivity; cbn; auto. apply filter_shrinks.
Qed.

Lemma grows_parseImageBlock (image : ImageBlock) :
  keeps grows (parseImageBlock image).
Proof.
  intros w. unfold parseImageBlock, bind, get.
  destruct (locales w); reflexivity.
Qed.

End Primitives.

Ltac grows_step :=
  first
    [ apply grows_emit | apply grows_existsSync | apply grows_fetch
    | apply grows_writeAsset | apply grows_imageWasSeen
    | apply grows_parseImageBlock | frame_step ].

Section Processing.
Context `{Host}.

Lemma grows_readPrimaryImage (s : ImageSet) : keeps grows (readPrimaryImage s).
Proof. unfold readPrimaryImage. repeat grows_step. Qed.

Lemma grows_mayKeep (o : Options) (path : string) :
  keeps grows (mayKeep o path).
Proof. unfold mayKeep. repeat grows_step. Qed.

Lemma grows_saveLocalizedImage ctx e s :
  keeps grows (saveLocalizedImage ctx e s).
Proof.
  unfold saveLocalizedImage.
  repeat first [apply grows_mayKeep | apply grows_readPrimaryImage | grows_step].
Qed.

Lemma grows_saveLocalizedImages s ctx :
  keeps grows (saveLocalizedImages s ctx).
Proof.
  unfold saveLocalizedImages. apply keeps_forEach; [typeclasses eauto|].
  intros. apply grows_saveLocalizedImage.
Qed.

Lemma grows_saveImage s ctx : keeps grows (saveImage s ctx).
Proof.
  unfold saveImage.
  repeat first [apply grows_mayKeep | apply grows_saveLocalizedImages
               | grows_step].
Qed.

Lemma grows_processImageSet block ctx :
  keeps grows (processImageSet block ctx).
Proof.
  unfold processImageSet.
  repeat first [apply grows_readPrimaryImage | apply grows_saveImage
               | apply grows_saveLocalizedImages | grows_step].
Qed.

Lemma grows_transformer block ctx :
  keeps grows (markdownToMDImageTransformer block ctx).
Proof.
  unfold markdownToMDImageTransformer, processImageBlock.
  repeat first [apply grows_processImageSet | grows_step].
Qed.

Lemma shrinks_call (o : Op) (w : World) : shrinks w (call o w).
Proof.
  destruct o as [prefix outputPath ls | image | block ctx |]; cbn [call].
  - unfold initImageHandling, bind. cbn.
    destruct (Js.truthy outputPath); intros p Hp; exact Hp.
  - apply grows_registry, grows_parseImageBlock.
  - apply grows_registry, grows_transformer.
  - unfold cleanupOldImages, bind, get.
    generalize (existingImagesNotSeenYetInPull w) at 1. intros l.
    revert w. induction l as [|q l IH]; intros w; [reflexivity|].
    cbn [forEach]. unfold bind, rm at 1.
    destruct (files w !! q); [|reflexivity].
    etransitivity; [|apply IH]. intros p Hp. exact Hp.
Qed.

End Processing.

(** C4. No operation of the module adds a path to the registry; from
    the state in which the module is loaded, whatever is called and in
    whatever order, the registry stays empty and [cleanupOldImages]
    returns without deleting a file. *)
Theorem registry_stays_empty `{Host} :
  existingImagesNotSeenYetInPull (moduleLoaded ∅ ∅) = [] /\
  (forall prefix outputPath ls (w : World),
     existingImagesNotSeenYetInPull
       (snd (initImageHandling prefix outputPath ls w)) =
     existingImagesNotSeenYetInPull w) /\
  (forall path (w : World) (p : string),
     p ∈ existingImagesNotSeenYetInPull (snd (imageWasSeen path w)) ->
     p ∈ existingImagesNotSeenYetInPull w /\ p <> path) /\
  (forall (o : Op) (w : World) (p : string),
     p ∈ existingImagesNotSeenYetInPull (call o w) ->
     p ∈ existingImagesNotSeenYetInPull w) /\
  (forall fs net (os : list Op),
     existingImagesNotSeenYetInPull (calls os (moduleLoaded fs net)) = []) /\
  (forall fs net (os : list Op),
     let w := calls os (moduleLoaded fs net) in
     cleanupOldImages w = (Ok tt, w)).
Proof.
  assert (forall fs net (os : list Op),
            existingImagesNotSeenYetInPull (calls os (moduleLoaded fs net)) = [])
    as Hempty.
  { intros fs net os. unfold calls.
    assert (existingImagesNotSeenYetInPull (moduleLoaded fs net) = []) as H0
      by reflexivity.
    revert H0. generalize (moduleLoaded fs net). induction os as [|o os IH];
      intros w Hw; [exact Hw|].
    cbn [List.fold_left]. apply IH.
    destruct (existingImagesNotSeenYetInPull (call o w)) as [|p l] eqn:E;
      [reflexivity|].
    assert (p ∈ existingImagesNotSeenYetInPull w) as Hp
      by (apply (shrinks_call o w); rewrite E; left).
    rewrite Hw in Hp. now apply not_elem_of_nil in Hp. }
  split; [reflexivity|]. split; [|split; [|split; [|split]]].
  - intros prefix outputPath ls w. unfold initImageHandling, bind. cbn.
    now destruct (Js.truthy outputPath).
  - intros path w p Hp. cbn in Hp.
    apply list_elem_of_In, List.filter_In in Hp as [Hp Hne].
    split; [now apply list_elem_of_In|].
    intros ->. now rewrite String.eqb_refl in Hne.
  - intros o w. exact (shrinks_call o w).
  - exact Hempty.
  - intros fs net os w. unfold cleanupOldImages, bind, get.
    unfold w at 1. rewrite Hempty. reflexivity.
Qed.

(** ** The gate, site by site *)

Section Gate.
Context `{Host}.

Lemma logged_logged (e1 e2 : list Event) (w : World) :
  logged e2 (logged e1 w) = logged (e1 ++ e2) w.
Proof. unfold logged, set_log. cbn. now rewrite <- app_assoc. Qed.

Lemma logged_nil (w : World) : logged [] w = w.
Proof. destruct w. unfold logged, set_log. cbn. now rewrite app_nil_r. Qed.

Lemma mayKeep_run (o : Options) (path : string) (w : World) :
  mayKeep o path w =
  (Ok (match CacheGate (forceRefreshImages o) (fileExists w path) with
       | Skip => true
       | Write => false
       end),
   logged (asked (forceRefreshImages o) path) w).
Proof.
  unfold mayKeep, CacheGate, asked. destruct (forceRefreshImages o); cbn.
  - now rewrite logged_nil.
  - unfold existsSync. now destruct (fileExists w path).
Qed.

Lemma saveLocalizedImage_gate ctx e s pi (w : World) :
  pageInfo s = Some pi ->
  saveLocalizedImage ctx e s w = specLocalizedImage ctx e s pi w.
Proof.
  intros Hpi. unfold saveLocalizedImage, specLocalizedImage. rewrite Hpi.
  set (path := localizedPath s pi e).
  set (force := forceRefreshImages (ctx_options ctx)).
  unfold bind at 1. unfold imageWasSeen. unfold bind at 1.
  rewrite mayKeep_run. fold force.
  assert (fileExists (seen path w) path = fileExists w path) as -> by reflexivity.
  destruct (CacheGate force (fileExists w path)) eqn:Hgate.
  - unfold CacheGate in Hgate. destruct force; [discriminate|].
    cbn. unfold logged. cbn. now rewrite <- app_assoc.
  - destruct (Js.truthy (url e)).
    + unfold bind, fetch, bind, emit, writeAsset, bind, emit, ret. cbn.
      destruct (remote w !! url e) as [r|]; cbn.
      * unfold written, logged. cbn. now rewrite <- !app_assoc.
      * unfold logged. cbn. now rewrite <- !app_assoc.
    + destruct (primaryBuffer s) as [buf|] eqn:Hbuf.
      * unfold bind, ret. cbn. rewrite Hbuf.
        unfold writeAsset, bind, emit. cbn.
        unfold written, logged. cbn. now rewrite <- !app_assoc.
      * unfold bind, readPrimaryImage, bind, fetch, bind, emit, ret. cbn.
        destruct (remote w !! primaryUrl s) as [r|]; cbn.
        -- unfold writeAsset, bind, emit. cbn.
           unfold written, logged. cbn. now rewrite <- !app_assoc.
        -- unfold logged. cbn. now rewrite <- !app_assoc.
Qed.


Lemma saveImage_run s ctx path (w : World) :
  primaryFileOutputPath s = Some path ->
  let force := forceRefreshImages (ctx_options ctx) in
  saveImage s ctx w =
  match CacheGate force (fileExists w path) with
  | Skip => saveLocalizedImages s ctx
              (logged [EExists path; ESkip path] (seen path w))
  | Write =>
      match primaryBuffer s with
      | Some buffer =>
          saveLocalizedImages s ctx
            (written path buffer
               (logged (asked force path ++ [EWrite path buffer])
                  (seen path w)))
      | None => (Err TypeError, logged (asked force path) (seen path w))
      end
  end.
Proof.
  intros Hpath force. unfold saveImage. rewrite Hpath.
  unfold bind at 1. unfold imageWasSeen. unfold bind at 1.
  rewrite mayKeep_run. fold force.
  assert (fileExists (seen path w) path = fileExists w path) as -> by reflexivity.
  destruct (CacheGate force (fileExists w path)) eqn:Hgate.
  - unfold CacheGate in Hgate. destruct force; [discriminate|].
    unfold bind, emit. cbn. now rewrite logged_logged.
  - destruct (primaryBuffer s) as [buffer|].
    + unfold bind, writeAsset, bind, emit. cbn. now rewrite logged_logged.
    + reflexivity.
Qed.

Lemma saveImage_gate s ctx path buffer (w : World) :
  primaryFileOutputPath s = Some path ->
  primaryBuffer s = Some buffer ->
  saveImage s ctx w =
  saveLocalizedImages s ctx
    (specPrimaryImage (forceRefreshImages (ctx_options ctx)) path buffer w).
Proof.
  intros Hpath Hbuf. rewrite (saveImage_run s ctx path w Hpath).
  unfold specPrimaryImage. rewrite Hbuf.
  now destruct (CacheGate _ _).
Qed.

Lemma parse_cases image (w : World) :
  (locales w = None /\ parseImageBlock image w = (Err NotInitialised, w)) \/
  (exists parsed,
     parseImageBlock image w = (Ok parsed, w) /\
     primaryBuffer parsed = None /\ pageInfo parsed = None /\
     primaryUrl parsed = match image_source image with
                         | SourceFile u => u
                         | SourceExternal u => u
                         end).
Proof.
  destruct (locales w) as [ls|] eqn:Hls.
  - right. eexists. split; [apply (parseImageBlock_ok ls image w Hls)|].
    now repeat split.
  - left. split; [reflexivity|].
    unfold parseImageBlock, bind, get. now rewrite Hls.
Qed.

Lemma plan_fields o s id root prefix s' :
  makeImagePersistencePlanWithoutBuffer o s id root prefix = Ok s' ->
  (exists dir name, primaryFileOutputPath s' = Some (posix_join dir name)) /\
  is_Some (outputFileName s') /\
  pageInfo s' = pageInfo s /\ primaryBuffer s' = primaryBuffer s /\
  localizedUrls s' = localizedUrls s /\ primaryUrl s' = primaryUrl s.
Proof.
  unfold makeImagePersistencePlanWithoutBuffer.
  destruct (if Js.truthy root then Some root
            else directoryContainingMarkdown <$> pageInfo s) as [dir|];
    [|discriminate].
  match goal with
  | |- match decodeURI ?n with _ => _ end = _ -> _ =>
      destruct (decodeURI n) as [d|]; [|discriminate]
  end.
  intros [= <-]. cbn. split; [now exists dir, d|]. now repeat split.
Qed.

Lemma readPrimaryImage_run s (w : World) :
  readPrimaryImage s w =
  match remote w !! primaryUrl s with
  | Some r =>
      (Ok (with_primaryImage (body r) (fileTypeFromBuffer (body r)) s),
       logged [EFetch (primaryUrl s)] w)
  | None => (Err (FetchRejected (primaryUrl s)),
             logged [EFetch (primaryUrl s)] w)
  end.
Proof.
  unfold readPrimaryImage, bind, fetch, bind, emit, ret. cbn.
  now destruct (remote w !! primaryUrl s).
Qed.

(** Equal worlds, up to the bracketing of the log. *)
Ltac same_world :=
  unfold written, logged, seen, asked; cbn;
  rewrite <- ?app_assoc; reflexivity.

Lemma fetch_then_save s ctx path (w w1 : World) :
  primaryFileOutputPath s = Some path ->
  remote w1 = remote w -> files w1 = files w ->
  (s2 <- readPrimaryImage s ;; saveImage s2 ctx) w1 =
  match remote w !! primaryUrl s with
  | Some r =>
      saveLocalizedImages
        (with_primaryImage (body r) (fileTypeFromBuffer (body r)) s) ctx
        (specPrimaryImage (forceRefreshImages (ctx_options ctx)) path (body r)
           (logged [EFetch (primaryUrl s)] w1))
  | None => (Err (FetchRejected (primaryUrl s)),
             logged [EFetch (primaryUrl s)] w1)
  end.
Proof.
  intros Hpath Hremote Hfiles. unfold bind. rewrite readPrimaryImage_run, Hremote.
  destruct (remote w !! primaryUrl s) as [r|]; [|reflexivity].
  now rewrite (saveImage_gate _ ctx path (body r)).
Qed.

Lemma processImageSet_gate block ctx s path (w : World) :
  imageFileNameFormat (ctx_options ctx) <> FormatContentHash ->
  plannedImageSet block ctx w = Ok s ->
  primaryFileOutputPath s = Some path ->
  path <> "" ->
  processImageSet block ctx w = specPrimaryFirst ctx s path w.
Proof.
  intros Hfmt Hplan Hpath Hne. unfold plannedImageSet in Hplan.
  unfold processImageSet, specPrimaryFirst. unfold bind at 1.
  destruct (parse_cases (block_image block) w)
    as [[_ Hp] | (parsed & Hp & Hb0 & _)];
    rewrite Hp in *; cbn [fst] in Hplan; [discriminate|].
  set (force := forceRefreshImages (ctx_options ctx)).
  assert (Js.truthy path = true) as Htruthy by (now destruct path).
  assert ((w0 <- get ;;
           imageSet1 <- lift (makeImagePersistencePlanWithoutBuffer
                                (ctx_options ctx)
                                (with_pageInfo (ctx_pageInfo ctx) parsed)
                                (block_id block) (imageOutputPath w0)
                                (imagePrefix w0)) ;;
           let primaryPath := default "" (primaryFileOutputPath imageSet1) in
           keep <- (if forceRefreshImages (ctx_options ctx) then ret false
                    else if Js.truthy primaryPath then existsSync primaryPath
                         else ret false) ;;
           if keep : bool then
             emit (ESkip primaryPath) ;;;
             imageWasSeen primaryPath ;;;
             saveLocalizedImages imageSet1 ctx
           else
             imageSet2 <- readPrimaryImage imageSet1 ;;
             saveImage imageSet2 ctx) w =
          match CacheGate force (fileExists w path) with
          | Skip =>
              saveLocalizedImages s ctx
                (logged [EExists path; ESkip path] (seen path w))
          | Write =>
              match remote w !! primaryUrl s with
              | Some r =>
                  saveLocalizedImages
                    (with_primaryImage (body r) (fileTypeFromBuffer (body r)) s)
                    ctx
                    (written path (body r)
                       (logged (asked force path ++ [EFetch (primaryUrl s)] ++
                                asked force path ++ [EWrite path (body r)])
                          (seen path w)))
              | None =>
                  (Err (FetchRejected (primaryUrl s)),
                   logged (asked force path ++ [EFetch (primaryUrl s)]) w)
              end
          end) as Hmain.
  { unfold bind at 1. unfold get. unfold bind at 1. unfold lift.
    rewrite Hplan, Hpath. change (default "" (Some path)) with path.
    rewrite Htruthy. fold force. unfold bind at 1. unfold CacheGate.
    destruct force eqn:Hforce; cbn [negb andb].
    - unfold ret at 1. cbn beta iota.
      rewrite (fetch_then_save s ctx path w w Hpath eq_refl eq_refl).
      destruct (remote w !! primaryUrl s) as [r|]; [|f_equal; same_world].
      f_equal. unfold specPrimaryImage, CacheGate. fold force.
      rewrite Hforce. cbn [negb andb]. same_world.
    - unfold existsSync. cbn beta. destruct (fileExists w path) eqn:Hex.
      + unfold bind, emit, imageWasSeen. f_equal. same_world.
      + cbn beta iota.
        rewrite (fetch_then_save s ctx path w (logged [EExists path] w)
                   Hpath eq_refl eq_refl).
        destruct (remote w !! primaryUrl s) as [r|]; [|f_equal; same_world].
        f_equal. unfold specPrimaryImage, CacheGate. fold force.
        rewrite Hforce. cbn [negb andb].
        assert (fileExists (logged [EFetch (primaryUrl s)]
                              (logged [EExists path] w)) path
                = fileExists w path) as -> by reflexivity.
        rewrite Hex. same_world. }
  destruct (imageFileNameFormat (ctx_options ctx)); [| | contradiction];
    exact Hmain.
Qed.

End Gate.

(** ** What one target, one loop and one block leave behind *)

Section Facts.
Context `{Host}.

Lemma seen_marks (path : string) (w : World) :
  path ∉ existingImagesNotSeenYetInPull (seen path w).
Proof.
  intros Hin. cbn in Hin. apply list_elem_of_In, List.filter_In in Hin as [_ Hp].
  now rewrite String.eqb_refl in Hp.
Qed.

Lemma fileExists_written (path : string) (b : Buffer) (w : World) :
  fileExists (written path b w) path = true.
Proof.
  unfold fileExists, written. cbn. rewrite lookup_insert_eq.
  apply bool_decide_eq_true. now eexists.
Qed.

Lemma fileExists_grows (w w' : World) (p : string) :
  grows w w' -> fileExists w p = true -> fileExists w' p = true.
Proof.
  intros Hg Hp. apply bool_decide_eq_true in Hp.
  apply bool_decide_eq_true. now apply (grows_files _ _ Hg).
Qed.

Lemma touched_app (a b : list Event) : touched (a ++ b) = touched a ++ touched b.
Proof.
  induction a as [|e a IH]; [reflexivity|].
  destruct e; cbn [app touched]; now rewrite IH.
Qed.

(** Membership of a path in the paths of events that are written out. *)
Ltac touched_cases Hp :=
  cbn [app touched] in Hp;
  repeat (apply elem_of_cons in Hp as [->|Hp]; [try reflexivity|]);
  try (now apply not_elem_of_nil in Hp).

(** Membership of an event in a list that is written out. *)
Ltac event_cases :=
  let p := fresh "p" in
  let Hin := fresh "Hin" in
  intros p Hin; cbn [app] in Hin;
  repeat (apply elem_of_cons in Hin as [Hin|Hin];
          [first [discriminate | injection Hin as ->; reflexivity]|]);
  now apply not_elem_of_nil in Hin.

(** The facts about one localized target. *)
Lemma localized_facts ctx e s pi (w w' : World) r :
  pageInfo s = Some pi ->
  saveLocalizedImage ctx e s w = (r, w') ->
  let path := localizedPath s pi e in
  let force := forceRefreshImages (ctx_options ctx) in
  (exists evs, log w' = log w ++ evs /\
               (forall p, p ∈ touched evs -> p = path) /\
               (force = true -> forall p, ESkip p ∉ evs)) /\
  (forall s', r = Ok s' ->
              planned s' = planned s /\
              (path ∉ existingImagesNotSeenYetInPull w') /\
              fileExists w' path = true) /\
  (force = false -> fileExists w path = true ->
   r = Ok s /\ files w' = files w /\
   log w' = log w ++ [EExists path; ESkip path]).
Proof.
  intros Hpi Hrun path force.
  rewrite (saveLocalizedImage_gate ctx e s pi w Hpi) in Hrun.
  unfold specLocalizedImage in Hrun. fold path force in Hrun.
  unfold CacheGate in Hrun.
  destruct force eqn:Hforce; cbn [negb andb] in Hrun;
    [|destruct (fileExists w path) eqn:Hex];
    repeat match type of Hrun with
      | (if ?b then _ else _) = _ => destruct b
      | match ?x with _ => _ end = _ => destruct x eqn:?
      end;
    apply pair_equal_spec in Hrun as [<- <-]; unfold asked.
  all: split; [eexists; split; [cbn; rewrite <- ?app_assoc; reflexivity|];
               split; [intros p Hp; touched_cases Hp
                      | intros Hf; first [discriminate | event_cases]] |].
  all: split; [intros s' Hs;
               first [discriminate
                     | injection Hs as <-; split; [reflexivity|];
                       split; [apply seen_marks|]] |].
  all: try apply fileExists_written.
  all: try exact Hex.
  all: try (intros; discriminate).
  all: intros _ _; repeat split; cbn; now rewrite <- ?app_assoc.
Qed.

Lemma planned_inv (s s' : ImageSet) :
  planned s' = planned s ->
  pageInfo s' = pageInfo s /\ outputFileName s' = outputFileName s /\
  localizedUrls s' = localizedUrls s /\
  primaryFileOutputPath s' = primaryFileOutputPath s /\
  primaryUrl s' = primaryUrl s.
Proof. unfold planned. intros [= ? ? ? ? ? ? ?]. now repeat split. Qed.

Lemma localizedPath_planned (s s' : ImageSet) pi e :
  planned s' = planned s -> localizedPath s' pi e = localizedPath s pi e.
Proof.
  intros Hp. apply planned_inv in Hp as (_ & Hn & _).
  unfold localizedPath. now rewrite Hn.
Qed.

Lemma fileExists_files (w w' : World) (p : string) :
  files w' = files w -> fileExists w' p = fileExists w p.
Proof. unfold fileExists. now intros ->. Qed.

(** The facts about the loop over the localized targets. *)
Lemma loop_facts ctx pi (l : list LocalizedUrl) :
  forall s (w w' : World) r,
    pageInfo s = Some pi ->
    forEach (saveLocalizedImage ctx) l s w = (r, w') ->
    let paths := List.map (localizedPath s pi) l in
    let force := forceRefreshImages (ctx_options ctx) in
    (exists evs, log w' = log w ++ evs /\
                 (forall p, p ∈ touched evs -> p ∈ paths) /\
                 (force = true -> forall p, ESkip p ∉ evs)) /\
    (forall s', r = Ok s' ->
                planned s' = planned s /\
                forall p, p ∈ paths ->
                          (p ∉ existingImagesNotSeenYetInPull w') /\
                          fileExists w' p = true) /\
    (force = false -> (forall p, p ∈ paths -> fileExists w p = true) ->
     r = Ok s /\ files w' = files w /\
     exists evs, log w' = log w ++ evs /\
                 Forall (fun e => quiet e = true) evs).
Proof.
  induction l as [|e l IH]; intros s w w' r Hpi Hrun paths force.
  - apply pair_equal_spec in Hrun as [<- <-]. split; [|split].
    + exists []. rewrite app_nil_r. split; [reflexivity|].
      split; [|intros _]; intros p Hp; now apply not_elem_of_nil in Hp.
    + intros s' [= <-]. split; [reflexivity|].
      intros p Hp. now apply not_elem_of_nil in Hp.
    + intros _ _. split; [reflexivity|]. split; [reflexivity|].
      exists []. now rewrite app_nil_r.
  - cbn [forEach] in Hrun. unfold bind in Hrun.
    destruct (saveLocalizedImage ctx e s w) as [r1 w1] eqn:Hbody.
    destruct (localized_facts ctx e s pi w w1 r1 Hpi Hbody)
      as ((evs1 & Hlog1 & Hex1 & Hskip1) & Hok1 & Hidle1).
    destruct r1 as [s1|err].
    + destruct (Hok1 s1 eq_refl) as (Hpl1 & Hreg1 & Hfile1).
      assert (pageInfo s1 = Some pi) as Hpi1
        by (apply planned_inv in Hpl1 as (-> & _); exact Hpi).
      assert (List.map (localizedPath s1 pi) l = List.map (localizedPath s pi) l)
        as Hpaths
        by (apply List.map_ext; intros; now apply localizedPath_planned).
      pose proof (keeps_forEach grows (saveLocalizedImage ctx) l s1
                    (fun a s0 => grows_saveLocalizedImage ctx a s0) w1) as Hg.
      rewrite Hrun in Hg. cbn [snd] in Hg.
      destruct (IH s1 w1 w' r Hpi1 Hrun)
        as ((evs2 & Hlog2 & Hex2 & Hskip2) & Hok2 & Hidle2).
      rewrite Hpaths in Hex2, Hok2, Hidle2. split; [|split].
      * exists (evs1 ++ evs2). split; [now rewrite Hlog2, Hlog1, app_assoc|].
        split.
        -- intros p Hp. rewrite touched_app in Hp.
           apply elem_of_app in Hp as [Hp|Hp].
           ++ rewrite (Hex1 p Hp). left.
           ++ right. now apply Hex2.
        -- intros Hf p Hp. apply elem_of_app in Hp as [Hp|Hp].
           ++ now apply (Hskip1 Hf p).
           ++ now apply (Hskip2 Hf p).
      * intros s' Hs'. destruct (Hok2 s' Hs') as (Hpl2 & Hall2).
        split; [now rewrite Hpl2|].
        intros p Hp. apply elem_of_cons in Hp as [->|Hp]; [|now apply Hall2].
        split.
        -- intros Hin. apply Hreg1. now apply (grows_registry _ _ Hg).
        -- now apply (fileExists_grows w1 w').
      * intros Hf Hall.
        destruct (Hidle1 Hf (Hall _ (list_elem_of_here _ _)))
          as (Hr1 & Hfiles1 & Hl1).
        injection Hr1 as ->.
        destruct (Hidle2 Hf) as (Hr2 & Hfiles2 & evs & Hl2 & Hq).
        { intros p Hp. rewrite (fileExists_files w w1 p Hfiles1).
          apply Hall. now right. }
        split; [exact Hr2|]. split; [now rewrite Hfiles2|].
        exists ([EExists (localizedPath s pi e); ESkip (localizedPath s pi e)]
                ++ evs).
        split; [now rewrite Hl2, Hl1, <- app_assoc|].
        repeat constructor. exact Hq.
    + apply pair_equal_spec in Hrun as [<- <-]. split; [|split].
      * exists evs1. split; [exact Hlog1|]. split; [|exact Hskip1].
        intros p Hp. rewrite (Hex1 p Hp). left.
      * intros s' Hs'. discriminate.
      * intros Hf Hall.
        destruct (Hidle1 Hf (Hall _ (list_elem_of_here _ _))) as (Hr1 & _).
        discriminate.
Qed.

Lemma loop_without_page ctx (l : list LocalizedUrl) s (w w' : World) r :
  pageInfo s = None ->
  forEach (saveLocalizedImage ctx) l s w = (r, w') ->
  w' = w /\ forall s', r = Ok s' -> s' = s.
Proof.
  intros Hpi Hrun. destruct l as [|e l].
  - apply pair_equal_spec in Hrun as [<- <-]. split; [reflexivity|].
    now intros s' [= <-].
  - cbn [forEach] in Hrun. unfold bind, saveLocalizedImage in Hrun.
    rewrite Hpi in Hrun. apply pair_equal_spec in Hrun as [<- <-].
    split; [reflexivity | discriminate].
Qed.

Lemma targets_cons s path :
  primaryFileOutputPath s = Some path ->
  targets s = path :: match pageInfo s with
                      | Some pi => localizedPaths s pi
                      | None => []
                      end.
Proof. unfold targets. now intros ->. Qed.

(** The loop over the localized targets, whatever the page. *)
Lemma loop_any s ctx (w w' : World) r :
  saveLocalizedImages s ctx w = (r, w') ->
  let paths := match pageInfo s with
               | Some pi => localizedPaths s pi
               | None => []
               end in
  let force := forceRefreshImages (ctx_options ctx) in
  (exists evs, log w' = log w ++ evs /\
               (forall p, p ∈ touched evs -> p ∈ paths) /\
               (force = true -> forall p, ESkip p ∉ evs)) /\
  (forall s', r = Ok s' ->
              planned s' = planned s /\
              forall p, p ∈ paths ->
                        (p ∉ existingImagesNotSeenYetInPull w') /\
                        fileExists w' p = true).
Proof.
  intros Hrun. unfold saveLocalizedImages in Hrun.
  destruct (pageInfo s) as [pi|] eqn:Hpi; cbn zeta.
  - destruct (loop_facts ctx pi _ s w w' r Hpi Hrun) as (H1 & H2 & _).
    now split.
  - destruct (loop_without_page ctx _ s w w' r Hpi Hrun) as (-> & Hs).
    split.
    + exists []. rewrite app_nil_r. split; [reflexivity|].
      split; [|intros _]; intros p Hp; now apply not_elem_of_nil in Hp.
    + intros s' Hs'. rewrite (Hs s' Hs'). split; [reflexivity|].
      intros p Hp. now apply not_elem_of_nil in Hp.
Qed.

(** Once the primary path is dealt with, the loop over the localized
    targets completes the picture. *)
Lemma after_primary s ctx path (w w0 w' : World) r evs0 :
  primaryFileOutputPath s = Some path ->
  saveLocalizedImages s ctx w0 = (r, w') ->
  log w0 = log w ++ evs0 ->
  (forall p, p ∈ touched evs0 -> p = path) ->
  (path ∉ existingImagesNotSeenYetInPull w0) ->
  fileExists w0 path = true ->
  let force := forceRefreshImages (ctx_options ctx) in
  (exists evs, log w' = log w ++ evs0 ++ evs /\
               (forall p, p ∈ touched (evs0 ++ evs) -> p ∈ targets s) /\
               (force = true -> forall p, ESkip p ∉ evs)) /\
  (forall s', r = Ok s' ->
              planned s' = planned s /\
              forall p, p ∈ targets s ->
                        (p ∉ existingImagesNotSeenYetInPull w') /\
                        fileExists w' p = true).
Proof.
  intros Hpath Hrun Hlog0 Hex0 Hreg0 Hfile0 force.
  pose proof (grows_saveLocalizedImages s ctx w0) as Hg.
  rewrite Hrun in Hg. cbn [snd] in Hg.
  destruct (loop_any s ctx w0 w' r Hrun) as ((evs & Hlog & Hex & Hskip) & Hok).
  rewrite (targets_cons s path Hpath). split.
  - exists evs. split; [now rewrite Hlog, Hlog0, <- app_assoc|].
    split; [|exact Hskip].
    intros p Hp. rewrite touched_app in Hp.
    apply elem_of_app in Hp as [Hp|Hp].
    + rewrite (Hex0 p Hp). left.
    + right. now apply Hex.
  - intros s' Hs'. destruct (Hok s' Hs') as (Hpl & Hall).
    split; [exact Hpl|].
    intros p Hp. apply elem_of_cons in Hp as [->|Hp]; [|now apply Hall].
    split.
    + intros Hin. apply Hreg0. now apply (grows_registry _ _ Hg).
    + now apply (fileExists_grows w0 w').
Qed.

Lemma gate_skip force b : CacheGate force b = Skip -> force = false /\ b = true.
Proof. unfold CacheGate. destruct force, b; now intros. Qed.

(** The facts about [saveImage] when it returns. *)
Lemma saveImage_facts s ctx (w w' : World) s' :
  saveImage s ctx w = (Ok s', w') ->
  let force := forceRefreshImages (ctx_options ctx) in
  exists path evs,
    primaryFileOutputPath s = Some path /\
    planned s' = planned s /\
    log w' = log w ++ evs /\
    (forall p, p ∈ touched evs -> p ∈ targets s) /\
    (forall p, p ∈ targets s ->
               (p ∉ existingImagesNotSeenYetInPull w') /\
               fileExists w' p = true) /\
    (force = true ->
     (forall p, ESkip p ∉ evs) /\ exists buffer, EWrite path buffer ∈ evs).
Proof.
  intros Hrun force.
  destruct (primaryFileOutputPath s) as [path|] eqn:Hpath;
    [|unfold saveImage in Hrun; rewrite Hpath in Hrun; discriminate].
  rewrite (saveImage_run s ctx path w Hpath) in Hrun. fold force in Hrun.
  exists path.
  destruct (CacheGate force (fileExists w path)) eqn:Hgate.
  - apply gate_skip in Hgate as [Hforce Hex].
    destruct (after_primary s ctx path w _ w' (Ok s')
                [EExists path; ESkip path] Hpath Hrun)
      as ((evs & Hlog & Hchk & _) & Hok).
    { reflexivity. }
    { intros p Hp. touched_cases Hp. }
    { apply seen_marks. }
    { exact Hex. }
    destruct (Hok s' eq_refl) as (Hpl & Hall).
    exists ([EExists path; ESkip path] ++ evs).
    split; [reflexivity|]. do 4 (split; [assumption|]).
    rewrite Hforce. discriminate.
  - destruct (primaryBuffer s) as [buffer|]; [|discriminate].
    destruct (after_primary s ctx path w _ w' (Ok s')
                (asked force path ++ [EWrite path buffer]) Hpath Hrun)
      as ((evs & Hlog & Hchk & Hskip) & Hok).
    { reflexivity. }
    { intros p Hp. unfold asked in Hp. destruct force; touched_cases Hp. }
    { apply seen_marks. }
    { apply fileExists_written. }
    destruct (Hok s' eq_refl) as (Hpl & Hall).
    exists ((asked force path ++ [EWrite path buffer]) ++ evs).
    split; [reflexivity|]. do 4 (split; [assumption|]).
    intros Hf. split.
    + intros p Hp. apply elem_of_app in Hp as [Hp|Hp]; [|now apply (Hskip Hf p)].
      unfold asked in Hp. fold force in Hf. rewrite Hf in Hp. cbn [app] in Hp.
      apply elem_of_cons in Hp as [?|Hp]; [discriminate|].
      now apply not_elem_of_nil in Hp.
    + exists buffer. apply elem_of_app. left. apply elem_of_app. right. left.
Qed.

Lemma plan_err block ctx (w : World) e :
  imageFileNameFormat (ctx_options ctx) <> FormatContentHash ->
  plannedImageSet block ctx w = Err e ->
  processImageSet block ctx w = (Err e, w).
Proof.
  intros Hfmt Hplan. unfold plannedImageSet in Hplan.
  unfold processImageSet. unfold bind at 1.
  destruct (parse_cases (block_image block) w)
    as [[_ Hp] | (parsed & Hp & _)];
    rewrite Hp in *; cbn [fst] in Hplan.
  - now injection Hplan as <-.
  - destruct (imageFileNameFormat (ctx_options ctx)); [| | contradiction];
      unfold bind at 1; unfold get; unfold bind at 1; unfold lift;
      now rewrite Hplan.
Qed.

Lemma planned_shape block ctx (w : World) s :
  plannedImageSet block ctx w = Ok s ->
  exists dir name,
    primaryFileOutputPath s = Some (posix_join dir name) /\
    pageInfo s = Some (ctx_pageInfo ctx) /\
    primaryBuffer s = None /\ primaryUrl s = sourceUrl block.
Proof.
  intros Hplan. unfold plannedImageSet in Hplan.
  destruct (parse_cases (block_image block) w)
    as [[_ Hp] | (parsed & Hp & Hb & _ & Hu)];
    rewrite Hp in *; cbn [fst] in Hplan; [discriminate|].
  destruct (plan_fields _ _ _ _ _ _ Hplan)
    as ((dir & name & Hpath) & _ & Hpi & Hbuf & _ & Hurl).
  exists dir, name. split; [exact Hpath|]. split; [exact Hpi|].
  split; [now rewrite Hbuf | now rewrite Hurl].
Qed.

(** The facts about a block in the default and legacy formats. *)
Lemma block_facts block ctx s (w w' : World) r :
  primaryFileOutputPath s <> Some "" ->
  imageFileNameFormat (ctx_options ctx) <> FormatContentHash ->
  plannedImageSet block ctx w = Ok s ->
  processImageSet block ctx w = (r, w') ->
  let force := forceRefreshImages (ctx_options ctx) in
  (exists evs,
     log w' = log w ++ evs /\
     (forall p, p ∈ touched evs -> p ∈ targets s) /\
     (force = true ->
      (forall p, ESkip p ∉ evs) /\ EFetch (sourceUrl block) ∈ evs /\
      forall s', r = Ok s' ->
                 exists path buffer, primaryFileOutputPath s' = Some path /\
                                     EWrite path buffer ∈ evs)) /\
  (forall s', r = Ok s' ->
              planned s' = planned s /\
              forall p, p ∈ targets s ->
                        (p ∉ existingImagesNotSeenYetInPull w') /\
                        fileExists w' p = true) /\
  (force = false -> (forall p, p ∈ targets s -> fileExists w p = true) ->
   r = Ok s /\ files w' = files w /\
   exists evs, log w' = log w ++ evs /\ Forall (fun e => quiet e = true) evs).
Proof.
  intros Hne0 Hfmt Hplan Hrun force.
  destruct (planned_shape block ctx w s Hplan)
    as (dir & name & Hpath & Hpi & Hnobuf & Hurl).
  set (path := posix_join dir name) in *.
  assert (path <> "") as Hne by (intros He; apply Hne0; now rewrite Hpath, He).
  rewrite (processImageSet_gate block ctx s path w Hfmt Hplan Hpath Hne) in Hrun.
  unfold specPrimaryFirst in Hrun. fold force in Hrun. rewrite <- Hurl.
  destruct (CacheGate force (fileExists w path)) eqn:Hgate.
  - apply gate_skip in Hgate as [Hforce Hex].
    destruct (after_primary s ctx path w _ w' r
                [EExists path; ESkip path] Hpath Hrun)
      as ((evs & Hlog & Hchk & _) & Hok).
    { reflexivity. }
    { intros p Hp. touched_cases Hp. }
    { apply seen_marks. }
    { exact Hex. }
    split; [|split].
    + exists ([EExists path; ESkip path] ++ evs).
      split; [exact Hlog|]. split; [exact Hchk|]. rewrite Hforce. discriminate.
    + exact Hok.
    + intros _ Hall. unfold saveLocalizedImages in Hrun.
      destruct (loop_facts ctx _ _ s _ w' r Hpi Hrun) as (_ & _ & Hidle).
      destruct (Hidle Hforce) as (Hr & Hfiles & evs2 & Hlog2 & Hq).
      { intros p Hp. apply Hall. rewrite (targets_cons s path Hpath).
        right. now rewrite Hpi. }
      split; [exact Hr|]. split; [exact Hfiles|].
      exists ([EExists path; ESkip path] ++ evs2).
      split; [rewrite Hlog2; cbn; now rewrite <- app_assoc|].
      repeat constructor. exact Hq.
  - assert (force = false ->
            (forall p, p ∈ targets s -> fileExists w p = true) -> False)
      as Hcontra.
    { intros Hf Hall. unfold CacheGate in Hgate. rewrite Hf in Hgate.
      rewrite (Hall path) in Hgate; [discriminate|].
      rewrite (targets_cons s path Hpath). left. }
    destruct (remote w !! primaryUrl s) as [resp|].
    + set (s2 := with_primaryImage (body resp)
                   (fileTypeFromBuffer (body resp)) s) in *.
      destruct (after_primary s2 ctx path w _ w' r
                  (asked force path ++ [EFetch (primaryUrl s)] ++
                   asked force path ++ [EWrite path (body resp)])
                  Hpath Hrun)
        as ((evs & Hlog & Hchk & Hskip) & Hok).
      { reflexivity. }
      { intros p Hp. unfold asked in Hp. destruct force; touched_cases Hp. }
      { apply seen_marks. }
      { apply fileExists_written. }
      split; [|split].
      * eexists. split; [exact Hlog|]. split; [exact Hchk|].
        intros Hf. split; [|split].
        -- intros p Hp. apply elem_of_app in Hp as [Hp|Hp];
             [|now apply (Hskip Hf p)].
           unfold asked in Hp. rewrite Hf in Hp. cbn [app] in Hp.
           repeat (apply elem_of_cons in Hp as [Hp|Hp]; [discriminate|]).
           now apply not_elem_of_nil in Hp.
        -- unfold asked. rewrite Hf. cbn [app]. left.
        -- intros s' Hs'. destruct (Hok s' Hs') as (Hpl & _).
           exists path, (body resp). split.
           ++ apply planned_inv in Hpl as (_ & _ & _ & -> & _). exact Hpath.
           ++ unfold asked. rewrite Hf. cbn [app]. right. left.
      * exact Hok.
      * intros Hf Hall. destruct (Hcontra Hf Hall).
    + apply pair_equal_spec in Hrun as [<- <-]. split; [|split].
      * eexists. split; [reflexivity|]. split.
        -- intros p Hp. rewrite (targets_cons s path Hpath).
           unfold asked in Hp. destruct force; touched_cases Hp; left.
        -- intros Hf. unfold asked. rewrite Hf. cbn [app]. split; [|split].
           ++ intros p Hp. apply elem_of_cons in Hp as [?|Hp]; [discriminate|].
              now apply not_elem_of_nil in Hp.
           ++ left.
           ++ discriminate.
      * discriminate.
      * intros Hf Hall. destruct (Hcontra Hf Hall).
Qed.

Lemma processImageSet_empty_path block ctx s (w : World) :
  imageFileNameFormat (ctx_options ctx) <> FormatContentHash ->
  plannedImageSet block ctx w = Ok s ->
  primaryFileOutputPath s = Some "" ->
  processImageSet block ctx w =
  (s2 <- readPrimaryImage s ;; saveImage s2 ctx) w.
Proof.
  intros Hfmt Hplan Hpath. unfold plannedImageSet in Hplan.
  unfold processImageSet. unfold bind at 1.
  destruct (parse_cases (block_image block) w)
    as [[_ Hp] | (parsed & Hp & Hb0 & _)];
    rewrite Hp in *; cbn [fst] in Hplan; [discriminate|].
  destruct (imageFileNameFormat (ctx_options ctx)); [| | contradiction];
    unfold bind at 1; unfold get; unfold bind at 1; unfold lift;
    rewrite Hplan, Hpath; cbn [from_option Js.truthy]; unfold bind at 1;
    now destruct (forceRefreshImages (ctx_options ctx)).
Qed.

(** A fetch of the primary image followed by [saveImage]. *)
Lemma fetch_save_marks s ctx (w w' : World) s' :
  (s2 <- readPrimaryImage s ;; saveImage s2 ctx) w = (Ok s', w') ->
  exists evs,
    log w' = log w ++ evs /\
    (forall p, p ∈ touched evs -> p ∉ existingImagesNotSeenYetInPull w') /\
    (forceRefreshImages (ctx_options ctx) = true ->
     (forall p, ESkip p ∉ evs) /\ EFetch (primaryUrl s) ∈ evs /\
     exists path buffer, primaryFileOutputPath s' = Some path /\
                         EWrite path buffer ∈ evs).
Proof.
  intros Hrun. unfold bind at 1 in Hrun. rewrite readPrimaryImage_run in Hrun.
  destruct (remote w !! primaryUrl s) as [resp|]; [|discriminate].
  destruct (saveImage_facts _ ctx _ w' s' Hrun)
    as (path & evs & Hpath & Hpl & Hlog & Hchk & Hall & Hforce).
  exists ([EFetch (primaryUrl s)] ++ evs).
  split; [rewrite Hlog; cbn; now rewrite <- app_assoc|]. split.
  - intros p Hp'. cbn [app touched] in Hp'. now apply Hall, Hchk.
  - intros Hf. destruct (Hforce Hf) as (Hskip & buffer & Hw). split; [|split].
    + intros p Hp'. apply elem_of_cons in Hp' as [?|Hp']; [discriminate|].
      now apply (Hskip p).
    + left.
    + exists path, buffer. split.
      * apply planned_inv in Hpl as (_ & _ & _ & -> & _). exact Hpath.
      * now right.
Qed.

(** In every format, a block that is processed to the end has marked
    every path it asked about, and with a forced refresh it has
    fetched the primary image and written it, and skipped nothing. *)
Lemma block_marks block ctx (w w' : World) s' :
  processImageSet block ctx w = (Ok s', w') ->
  exists evs,
    log w' = log w ++ evs /\
    (forall p, p ∈ touched evs -> p ∉ existingImagesNotSeenYetInPull w') /\
    (forceRefreshImages (ctx_options ctx) = true ->
     (forall p, ESkip p ∉ evs) /\ EFetch (sourceUrl block) ∈ evs /\
     exists path buffer, primaryFileOutputPath s' = Some path /\
                         EWrite path buffer ∈ evs).
Proof.
  intros Hrun.
  assert (imageFileNameFormat (ctx_options ctx) = FormatContentHash \/
          imageFileNameFormat (ctx_options ctx) <> FormatContentHash)
    as [Hfmt|Hfmt]
    by (destruct (imageFileNameFormat (ctx_options ctx));
        [right | right | left]; congruence).
  - unfold processImageSet in Hrun. rewrite Hfmt in Hrun.
    unfold bind at 1 in Hrun.
    destruct (parse_cases (block_image block) w)
      as [[_ Hp] | (parsed & Hp & _ & _ & Hu)];
      rewrite Hp in Hrun; [discriminate|].
    unfold bind at 1 in Hrun. rewrite readPrimaryImage_run in Hrun.
    cbn [primaryUrl with_pageInfo] in Hrun. rewrite Hu in Hrun.
    fold (sourceUrl block) in Hrun.
    destruct (remote w !! sourceUrl block) as [resp|]; [|discriminate].
    unfold bind at 1 in Hrun. unfold get in Hrun.
    match type of Hrun with
    | match ?x with _ => _ end _ = _ => destruct x as [s2|]; [|discriminate]
    end.
    destruct (saveImage_facts s2 ctx _ w' s' Hrun)
      as (path & evs & Hpath & Hpl & Hlog & Hchk & Hall & Hforce).
    exists ([EFetch (sourceUrl block)] ++ evs).
    split; [rewrite Hlog; cbn; now rewrite <- app_assoc|]. split.
    + intros p Hp'. cbn [app touched] in Hp'. now apply Hall, Hchk.
    + intros Hf. destruct (Hforce Hf) as (Hskip & buffer & Hw). split; [|split].
      * intros p Hp'. apply elem_of_cons in Hp' as [?|Hp']; [discriminate|].
        now apply (Hskip p).
      * left.
      * exists path, buffer. split.
        -- apply planned_inv in Hpl as (_ & _ & _ & -> & _). exact Hpath.
        -- now right.
  - destruct (plannedImageSet block ctx w) as [s|e] eqn:Hplan;
      [|rewrite (plan_err block ctx w e Hfmt Hplan) in Hrun; discriminate].
    destruct (planned_shape block ctx w s Hplan) as (dir & name & Hpath & _ & _ & Hurl).
    destruct (string_dec (posix_join dir name) "") as [Hempty|Hne].
    + rewrite Hempty in Hpath.
      rewrite (processImageSet_empty_path block ctx s w Hfmt Hplan Hpath) in Hrun.
      rewrite <- Hurl. now apply fetch_save_marks.
    + destruct (block_facts block ctx s w w' (Ok s')) as
        ((evs & Hlog & Hchk & Hforce) & Hok & _); try assumption.
      { rewrite Hpath. intros [= He]. contradiction. }
      destruct (Hok s' eq_refl) as (_ & Hall).
      exists evs. split; [exact Hlog|]. split.
      * intros p Hp. now apply Hall, Hchk.
      * intros Hf. destruct (Hforce Hf) as (Hskip & Hfetch & Hwrite).
        split; [exact Hskip|]. split; [exact Hfetch|]. now apply Hwrite.
Qed.

Lemma transformer_run block ctx (w : World) :
  markdownToMDImageTransformer block ctx w =
  match processImageSet block ctx w with
  | (Ok s, w') =>
      (Ok ("![" +:+ mergedCaption (block_image (rewriteBlock block s)) +:+
           "](" +:+ sourceUrl (rewriteBlock block s) +:+ ")"), w')
  | (Err e, w') => (Err e, w')
  end.
Proof.
  unfold markdownToMDImageTransformer, processImageBlock, bind.
  now destruct (processImageSet block ctx w) as [[s|e] w'].
Qed.

Lemma grows_processBlocks options blocks :
  keeps grows (processBlocks options blocks).
Proof.
  unfold processBlocks. apply keeps_forEach; [typeclasses eauto|].
  intros b u. apply keeps_bind; [typeclasses eauto | apply grows_transformer|].
  intros. apply keeps_ret. typeclasses eauto.
Qed.

Lemma since_app (w w' : World) (evs : list Event) :
  log w' = log w ++ evs -> since w w' = evs.
Proof.
  unfold since. intros ->. induction (log w) as [|e l IH]; [reflexivity|].
  exact IH.
Qed.

(** One step of the pass over the blocks. *)
Lemma processBlocks_cons options b blocks (w w' : World) :
  processBlocks options (b :: blocks) w = (Ok tt, w') ->
  exists s w1,
    processImageSet (fst b) {| ctx_options := options; ctx_pageInfo := snd b |} w
    = (Ok s, w1) /\
    processBlocks options blocks w1 = (Ok tt, w').
Proof.
  unfold processBlocks. cbn [forEach]. unfold bind at 1. unfold bind at 1.
  rewrite transformer_run.
  destruct (processImageSet _ _ w) as [[s|e] w1]; [|discriminate].
  intros Hrun. now exists s, w1.
Qed.

Lemma run_marks options blocks (w w' : World) :
  processBlocks options blocks w = (Ok tt, w') ->
  exists evs,
    log w' = log w ++ evs /\
    forall p, p ∈ touched evs -> p ∉ existingImagesNotSeenYetInPull w'.
Proof.
  revert w. induction blocks as [|b blocks IH]; intros w Hrun.
  - apply pair_equal_spec in Hrun as [_ <-]. exists [].
    rewrite app_nil_r. split; [reflexivity|].
    intros p Hp. now apply not_elem_of_nil in Hp.
  - apply processBlocks_cons in Hrun as (s & w1 & Hb & Hrest).
    destruct (block_marks _ _ w w1 s Hb) as (evs1 & Hlog1 & Hm1 & _).
    destruct (IH w1 Hrest) as (evs2 & Hlog2 & Hm2).
    pose proof (grows_processBlocks options blocks w1) as Hg.
    rewrite Hrest in Hg. cbn [snd] in Hg.
    exists (evs1 ++ evs2). split; [now rewrite Hlog2, Hlog1, app_assoc|].
    intros p Hp. rewrite touched_app in Hp.
    apply elem_of_app in Hp as [Hp|Hp]; [|now apply Hm2].
    intros Hin. apply (Hm1 p Hp). now apply (grows_registry _ _ Hg).
Qed.

End Facts.

Section SweepResult.

(** A sweep that returns has removed every path of the registry, and
    nothing else. *)
Lemma sweep_result (l : list string) (w w' : World) :
  forEach (fun p (_ : unit) => rm p) l tt w = (Ok tt, w') ->
  log w' = log w ++ List.map ERemove l /\
  locales w' = locales w /\ imageOutputPath w' = imageOutputPath w /\
  imagePrefix w' = imagePrefix w /\
  (forall q, files w' !! q = if decide (q ∈ l) then None else files w !! q).
Proof.
  revert w. induction l as [|p l IH]; intros w Hrun.
  - apply pair_equal_spec in Hrun as [_ <-]. cbn. rewrite app_nil_r.
    repeat split.
  - cbn [forEach] in Hrun. unfold bind, rm at 1 in Hrun.
    destruct (files w !! p) as [b|] eqn:Hb; [|discriminate].
    apply IH in Hrun as (Hlog & Hloc & Hout & Hpre & Hfiles).
    cbn in Hlog, Hloc, Hout, Hpre. split; [now rewrite Hlog, <- app_assoc|].
    repeat (split; [assumption|]).
    intros q. rewrite Hfiles. cbn.
    destruct (decide (q ∈ l)) as [Hq|Hq].
    + rewrite decide_True; [reflexivity | now right].
    + destruct (decide (q = p)) as [->|Hne].
      * rewrite decide_True; [|left]. apply lookup_delete_eq.
      * rewrite decide_False; [now apply lookup_delete_ne|].
        intros Hin. apply elem_of_cons in Hin as [?|?]; contradiction.
Qed.

End SweepResult.

(** C3. Of a pass over the blocks that completes, every path about
    which the file system was asked, and every path that was kept or
    written, primary or localized, is out of the registry; and a sweep
    that completes then deletes the paths left in the registry and no
    other. *)
Theorem mark_and_sweep `{Host} (options : Options)
  (blocks : list (Block * PageInfo)) (w w1 : World) :
  processBlocks options blocks w = (Ok tt, w1) ->
  (forall p, p ∈ touched (since w w1) ->
             p ∉ existingImagesNotSeenYetInPull w1) /\
  (forall w2, cleanupOldImages w1 = (Ok tt, w2) ->
              since w1 w2 = List.map ERemove (existingImagesNotSeenYetInPull w1) /\
              forall q, files w2 !! q =
                        if decide (q ∈ existingImagesNotSeenYetInPull w1)
                        then None else files w1 !! q).
Proof.
  intros Hrun. split.
  - destruct (run_marks options blocks w w1 Hrun) as (evs & Hlog & Hm).
    now rewrite (since_app w w1 evs Hlog).
  - intros w2 Hsweep. unfold cleanupOldImages, bind, get in Hsweep.
    apply sweep_result in Hsweep as (Hlog & _ & _ & _ & Hfiles).
    split; [now apply since_app | exact Hfiles].
Qed.

(** ** Two pulls in a row *)

Section TwoPulls.
Context `{Host}.

Lemma planned_congr block ctx (w w' : World) :
  locales w' = locales w -> imageOutputPath w' = imageOutputPath w ->
  imagePrefix w' = imagePrefix w ->
  plannedImageSet block ctx w' = plannedImageSet block ctx w.
Proof.
  intros Hl Ho Hp. unfold plannedImageSet, parseImageBlock, bind, get.
  rewrite Hl, Ho, Hp. now destruct (locales w).
Qed.

Lemma planned_path_not_empty block ctx (w : World) s :
  (forall a b, posix_join a b <> "") ->
  plannedImageSet block ctx w = Ok s ->
  primaryFileOutputPath s <> Some "".
Proof.
  intros Hjoin Hplan.
  destruct (planned_shape block ctx w s Hplan) as (dir & name & -> & _).
  intros [= He]. now apply (Hjoin dir name).
Qed.

(** After a pass that completes, the targets of every block are on
    disk and out of the registry. *)
Lemma first_pass_targets options blocks (w w' : World) :
  (forall a b, posix_join a b <> "") ->
  imageFileNameFormat options <> FormatContentHash ->
  processBlocks options blocks w = (Ok tt, w') ->
  forall b, b ∈ blocks ->
    exists s,
      plannedImageSet (fst b) {| ctx_options := options; ctx_pageInfo := snd b |} w
      = Ok s /\
      forall p, p ∈ targets s ->
                (p ∉ existingImagesNotSeenYetInPull w') /\
                fileExists w' p = true.
Proof.
  intros Hjoin Hfmt. revert w.
  induction blocks as [|b0 blocks IH]; intros w Hrun b Hb;
    [now apply not_elem_of_nil in Hb|].
  apply processBlocks_cons in Hrun as (s' & w1 & Hb0 & Hrest).
  set (ctx := {| ctx_options := options; ctx_pageInfo := snd b0 |}) in *.
  pose proof (grows_processImageSet (fst b0) ctx w) as Hg1.
  rewrite Hb0 in Hg1. cbn [snd] in Hg1.
  pose proof (grows_processBlocks options blocks w1) as Hg2.
  rewrite Hrest in Hg2. cbn [snd] in Hg2.
  apply elem_of_cons in Hb as [->|Hb].
  - fold ctx.
    destruct (plannedImageSet (fst b0) ctx w) as [s|e] eqn:Hplan;
      [|rewrite (plan_err (fst b0) ctx w e Hfmt Hplan) in Hb0; discriminate].
    exists s. split; [reflexivity|].
    destruct (block_facts (fst b0) ctx s w w1 (Ok s')
                (planned_path_not_empty _ _ w s Hjoin Hplan) Hfmt Hplan Hb0)
      as (_ & Hok & _).
    destruct (Hok s' eq_refl) as (_ & Hall).
    intros p Hp. destruct (Hall p Hp) as (Hreg & Hfile). split.
    + intros Hin. apply Hreg. now apply (grows_registry _ _ Hg2).
    + now apply (fileExists_grows w1 w').
  - destruct (IH w1 Hrest b Hb) as (s & Hplan & Hall).
    exists s. split; [|exact Hall].
    rewrite <- Hplan. symmetry.
    apply planned_congr; [apply (grows_locales _ _ Hg1)
                         | apply (grows_outputPath _ _ Hg1)
                         | apply (grows_prefix _ _ Hg1)].
Qed.

(** A pass over blocks whose targets are all on disk keeps them all:
    it returns, changes no file and logs only questions and skips. *)
Lemma idle_pass options blocks (w : World) :
  (forall a b, posix_join a b <> "") ->
  imageFileNameFormat options <> FormatContentHash ->
  forceRefreshImages options = false ->
  (forall b, b ∈ blocks ->
     exists s,
       plannedImageSet (fst b) {| ctx_options := options; ctx_pageInfo := snd b |} w
       = Ok s /\
       forall p, p ∈ targets s -> fileExists w p = true) ->
  exists w' evs,
    processBlocks options blocks w = (Ok tt, w') /\
    files w' = files w /\
    log w' = log w ++ evs /\ Forall (fun e => quiet e = true) evs.
Proof.
  intros Hjoin Hfmt Hforce. revert w.
  induction blocks as [|b0 blocks IH]; intros w Hall.
  - exists w, []. rewrite app_nil_r. repeat split. constructor.
  - destruct (Hall b0 (list_elem_of_here _ _)) as (s & Hplan & Hfiles).
    set (ctx := {| ctx_options := options; ctx_pageInfo := snd b0 |}) in *.
    destruct (processImageSet (fst b0) ctx w) as [r w1] eqn:Hb0.
    destruct (block_facts (fst b0) ctx s w w1 r
                (planned_path_not_empty _ _ w s Hjoin Hplan) Hfmt Hplan Hb0)
      as (_ & _ & Hidle).
    destruct (Hidle Hforce Hfiles) as (-> & Hf1 & evs1 & Hlog1 & Hq1).
    pose proof (grows_processImageSet (fst b0) ctx w) as Hg1.
    rewrite Hb0 in Hg1. cbn [snd] in Hg1.
    destruct (IH w1) as (w' & evs2 & Hrest & Hf2 & Hlog2 & Hq2).
    { intros b Hb. destruct (Hall b (list_elem_of_further _ _ _ Hb))
        as (sb & Hplanb & Hfilesb).
      exists sb. split.
      - rewrite <- Hplanb.
        apply planned_congr; [apply (grows_locales _ _ Hg1)
                             | apply (grows_outputPath _ _ Hg1)
                             | apply (grows_prefix _ _ Hg1)].
      - intros p Hp. rewrite (fileExists_files w w1 p Hf1). now apply Hfilesb. }
    exists w', (evs1 ++ evs2). split; [|split; [|split]].
    + unfold processBlocks. cbn [forEach]. unfold bind at 1. unfold bind at 1.
      rewrite transformer_run. fold ctx. rewrite Hb0. exact Hrest.
    + now rewrite Hf2.
    + now rewrite Hlog2, Hlog1, app_assoc.
    + now apply Forall_app.
Qed.

End TwoPulls.

(** C1 (as amended). In the default and legacy formats and without a
    forced refresh: when a pull, sweep included, has completed and the
    blocks are then processed again with the same configuration
    against the files it left, the second pass completes, changes no
    file and logs nothing but existence checks and skips: no fetch and
    no write.  When the registry is empty, as it is in a module that
    was just loaded, the sweep of the second pull returns as well. *)
Theorem second_pass_moves_no_bytes `{Host} (options : Options)
  (blocks : list (Block * PageInfo)) (w0 w1 w1' : World) :
  (forall a b, posix_join a b <> "") ->
  imageFileNameFormat options <> FormatContentHash ->
  forceRefreshImages options = false ->
  pull options blocks w0 = (Ok tt, w1) ->
  files w1' = files w1 -> locales w1' = locales w1 ->
  imageOutputPath w1' = imageOutputPath w1 -> imagePrefix w1' = imagePrefix w1 ->
  exists w2,
    processBlocks options blocks w1' = (Ok tt, w2) /\
    files w2 = files w1' /\
    Forall (fun e => quiet e = true /\ isFetch e = false /\ isWrite e = false)
      (since w1' w2) /\
    (existingImagesNotSeenYetInPull w1' = [] ->
     pull options blocks w1' = (Ok tt, w2)).
Proof.
  intros Hjoin Hfmt Hforce Hpull Hfiles Hloc Hout Hpre.
  unfold pull, bind in Hpull.
  destruct (processBlocks options blocks w0) as [[[]|e] wA] eqn:Hpass;
    [|discriminate].
  unfold cleanupOldImages, bind, get in Hpull.
  apply sweep_result in Hpull as (_ & HlocA & HoutA & HpreA & HfilesA).
  pose proof (grows_processBlocks options blocks w0) as Hg.
  rewrite Hpass in Hg. cbn [snd] in Hg.
  destruct (idle_pass options blocks w1' Hjoin Hfmt Hforce)
    as (w2 & evs & Hrun & Hf2 & Hlog2 & Hq).
  { intros b Hb.
    destruct (first_pass_targets options blocks w0 wA Hjoin Hfmt Hpass b Hb)
      as (s & Hplan & Hall).
    exists s. split.
    - rewrite <- Hplan. apply planned_congr.
      + now rewrite Hloc, HlocA, (grows_locales _ _ Hg).
      + now rewrite Hout, HoutA, (grows_outputPath _ _ Hg).
      + now rewrite Hpre, HpreA, (grows_prefix _ _ Hg).
    - intros p Hp. destruct (Hall p Hp) as (Hreg & Hex).
      unfold fileExists in *. rewrite Hfiles, HfilesA.
      now rewrite decide_False. }
  exists w2. split; [exact Hrun|]. split; [exact Hf2|]. split.
  - rewrite (since_app w1' w2 evs Hlog2).
    eapply Forall_impl; [exact Hq|].
    intros e He. split; [exact He|]. now destruct e.
  - intros Hempty. unfold pull, bind. rewrite Hrun.
    pose proof (grows_processBlocks options blocks w1') as Hg2.
    rewrite Hrun in Hg2. cbn [snd] in Hg2.
    unfold cleanupOldImages, bind, get.
    destruct (existingImagesNotSeenYetInPull w2) as [|p l] eqn:E; [reflexivity|].
    assert (p ∈ existingImagesNotSeenYetInPull w1') as Hp
      by (apply (grows_registry _ _ Hg2); rewrite E; left).
    rewrite Hempty in Hp. now apply not_elem_of_nil in Hp.
Qed.

Lemma plainHost_join (a b : string) : posix_join (Host := plainHost) a b <> "".
Proof. destruct a; discriminate. Qed.

Lemma second_pass_moves_no_bytes_witness :
  let blocks := [(Sample.block, Sample.page)] in
  let w1 := snd (pull (H := plainHost) (Sample.options false) blocks
                   (Sample.world Sample.found)) in
  exists w2,
    processBlocks (H := plainHost) (Sample.options false) blocks w1 = (Ok tt, w2) /\
    files w2 = files w1 /\
    Forall (fun e => quiet e = true /\ isFetch e = false /\ isWrite e = false)
      (since w1 w2) /\
    (existingImagesNotSeenYetInPull w1 = [] ->
     pull (H := plainHost) (Sample.options false) blocks w1 = (Ok tt, w2)).
Proof.
  intros blocks w1.
  apply (second_pass_moves_no_bytes (H := plainHost) (Sample.options false)
           blocks (Sample.world Sample.found) w1 w1).
  - exact plainHost_join.
  - discriminate.
  - reflexivity.
  - vm_compute. reflexivity.
  - reflexivity.
  - reflexivity.
  - reflexivity.
  - reflexivity.
Defined.

(** C1 as stated fails: with a forced refresh in the configuration the
    second pass fetches and writes everything again. *)
Lemma second_pass_counterexample :
  let blocks := [(Sample.block, Sample.page)] in
  let first := pull (H := plainHost) (Sample.options true) blocks
                 (Sample.world Sample.found) in
  let second := processBlocks (H := plainHost) (Sample.options true) blocks
                  (snd first) in
  fst first = Ok tt /\ fst second = Ok tt /\
  since (snd first) (snd second) =
    [EFetch Sample.imageUrl;
     EWrite "static/img/intro.b1.png" (body Sample.found);
     EWrite "./i18n/fr/docusaurus-plugin-content-docs/current/guide/intro.b1.png"
       (body Sample.found)].
Proof. vm_compute. repeat split. Qed.

Lemma mark_and_sweep_witness :
  let blocks := [(Sample.block, Sample.page)] in
  let w := set_registry ["static/img/old.png"; "static/img/intro.b1.png"]
             (set_files {[ "static/img/old.png" := [];
                           "static/img/intro.b1.png" := body Sample.found ]}
                (Sample.world Sample.found)) in
  let w1 := snd (processBlocks (H := plainHost) (Sample.options false) blocks w) in
  (forall p, p ∈ touched (since w w1) ->
             p ∉ existingImagesNotSeenYetInPull w1) /\
  exists w2,
    cleanupOldImages w1 = (Ok tt, w2) /\
    since w1 w2 = [ERemove "static/img/old.png"] /\
    files w2 !! "static/img/old.png" = None /\
    files w2 !! "static/img/intro.b1.png" = Some (body Sample.found).
Proof.
  intros blocks w w1.
  destruct (mark_and_sweep (H := plainHost) (Sample.options false) blocks w w1)
    as [Hmarks Hsweep]; [vm_compute; reflexivity|].
  split; [exact Hmarks|].
  exists (snd (cleanupOldImages w1)).
  destruct (Hsweep (snd (cleanupOldImages w1))) as [Hlog Hfiles];
    [vm_compute; reflexivity|].
  split; [vm_compute; reflexivity|]. split; [exact Hlog|].
  split; rewrite Hfiles; vm_compute; reflexivity.
Defined.



(** C6 (as amended). A fetch fails only when no response arrives; a
    response that arrives, whatever its status, is buffered and its
    type is sniffed, and its body is what is written: to the path of
    the primary image, or to the path of a localized image whose
    override it is. *)
Theorem fetch_outcomes `{Host} :
  (forall s (w : World),
     readPrimaryImage s w =
     match remote w !! primaryUrl s with
     | Some resp =>
         (Ok (with_primaryImage (body resp) (fileTypeFromBuffer (body resp)) s),
          logged [EFetch (primaryUrl s)] w)
     | None => (Err (FetchRejected (primaryUrl s)),
                logged [EFetch (primaryUrl s)] w)
     end) /\
  (forall s ctx path (w : World),
     primaryFileOutputPath s = Some path ->
     (s2 <- readPrimaryImage s ;; saveImage s2 ctx) w =
     match remote w !! primaryUrl s with
     | Some resp =>
         saveLocalizedImages
           (with_primaryImage (body resp) (fileTypeFromBuffer (body resp)) s) ctx
           (specPrimaryImage (forceRefreshImages (ctx_options ctx)) path
              (body resp) (logged [EFetch (primaryUrl s)] w))
     | None => (Err (FetchRejected (primaryUrl s)),
                logged [EFetch (primaryUrl s)] w)
     end) /\
  (forall ctx e s pi (w : World),
     pageInfo s = Some pi -> Js.truthy (url e) = true ->
     CacheGate (forceRefreshImages (ctx_options ctx))
       (fileExists w (localizedPath s pi e)) = Write ->
     match remote w !! url e with
     | Some resp =>
         exists w', saveLocalizedImage ctx e s w = (Ok s, w') /\
                    files w' = <[localizedPath s pi e := body resp]> (files w)
     | None =>
         exists w', saveLocalizedImage ctx e s w = (Err (FetchRejected (url e)), w') /\
                    files w' = files w
     end).
Proof.
  split; [|split].
  - intros. apply readPrimaryImage_run.
  - intros s ctx path w Hpath.
    apply (fetch_then_save s ctx path w w Hpath eq_refl eq_refl).
  - intros ctx e s pi w Hpi Hurl Hgate.
    rewrite (saveLocalizedImage_gate ctx e s pi w Hpi).
    unfold specLocalizedImage. rewrite Hgate, Hurl.
    destruct (remote w !! url e) as [resp|]; eexists; split; reflexivity.
Qed.

Lemma fetch_outcomes_witness :
  let e := {| iso632Code := "fr"; url := Sample.imageUrl |} in
  let s := {| primaryUrl := "https://cdn.example.com/other.png";
              caption := ""; localizedUrls := [e];
              pageInfo := Some Sample.page;
              primaryBuffer := None; fileType := None;
              primaryFileOutputPath := Some "static/img/intro.b1.png";
              outputFileName := Some "intro.b1.png";
              filePathToUseInMarkdown := Some "/img/intro.b1.png" |} in
  let w := Sample.world {| status := 500; body := [] |} in
  exists w',
    saveLocalizedImage (H := plainHost) (Sample.context false) e s w = (Ok s, w') /\
    files w' !! "./i18n/fr/docusaurus-plugin-content-docs/current/guide/intro.b1.png"
    = Some [].
Proof.
  intros e s w.
  destruct (fetch_outcomes (H := plainHost)) as (_ & _ & Hloc).
  specialize (Hloc (Sample.context false) e s Sample.page w
                eq_refl eq_refl eq_refl).
  change (remote w !! url e) with (Some {| status := 500; body := [] |}) in Hloc.
  destruct Hloc as (w' & Hrun & Hfiles).
  exists w'. split; [exact Hrun|]. rewrite Hfiles. vm_compute. reflexivity.
Defined.

(** C6 as stated fails: the body of a response with status 404 is
    stored as the image. *)
Lemma fetch_outcomes_counterexample :
  let run := processImageSet (H := plainHost) Sample.block (Sample.context false)
               (Sample.world Sample.notFound) in
  status Sample.notFound = 404 /\
  (exists s', fst run = Ok s' /\ primaryBuffer s' = Some (body Sample.notFound)) /\
  files (snd run) !! "static/img/intro.b1.png" = Some (body Sample.notFound).
Proof.
  vm_compute. split; [reflexivity|]. split; [|reflexivity].
  eexists. split; reflexivity.
Qed.


(** * Further properties of the module *)

(** ** Configuration and parsing *)

(** X1. [parseImageBlock] never changes the world.  It throws exactly
    when the locales were never assigned; otherwise it returns the URL
    of the block and, before any override, one placeholder with an
    empty URL per configured locale, in the configured order.  After
    [initImageHandling], whatever its arguments, the locales are
    assigned. *)
Theorem parse_needs_configuration :
  (forall image (w : World),
     match locales w with
     | None => parseImageBlock image w = (Err NotInitialised, w)
     | Some ls =>
         exists s,
           parseImageBlock image w = (Ok s, w) /\
           primaryUrl s = match image_source image with
                          | SourceFile u => u
                          | SourceExternal u => u
                          end /\
           List.firstn (List.length ls) (localizedUrls s) = seeded ls /\
           List.length (localizedUrls s) <=
             List.length ls +
             List.length (Js.split "010" (mergedCaption image)) /\
           primaryBuffer s = None /\ outputFileName s = None
     end) /\
  (forall prefix outputPath ls (w : World),
     locales (snd (initImageHandling prefix outputPath ls w)) = Some ls).
Proof.
  split.
  - intros image w. destruct (locales w) as [ls|] eqn:Hls.
    + eexists. split; [apply (parseImageBlock_ok ls image w Hls)|].
      cbn [primaryUrl localizedUrls primaryBuffer outputFileName].
      split; [reflexivity|]. split; [|split; [|split; reflexivity]].
      * unfold seeded. rewrite <- (List.length_map
          (fun l => {| iso632Code := l; url := "" |}) ls) at 1.
        rewrite List.firstn_app, List.firstn_all, Nat.sub_diag.
        cbn. now rewrite app_nil_r.
      * rewrite List.length_app. unfold seeded. rewrite List.length_map.
        apply Nat.add_le_mono_l.
        generalize (Js.split "010" (mergedCaption image)). intros lines.
        induction lines as [|l lines IH]; [reflexivity|].
        change (omap lineOverride (l :: lines))
          with (match lineOverride l with
                | Some u => u :: omap lineOverride lines
                | None => omap lineOverride lines
                end).
        destruct (lineOverride l); cbn [List.length]; lia.
    + unfold parseImageBlock, bind, get. now rewrite Hls.
  - intros prefix outputPath ls w. unfold initImageHandling, bind. cbn.
    now destruct (Js.truthy outputPath).
Qed.





(** ** Names *)

Section NameShape.

Lemma split_nonempty (sep : ascii) (s : string) : Js.split sep s <> [].
Proof.
  destruct s as [|c s]; [discriminate|]. simpl.
  destruct (Ascii.eqb c sep); [discriminate|].
  now destruct (Js.split sep s).
Qed.

(** The pieces of a split are free of the separator, and of every
    character the whole is free of. *)
Lemma split_pieces (c sep : ascii) (s x : string) :
  x ∈ Js.split sep s ->
  Js.lacks sep x = true /\ (Js.lacks c s = true -> Js.lacks c x = true).
Proof.
  revert x. induction s as [|d s IH]; intros x Hx.
  - apply list_elem_of_singleton in Hx as ->. now split.
  - cbn [Js.split] in Hx. unfold Js.lacks. cbn [Js.every].
    destruct (Ascii.eqb d sep) eqn:Hd.
    + apply elem_of_cons in Hx as [->|Hx]; [now split|].
      destruct (IH x Hx) as [H1 H2]. split; [exact H1|].
      intros Hc. apply andb_true_iff in Hc as [_ Hc]. now apply H2.
    + destruct (Js.split sep s) as [|h t] eqn:E.
      * apply list_elem_of_singleton in Hx as ->. cbn [Js.every].
        rewrite Hd. split; [reflexivity|].
        intros Hc. apply andb_true_iff in Hc as [-> _]. reflexivity.
      * apply elem_of_cons in Hx as [->|Hx].
        -- destruct (IH h (list_elem_of_here _ _)) as [H1 H2].
           cbn [Js.every]. rewrite Hd. split; [exact H1|].
           intros Hc. apply andb_true_iff in Hc as [-> Hc]. now apply H2.
        -- destruct (IH x (list_elem_of_further _ _ _ Hx)) as [H1 H2].
           split; [exact H1|].
           intros Hc. apply andb_true_iff in Hc as [_ Hc]. now apply H2.
Qed.

Lemma pop_in (sep : ascii) (s : string) : Js.pop (Js.split sep s) ∈ Js.split sep s.
Proof.
  unfold Js.pop. pose proof (split_nonempty sep s) as Hne.
  destruct (Js.split sep s) as [|h t]; [contradiction|].
  clear Hne. revert h. induction t as [|k t IH]; intros h; [left|].
  right. apply (IH k).
Qed.

Lemma first_in (sep : ascii) (s : string) :
  Js.first (Js.split sep s) ∈ Js.split sep s.
Proof.
  unfold Js.first. pose proof (split_nonempty sep s) as Hne.
  destruct (Js.split sep s) as [|h t]; [contradiction | left].
Qed.

(** The extension holds no dot, whatever it is taken from. *)
Lemma extension_no_dot (v : string) : Js.lacks "." (imageFileExtension v) = true.
Proof.
  unfold imageFileExtension.
  destruct (Js.truthy (Js.pop (Js.split "." v))); [|reflexivity].
  exact (proj1 (split_pieces "." "." v _ (pop_in "." v))).
Qed.

End NameShape.

(** X3. Whatever the URL, the part before the query has no question
    mark, and the extension taken from it is never empty and has
    neither a dot nor a question mark in it. *)
Theorem extension_shape (u : string) :
  Js.lacks "?" (urlBeforeQuery u) = true /\
  Js.truthy (imageFileExtension (urlBeforeQuery u)) = true /\
  Js.lacks "." (imageFileExtension (urlBeforeQuery u)) = true /\
  Js.lacks "?" (imageFileExtension (urlBeforeQuery u)) = true.
Proof.
  destruct (split_pieces "?" "?" u _ (first_in "?" u)) as [Hq _].
  change (Js.first (Js.split "?" u)) with (urlBeforeQuery u) in Hq.
  split; [exact Hq|]. unfold imageFileExtension.
  destruct (split_pieces "?" "." (urlBeforeQuery u) _ (pop_in "." (urlBeforeQuery u)))
    as [Hdot Hkeep].
  destruct (Js.truthy (Js.pop (Js.split "." (urlBeforeQuery u)))) eqn:Ht.
  - split; [exact Ht|]. split; [exact Hdot | exact (Hkeep Hq)].
  - now repeat split.
Qed.

(** X4. The plan depends on the URL only through the part before its
    first question mark: two image sets of the same page whose URLs
    differ in the query alone are planned alike, so a signature that
    changes from pull to pull does not change the file name. *)
Theorem plan_ignores_query `{Host} (o : Options) (s1 s2 s1' : ImageSet)
  (id root prefix a q1 q2 : string) :
  Js.lacks "?" a = true ->
  primaryUrl s1 = a +:+ "?" +:+ q1 ->
  primaryUrl s2 = a \/ primaryUrl s2 = a +:+ "?" +:+ q2 ->
  pageInfo s2 = pageInfo s1 ->
  makeImagePersistencePlanWithoutBuffer o s1 id root prefix = Ok s1' ->
  exists s2',
    makeImagePersistencePlanWithoutBuffer o s2 id root prefix = Ok s2' /\
    outputFileName s2' = outputFileName s1' /\
    primaryFileOutputPath s2' = primaryFileOutputPath s1' /\
    filePathToUseInMarkdown s2' = filePathToUseInMarkdown s1'.
Proof.
  intros Ha Hu1 Hu2 Hpi Hplan.
  destruct (urlBeforeQuery_spec a q1 Ha) as [_ Hb1].
  assert (urlBeforeQuery (primaryUrl s2) = a) as Hb2.
  { destruct Hu2 as [-> | ->].
    - apply (urlBeforeQuery_spec a q2 Ha).
    - apply (urlBeforeQuery_spec a q2 Ha). }
  rewrite <- Hu1 in Hb1. unfold urlBeforeQuery in Hb1, Hb2.
  unfold makeImagePersistencePlanWithoutBuffer in *.
  rewrite Hb1 in Hplan. rewrite Hb2, Hpi.
  destruct (if Js.truthy root then Some root
            else directoryContainingMarkdown <$> pageInfo s1) as [dir|];
    [|discriminate].
  match type of Hplan with
  | match decodeURI ?n with _ => _ end = _ =>
      destruct (decodeURI n) as [d|]; [|discriminate]
  end.
  injection Hplan as <-. eexists. split; [reflexivity|]. now repeat split.
Qed.

Lemma plan_ignores_query_witness :
  let s q := {| primaryUrl := "https://cdn.example.com/pic.jpg?sig=" +:+ q;
                caption := ""; localizedUrls := [];
                pageInfo := Some Sample.page;
                primaryBuffer := None; fileType := None;
                primaryFileOutputPath := None; outputFileName := None;
                filePathToUseInMarkdown := None |} in
  exists s2',
    makeImagePersistencePlanWithoutBuffer (H := plainHost)
      {| imageFileNameFormat := FormatLegacy; forceRefreshImages := false |}
      (s "tuesday") "b1" "static/img" "/img" = Ok s2' /\
    outputFileName s2' = Some "846e24ba.jpg".
Proof.
  intros s.
  destruct (plan_ignores_query (H := plainHost)
              {| imageFileNameFormat := FormatLegacy; forceRefreshImages := false |}
              (s "monday") (s "tuesday")
              (with_plan "846e24ba.jpg" "static/img/846e24ba.jpg"
                 "/img/846e24ba.jpg" (s "monday"))
              "b1" "static/img" "/img" "https://cdn.example.com/pic.jpg"
              "sig=monday" "sig=tuesday")
    as (s2' & Hplan & Hname & _).
  - reflexivity.
  - reflexivity.
  - right. reflexivity.
  - reflexivity.
  - vm_compute. reflexivity.
  - exists s2'. split; [exact Hplan | exact Hname].
Defined.

(** ** The digest *)

Section DigestShape.
Local Open Scope Z_scope.

Lemma round_length (st : list Z) (kw : Z * Z) :
  List.length (Sha256.round st kw) = List.length st.
Proof.
  destruct st as [|a [|b [|c [|d [|e [|f [|g [|h [|i st]]]]]]]]]; reflexivity.
Qed.

Lemma rounds_length (kws : list (Z * Z)) (st : list Z) :
  List.length (List.fold_left Sha256.round kws st) = List.length st.
Proof.
  revert st. induction kws as [|kw kws IH]; intros st; [reflexivity|].
  cbn [List.fold_left]. now rewrite IH, round_length.
Qed.

Lemma compress_length (h block : list Z) :
  List.length (Sha256.compress h block) = List.length h.
Proof.
  unfold Sha256.compress.
  rewrite List.length_map, List.length_combine, rounds_length. lia.
Qed.

Lemma blocks_length (fuel : nat) (ws h : list Z) :
  List.length (Sha256.blocks fuel ws h) = List.length h.
Proof.
  revert ws h. induction fuel as [|f IH]; intros ws h; [reflexivity|].
  cbn [Sha256.blocks]. destruct ws; [reflexivity|].
  now rewrite IH, compress_length.
Qed.

Lemma be_bytes_range (n : nat) (x : Z) :
  List.length (Sha256.be_bytes n x) = n /\
  List.Forall (fun b => 0 <= b < 256) (Sha256.be_bytes n x).
Proof.
  unfold Sha256.be_bytes. split.
  - now rewrite List.length_map, List.length_rev, List.length_seq.
  - apply List.Forall_map, List.Forall_forall. intros k _.
    change 255 with (Z.ones 8). rewrite Z.land_ones by lia.
    apply Z.mod_pos_bound. lia.
Qed.

Lemma digest_bytes (ws : list Z) :
  List.length (List.flat_map (Sha256.be_bytes 4) ws) = (4 * List.length ws)%nat /\
  List.Forall (fun b => 0 <= b < 256) (List.flat_map (Sha256.be_bytes 4) ws).
Proof.
  induction ws as [|x ws [IHl IHr]]; [now split|].
  cbn [List.flat_map]. destruct (be_bytes_range 4 x) as [Hl Hr]. split.
  - rewrite List.length_app, Hl, IHl. cbn [List.length]. lia.
  - now apply List.Forall_app.
Qed.

Lemma hexDigit_lower (n : Z) :
  0 <= n < 16 -> isLowerHexDigit (Sha256.hexDigit n) = true.
Proof.
  intros Hn.
  assert (List.In n [0;1;2;3;4;5;6;7;8;9;10;11;12;13;14;15]) as Hin.
  { replace n with (Z.of_nat (Z.to_nat n)) by lia.
    assert (Z.to_nat n < 16)%nat as Hlt by lia.
    revert Hlt. generalize (Z.to_nat n). intros k Hk.
    do 16 (destruct k as [|k]; [cbn; tauto|]). lia. }
  cbn [List.In] in Hin.
  repeat (destruct Hin as [<-|Hin]; [reflexivity|]). contradiction.
Qed.

Lemma hexOfBytes_shape (bs : list Z) :
  List.Forall (fun b => 0 <= b < 256) bs ->
  String.length (Sha256.hexOfBytes bs) = (2 * List.length bs)%nat /\
  Js.every isLowerHexDigit (Sha256.hexOfBytes bs) = true.
Proof.
  induction 1 as [|b bs Hb _ [IHl IHr]]; [now split|].
  cbn [Sha256.hexOfBytes String.length Js.every List.length]. split; [lia|].
  rewrite !hexDigit_lower, IHr; [reflexivity| |].
  - change 15 with (Z.ones 4). rewrite Z.land_ones by lia.
    apply Z.mod_pos_bound. lia.
  - rewrite Z.shiftr_div_pow2 by lia. change (2 ^ 4) with 16.
    split; [apply Z.div_pos; lia | apply Z.div_lt_upper_bound; lia].
Qed.

Lemma substring0_shape (p : ascii -> bool) (n : nat) (s : string) :
  (n <= String.length s)%nat -> Js.every p s = true ->
  String.length (Js.substring0 n s) = n /\ Js.every p (Js.substring0 n s) = true.
Proof.
  unfold Js.substring0. revert s.
  induction n as [|n IH]; intros s Hn Hp.
  - now destruct s.
  - destruct s as [|c s]; [cbn in Hn; lia|].
    cbn [String.length] in Hn. cbn [Js.every] in Hp.
    apply andb_true_iff in Hp as [Hc Hp].
    destruct (IH s ltac:(lia) Hp) as [Hl He].
    cbn [String.substring String.length Js.every]. rewrite Hc, Hl, He. now split.
Qed.

End DigestShape.

(** X5. The hash of any string is exactly eight characters long, each
    of them one of 0-9 and a-f; a file name of the legacy format thus
    always starts with eight such characters. *)
Theorem hash_is_eight_hex_digits (input : string) :
  String.length (hashOfString input) = 8 /\
  Js.every isLowerHexDigit (hashOfString input) = true /\
  Js.every isHexDigit (hashOfString input) = true.
Proof.
  unfold hashOfString, Sha256.hex.
  destruct (digest_bytes (Sha256.digest (Sha256.utf8 input))) as [Hlen Hrange].
  destruct (hexOfBytes_shape _ Hrange) as [Hl Hd].
  assert (List.length (Sha256.digest (Sha256.utf8 input)) = 8) as H8
    by (unfold Sha256.digest; now rewrite blocks_length).
  rewrite Hlen, H8 in Hl.
  destruct (substring0_shape isLowerHexDigit 8 _ ltac:(rewrite Hl; lia) Hd) as [L E].
  split; [exact L|]. split; [exact E|].
  revert E. generalize (Js.substring0 8
    (Sha256.hexOfBytes (List.flat_map (Sha256.be_bytes 4)
       (Sha256.digest (Sha256.utf8 input))))).
  intros s. induction s as [|c s IH]; [reflexivity|].
  cbn [Js.every]. intros E. apply andb_true_iff in E as [Hc E].
  rewrite (IH E), andb_true_r. revert Hc. unfold isLowerHexDigit, isHexDigit.
  cbv zeta. generalize (Js.code c). intros k Hk.
  apply orb_true_iff in Hk as [Hk|Hk]; apply andb_true_iff in Hk as [H1 H2];
    rewrite ?H1, ?H2; cbn; rewrite ?orb_true_r; reflexivity.
Qed.

(** ** What a block comes back as *)

Section BlockResult.
Context `{Host}.

Lemma rewriteBlock_fields (block : Block) (s : ImageSet) :
  mergedCaption (block_image (rewriteBlock block s)) = caption s /\
  sourceUrl (rewriteBlock block s) = default "undefined" (filePathToUseInMarkdown s).
Proof.
  unfold rewriteBlock, mergedCaption, sourceUrl. cbn. split.
  - destruct (caption s) as [|c r]; [reflexivity|]. cbn.
    now rewrite app_empty_r.
  - now destruct (image_source (block_image block)).
Qed.

Lemma plan_markdown o s id root prefix s' :
  makeImagePersistencePlanWithoutBuffer o s id root prefix = Ok s' ->
  caption s' = caption s /\
  exists name,
    outputFileName s' = Some name /\
    filePathToUseInMarkdown s' =
      Some ((if Js.truthy prefix then prefix else ".") +:+ "/" +:+ name).
Proof.
  unfold makeImagePersistencePlanWithoutBuffer.
  destruct (if Js.truthy root then Some root
            else directoryContainingMarkdown <$> pageInfo s) as [dir|];
    [|discriminate].
  match goal with
  | |- match decodeURI ?n with _ => _ end = _ -> _ =>
      destruct (decodeURI n) as [d|]; [|discriminate]
  end.
  intros [= <-]. cbn. split; [reflexivity|]. eexists. now split.
Qed.

(** A block that is processed to the end comes back with the plan it
    was given. *)
Lemma block_planned block ctx s s' (w w' : World) :
  imageFileNameFormat (ctx_options ctx) <> FormatContentHash ->
  plannedImageSet block ctx w = Ok s ->
  processImageSet block ctx w = (Ok s', w') ->
  planned s' = planned s.
Proof.
  intros Hfmt Hplan Hrun.
  destruct (decide (primaryFileOutputPath s = Some "")) as [Hpath|Hpath].
  - rewrite (processImageSet_empty_path block ctx s w Hfmt Hplan Hpath) in Hrun.
    unfold bind at 1 in Hrun. rewrite readPrimaryImage_run in Hrun.
    destruct (remote w !! primaryUrl s) as [resp|]; [|discriminate].
    destruct (saveImage_facts _ ctx _ w' s' Hrun) as (p & evs & _ & Hpl & _).
    exact Hpl.
  - destruct (block_facts block ctx s w w' (Ok s') Hpath Hfmt Hplan Hrun)
      as (_ & Hok & _).
    apply (Hok s' eq_refl).
Qed.

(** The only ways in which the planning of a block fails. *)
Lemma plan_failures block ctx (w : World) e :
  plannedImageSet block ctx w = Err e ->
  e = NotInitialised /\ locales w = None \/
  e = URIError /\ is_Some (locales w).
Proof.
  unfold plannedImageSet.
  destruct (locales w) as [ls|] eqn:Hls.
  - rewrite (parseImageBlock_ok ls (block_image block) w Hls). cbn [fst].
    unfold makeImagePersistencePlanWithoutBuffer.
    cbn [pageInfo with_pageInfo fmap option_fmap option_map].
    destruct (Js.truthy (imageOutputPath w));
      match goal with
      | |- match decodeURI ?n with _ => _ end = _ -> _ =>
          destruct (decodeURI n) as [d|]; [discriminate|]
      end; intros [= <-]; right; split; eauto.
  - destruct (parse_cases (block_image block) w)
      as [[_ Hp] | (parsed & Hp & _)]; rewrite Hp; cbn [fst].
    + intros [= <-]. now left.
    + unfold parseImageBlock, bind, get in Hp. rewrite Hls in Hp. discriminate.
Qed.

End BlockResult.

(** X6. In the default and legacy formats the Markdown a block comes
    back as is an image whose alternative text is the caption without
    its override lines, trimmed, and whose target is the file name of
    the plan under the configured prefix, or under "." when the prefix
    is empty. *)
Theorem markdown_of_a_block `{Host} (block : Block) (ctx : Context)
  (w w' : World) (md : string) :
  imageFileNameFormat (ctx_options ctx) <> FormatContentHash ->
  markdownToMDImageTransformer block ctx w = (Ok md, w') ->
  exists s name,
    plannedImageSet block ctx w = Ok s /\
    outputFileName s = Some name /\
    md = "![" +:+
         Js.trim (captionTextOf
                    (Js.split "010" (mergedCaption (block_image block)))) +:+
         "](" +:+ (if Js.truthy (imagePrefix w) then imagePrefix w else ".") +:+
         "/" +:+ name +:+ ")".
Proof.
  intros Hfmt Hrun. rewrite transformer_run in Hrun.
  destruct (processImageSet block ctx w) as [[s'|e] w1] eqn:Hset;
    [|discriminate].
  destruct (rewriteBlock_fields block s') as [Ha Hb]. rewrite Ha, Hb in Hrun.
  injection Hrun as <- <-.
  destruct (plannedImageSet block ctx w) as [s|e] eqn:Hplan.
  - pose proof (block_planned block ctx s s' w w1 Hfmt Hplan Hset) as Hpl.
    unfold planned in Hpl. injection Hpl as _ Hcap _ _ _ _ Hhref.
    rewrite Hcap, Hhref.
    unfold plannedImageSet in Hplan.
    destruct (parse_cases (block_image block) w)
      as [[_ Hp] | (parsed & Hp & _)];
      rewrite Hp in Hplan; cbn [fst] in Hplan; [discriminate|].
    destruct (plan_markdown _ _ _ _ _ _ Hplan) as (Hc & name & Hname & Hmd).
    exists s, name. split; [reflexivity|]. split; [exact Hname|].
    rewrite Hmd, Hc. cbn [from_option with_pageInfo caption].
    destruct (locales w) as [ls|] eqn:Hls.
    + rewrite (parseImageBlock_ok ls (block_image block) w Hls) in Hp.
      injection Hp as <-. unfold id. cbn [caption].
      now rewrite !app_assoc_str.
    + unfold parseImageBlock, bind, get in Hp. rewrite Hls in Hp. discriminate.
  - rewrite (plan_err block ctx w e Hfmt Hplan) in Hset. discriminate.
Qed.

Lemma markdown_of_a_block_witness :
  exists s name,
    plannedImageSet (H := plainHost) Sample.block (Sample.context false)
      (Sample.world Sample.found) = Ok s /\
    outputFileName s = Some name /\
    "![A picture](/img/intro.b1.png)" =
    "![" +:+
    Js.trim (captionTextOf
               (Js.split "010" (mergedCaption (block_image Sample.block)))) +:+
    "](" +:+ (if Js.truthy (imagePrefix (Sample.world Sample.found))
              then imagePrefix (Sample.world Sample.found) else ".") +:+
    "/" +:+ name +:+ ")".
Proof.
  apply (markdown_of_a_block (H := plainHost) Sample.block (Sample.context false)
           (Sample.world Sample.found)
           (snd (markdownToMDImageTransformer (H := plainHost) Sample.block
                   (Sample.context false) (Sample.world Sample.found)))).
  - discriminate.
  - vm_compute. reflexivity.
Defined.

(** X7. In the default and legacy formats a block that cannot be
    planned fails before anything is done: the error is returned, and
    the files, the registry and the log are as they were.  The planning
    fails in two ways only: the module was not initialised, or the file
    name is not a well-formed URI. *)
Theorem failed_plan_leaves_no_trace `{Host} (block : Block) (ctx : Context)
  (w : World) (e : Error) :
  imageFileNameFormat (ctx_options ctx) <> FormatContentHash ->
  plannedImageSet block ctx w = Err e ->
  markdownToMDImageTransformer block ctx w = (Err e, w) /\
  (e = NotInitialised /\ locales w = None \/
   e = URIError /\ is_Some (locales w)).
Proof.
  intros Hfmt Hplan. split; [|exact (plan_failures block ctx w e Hplan)].
  rewrite transformer_run. now rewrite (plan_err block ctx w e Hfmt Hplan).
Qed.

Lemma failed_plan_leaves_no_trace_witness :
  let block := {| block_id := "50%";
                  block_image := block_image Sample.block |} in
  markdownToMDImageTransformer (H := plainHost) block (Sample.context false)
    (Sample.world Sample.found) = (Err URIError, Sample.world Sample.found).
Proof.
  intros block.
  apply (failed_plan_leaves_no_trace (H := plainHost) block (Sample.context false)
           (Sample.world Sample.found) URIError).
  - discriminate.
  - vm_compute. reflexivity.
Defined.

(** ** What processing a block changes *)

Global Instance accounted_preorder : PreOrder accounted.
Proof.
  split.
  - intros w. exists []. split; [now rewrite app_nil_r | now left].
  - intros w1 w2 w3 (e1 & Hl1 & Hf1) (e2 & Hl2 & Hf2).
    exists (e1 ++ e2). split; [now rewrite Hl2, Hl1, app_assoc|].
    intros p. destruct (Hf2 p) as [Heq | (b & Hb & Hp)].
    + rewrite Heq. destruct (Hf1 p) as [?|(b & Hb & Hp)]; [now left|].
      right. exists b. split; [|exact Hp]. apply elem_of_app. now left.
    + right. exists b. split; [|exact Hp]. apply elem_of_app. now right.
Qed.

Section Accounting.

Lemma accounted_logged (evs : list Event) (w : World) :
  accounted w (logged evs w).
Proof. exists evs. split; [reflexivity | now left]. Qed.

Lemma accounted_emit (e : Event) : keeps accounted (emit e).
Proof. intros w. apply accounted_logged. Qed.

Lemma accounted_existsSync (path : string) : keeps accounted (existsSync path).
Proof. intros w. apply accounted_logged. Qed.

Lemma accounted_fetch (u : string) : keeps accounted (fetch u).
Proof.
  unfold fetch. apply keeps_bind; [typeclasses eauto | apply accounted_emit |].
  intros _ w. destruct (remote w !! u); reflexivity.
Qed.

Lemma accounted_writeAsset (path : string) (b : Buffer) :
  keeps accounted (writeAsset path b).
Proof.
  intros w. exists [EWrite path b]. split; [reflexivity|].
  intros p. cbn. destruct (decide (path = p)) as [->|Hne].
  - right. exists b. split; [left | apply lookup_insert_eq].
  - left. now apply lookup_insert_ne.
Qed.

Lemma accounted_imageWasSeen (path : string) : keeps accounted (imageWasSeen path).
Proof. intros w. exists []. split; [cbn; now rewrite app_nil_r | now left]. Qed.

Lemma accounted_parseImageBlock (image : ImageBlock) :
  keeps accounted (parseImageBlock image).
Proof.
  intros w. unfold parseImageBlock, bind, get.
  destruct (locales w); reflexivity.
Qed.

Lemma write_touched (p : string) (b : Buffer) (evs : list Event) :
  EWrite p b ∈ evs -> p ∈ touched evs.
Proof.
  induction evs as [|e evs IH]; intros Hin; [now apply not_elem_of_nil in Hin|].
  apply elem_of_cons in Hin as [<-|Hin]; [left|].
  destruct e; cbn [touched]; try right; now apply IH.
Qed.

End Accounting.

Ltac accounted_step :=
  first
    [ apply accounted_emit | apply accounted_existsSync | apply accounted_fetch
    | apply accounted_writeAsset | apply accounted_imageWasSeen
    | apply accounted_parseImageBlock | frame_step ].

Section AccountedProcessing.
Context `{Host}.

Lemma accounted_saveLocalizedImages s ctx :
  keeps accounted (saveLocalizedImages s ctx).
Proof.
  unfold saveLocalizedImages. apply keeps_forEach; [typeclasses eauto|].
  intros e s'. unfold saveLocalizedImage, mayKeep, readPrimaryImage.
  repeat accounted_step.
Qed.

Lemma accounted_saveImage s ctx : keeps accounted (saveImage s ctx).
Proof.
  unfold saveImage, mayKeep.
  repeat first [apply accounted_saveLocalizedImages | accounted_step].
Qed.

Lemma accounted_processImageSet block ctx :
  keeps accounted (processImageSet block ctx).
Proof.
  unfold processImageSet, readPrimaryImage.
  repeat first [apply accounted_saveImage | apply accounted_saveLocalizedImages
               | accounted_step].
Qed.

Lemma transformer_world block ctx (w : World) :
  snd (markdownToMDImageTransformer block ctx w) =
  snd (processImageSet block ctx w).
Proof.
  rewrite transformer_run. now destruct (processImageSet block ctx w) as [[?|?] ?].
Qed.

End AccountedProcessing.

(** X8. Whatever the block, the format and the outcome, processing a
    block leaves the configuration and the network as they were, never
    removes a file, and changes a file only by a write: a path holds
    what it held before, or the bytes of a write to it that the call
    made. *)
Theorem files_change_only_by_writes `{Host} (block : Block) (ctx : Context)
  (w : World) :
  let w' := snd (markdownToMDImageTransformer block ctx w) in
  imageOutputPath w' = imageOutputPath w /\
  imagePrefix w' = imagePrefix w /\
  locales w' = locales w /\
  remote w' = remote w /\
  (forall p, is_Some (files w !! p) -> is_Some (files w' !! p)) /\
  (forall p, files w' !! p = files w !! p \/
             exists b, EWrite p b ∈ since w w' /\ files w' !! p = Some b).
Proof.
  intros w'. pose proof (grows_transformer block ctx w) as Hg. fold w' in Hg.
  destruct Hg as [Ho Hp Hl Hr _ Hf _]. do 4 (split; [assumption|]).
  split; [exact Hf|].
  destruct (accounted_processImageSet block ctx w) as (evs & Hlog & Hfiles).
  rewrite <- transformer_world in Hlog, Hfiles. fold w' in Hlog, Hfiles.
  now rewrite (since_app w w' evs Hlog).
Qed.

(** X9. In the default and legacy formats, whether the call returns or
    throws, the only files that processing a block can change are the
    targets of its plan: the primary path and the paths of the
    localized copies.  Every other path holds what it held. *)
Theorem only_the_targets_change `{Host} (block : Block) (ctx : Context)
  (w : World) (s : ImageSet) (p : string) :
  (forall a b, posix_join a b <> "") ->
  imageFileNameFormat (ctx_options ctx) <> FormatContentHash ->
  plannedImageSet block ctx w = Ok s ->
  p ∉ targets s ->
  files (snd (markdownToMDImageTransformer block ctx w)) !! p = files w !! p.
Proof.
  intros Hjoin Hfmt Hplan Hp. rewrite transformer_world.
  destruct (accounted_processImageSet block ctx w) as (evs & Hlog & Hfiles).
  destruct (processImageSet block ctx w) as [r w'] eqn:Hrun. cbn [snd] in *.
  destruct (block_facts block ctx s w w' r
              (planned_path_not_empty block ctx w s Hjoin Hplan) Hfmt Hplan Hrun)
    as ((evs' & Hlog' & Hin & _) & _).
  rewrite Hlog in Hlog'. apply app_inv_head in Hlog' as <-.
  destruct (Hfiles p) as [Heq | (b & Hb & _)]; [exact Heq|].
  exfalso. apply Hp, Hin. now apply (write_touched p b).
Qed.

Lemma only_the_targets_change_witness :
  files (snd (markdownToMDImageTransformer (H := plainHost) Sample.block
                (Sample.context false) (Sample.world Sample.found)))
    !! "static/img/logo.svg" =
  files (Sample.world Sample.found) !! "static/img/logo.svg".
Proof.
  eapply (only_the_targets_change (H := plainHost) Sample.block
            (Sample.context false) (Sample.world Sample.found)).
  - exact plainHost_join.
  - discriminate.
  - vm_compute. reflexivity.
  - intros Hin. vm_compute in Hin.
    repeat (apply elem_of_cons in Hin as [Hin|Hin]; [discriminate|]).
    now apply not_elem_of_nil in Hin.
Defined.

(** X10. In the default and legacy formats, when the primary image has
    to be written and its download is rejected, the call throws the
    rejection with nothing written and nothing marked: the files and
    the registry are as they were, and the log ends with the one
    fetch. *)
Theorem rejected_primary_fetch `{Host} (block : Block) (ctx : Context)
  (w : World) (s : ImageSet) :
  imageFileNameFormat (ctx_options ctx) <> FormatContentHash ->
  plannedImageSet block ctx w = Ok s ->
  remote w !! sourceUrl block = None ->
  (forceRefreshImages (ctx_options ctx) = true \/
   forall path, primaryFileOutputPath s = Some path -> fileExists w path = false) ->
  exists w' evs,
    markdownToMDImageTransformer block ctx w =
      (Err (FetchRejected (sourceUrl block)), w') /\
    files w' = files w /\
    existingImagesNotSeenYetInPull w' = existingImagesNotSeenYetInPull w /\
    since w w' = evs ++ [EFetch (sourceUrl block)] /\
    Forall (fun e => isWrite e = false /\ isFetch e = false) evs.
Proof.
  intros Hfmt Hplan Hnet Hgate. rewrite transformer_run.
  destruct (planned_shape block ctx w s Hplan) as (dir & name & Hpath & _ & _ & Hurl).
  set (path := posix_join dir name) in *.
  destruct (decide (path = "")) as [He|Hne].
  - rewrite He in Hpath.
    rewrite (processImageSet_empty_path block ctx s w Hfmt Hplan Hpath).
    unfold bind at 1. rewrite readPrimaryImage_run, Hurl, Hnet.
    eexists _, []. split; [reflexivity|]. do 2 (split; [reflexivity|]).
    split; [|constructor]. now apply since_app.
  - rewrite (processImageSet_gate block ctx s path w Hfmt Hplan Hpath Hne).
    unfold specPrimaryFirst. rewrite Hurl, Hnet.
    assert (CacheGate (forceRefreshImages (ctx_options ctx)) (fileExists w path)
            = Write) as ->.
    { unfold CacheGate. destruct Hgate as [-> | Hmiss]; [reflexivity|].
      rewrite (Hmiss path Hpath). now destruct (forceRefreshImages _). }
    eexists _, (asked (forceRefreshImages (ctx_options ctx)) path).
    split; [reflexivity|]. do 2 (split; [reflexivity|]).
    split; [now apply since_app|].
    unfold asked. destruct (forceRefreshImages (ctx_options ctx));
      repeat constructor.
Qed.

Lemma rejected_primary_fetch_witness :
  let offline := set_config "/img" "static/img" ["fr"] (moduleLoaded ∅ ∅) in
  exists w' evs,
    markdownToMDImageTransformer (H := plainHost) Sample.block
      (Sample.context false) offline =
      (Err (FetchRejected Sample.imageUrl), w') /\
    files w' = files offline /\
    existingImagesNotSeenYetInPull w' = existingImagesNotSeenYetInPull offline /\
    since offline w' = evs ++ [EFetch Sample.imageUrl] /\
    Forall (fun e => isWrite e = false /\ isFetch e = false) evs.
Proof.
  intros offline.
  eapply (rejected_primary_fetch (H := plainHost) Sample.block
            (Sample.context false) offline).
  - discriminate.
  - vm_compute. reflexivity.
  - reflexivity.
  - right. intros path Hpath. injection Hpath as <-. reflexivity.
Defined.

(** X11. In the content-hash format the primary image is downloaded
    before anything else, whatever is on disk: the first event of the
    call is the fetch.  When the download is rejected, or when no plan
    can be made from the bytes, the call throws with nothing else
    done. *)
Theorem content_hash_fetches_first `{Host} (block : Block) (ctx : Context)
  (w : World) :
  imageFileNameFormat (ctx_options ctx) = FormatContentHash ->
  is_Some (locales w) ->
  let url := sourceUrl block in
  let r := markdownToMDImageTransformer block ctx w in
  (exists evs, since w (snd r) = EFetch url :: evs) /\
  (remote w !! url = None ->
   r = (Err (FetchRejected url), logged [EFetch url] w)) /\
  (forall resp parsed,
     remote w !! url = Some resp ->
     parseImageBlock (block_image block) w = (Ok parsed, w) ->
     makeImagePersistencePlan (ctx_options ctx)
       (with_primaryImage (body resp) (fileTypeFromBuffer (body resp))
          (with_pageInfo (ctx_pageInfo ctx) parsed))
       (block_id block) (imageOutputPath w) (imagePrefix w) = None ->
     r = (Err PlanError, logged [EFetch url] w)).
Proof.
  intros Hfmt [ls Hls] url r. subst r. rewrite transformer_run.
  destruct (parse_cases (block_image block) w)
    as [[Hno _] | (parsed & Hp & _ & _ & Hu)]; [congruence|].
  fold (sourceUrl block) in Hu. fold url in Hu.
  assert (processImageSet block ctx w =
          match remote w !! url with
          | Some resp =>
              match makeImagePersistencePlan (ctx_options ctx)
                      (with_primaryImage (body resp) (fileTypeFromBuffer (body resp))
                         (with_pageInfo (ctx_pageInfo ctx) parsed))
                      (block_id block) (imageOutputPath w) (imagePrefix w) with
              | Some s2 => saveImage s2 ctx (logged [EFetch url] w)
              | None => (Err PlanError, logged [EFetch url] w)
              end
          | None => (Err (FetchRejected url), logged [EFetch url] w)
          end) as Hrun.
  { unfold processImageSet. unfold bind at 1. rewrite Hp, Hfmt.
    unfold bind at 1. rewrite readPrimaryImage_run.
    cbn [primaryUrl with_pageInfo]. rewrite Hu.
    destruct (remote w !! url) as [resp|]; [|reflexivity].
    unfold bind at 1. unfold get. cbn [imageOutputPath imagePrefix logged set_log].
    now destruct (makeImagePersistencePlan _ _ _ _ _). }
  rewrite Hrun. split; [|split].
  - destruct (remote w !! url) as [resp|].
    + destruct (makeImagePersistencePlan _ _ _ _ _) as [s2|].
      * pose proof (grows_saveImage s2 ctx (logged [EFetch url] w)) as Hg.
        destruct (saveImage s2 ctx (logged [EFetch url] w)) as [[s3|e] w'];
          cbn [snd] in *; destruct (grows_log _ _ Hg) as [evs Hevs];
          exists evs; apply since_app; rewrite Hevs; cbn;
          now rewrite <- app_assoc.
      * exists []. now apply since_app.
    + exists []. now apply since_app.
  - now intros ->.
  - intros resp parsed' Hresp Hp' Hnone. rewrite Hp in Hp'.
    injection Hp' as <-. now rewrite Hresp, Hnone.
Qed.

Lemma content_hash_fetches_first_witness :
  markdownToMDImageTransformer (H := plainHost) Sample.block
    {| ctx_options := {| imageFileNameFormat := FormatContentHash;
                         forceRefreshImages := false |};
       ctx_pageInfo := Sample.page |}
    (Sample.world Sample.found) =
  (Err PlanError, logged [EFetch Sample.imageUrl] (Sample.world Sample.found)).
Proof.
  refine (proj2 (proj2 (content_hash_fetches_first (H := plainHost) Sample.block
            {| ctx_options := {| imageFileNameFormat := FormatContentHash;
                                 forceRefreshImages := false |};
               ctx_pageInfo := Sample.page |}
            (Sample.world Sample.found) eq_refl (ex_intro _ ["fr"] eq_refl)))
          Sample.found _ eq_refl _ eq_refl).
  vm_compute. reflexivity.
Defined.

(** ** Downloads *)

Section Downloads.
Context `{Host}.

Lemma fetches_app (a b : list Event) : fetches (a ++ b) = fetches a + fetches b.
Proof. unfold fetches. now rewrite List.filter_app, List.length_app. Qed.

Lemma step_fetches ctx e s (w w' : World) r :
  saveLocalizedImage ctx e s w = (r, w') ->
  exists evs, log w' = log w ++ evs /\
              fetches evs + owed r <= (if Js.truthy (url e) then 1 else 0) + pending s.
Proof.
  intros Hrun. destruct (pageInfo s) as [pi|] eqn:Hpi.
  - rewrite (saveLocalizedImage_gate ctx e s pi w Hpi) in Hrun.
    unfold specLocalizedImage, CacheGate, asked in Hrun.
    destruct (primaryBuffer s) as [buffer|] eqn:Hbuf;
      destruct (forceRefreshImages (ctx_options ctx)); cbn [negb andb] in Hrun;
      repeat match type of Hrun with
        | (if ?b then _ else _) = _ => destruct b
        | match ?x with _ => _ end = _ => destruct x eqn:?
        end;
      apply pair_equal_spec in Hrun as [<- <-];
      (eexists; split; [cbn; rewrite <- ?app_assoc; reflexivity|]);
      unfold owed, pending; cbn [primaryBuffer with_primaryImage];
      rewrite ?Hbuf; cbn; lia.
  - unfold saveLocalizedImage in Hrun. rewrite Hpi in Hrun.
    apply pair_equal_spec in Hrun as [<- <-]. exists [].
    split; [now rewrite app_nil_r | cbn; lia].
Qed.

Lemma loop_fetches ctx (l : list LocalizedUrl) :
  forall s (w w' : World) r,
    forEach (saveLocalizedImage ctx) l s w = (r, w') ->
    exists evs, log w' = log w ++ evs /\
                fetches evs + owed r <= overrides l + pending s.
Proof.
  induction l as [|e l IH]; intros s w w' r Hrun.
  - apply pair_equal_spec in Hrun as [<- <-]. exists [].
    split; [now rewrite app_nil_r | cbn; lia].
  - cbn [forEach] in Hrun. unfold bind at 1 in Hrun.
    destruct (saveLocalizedImage ctx e s w) as [[s1|err] w1] eqn:Hstep;
      destruct (step_fetches ctx e s w w1 _ Hstep) as (evs1 & Hlog1 & Hle1);
      cbn [owed] in Hle1.
    + destruct (IH s1 w1 w' r Hrun) as (evs2 & Hlog2 & Hle2).
      exists (evs1 ++ evs2). split; [now rewrite Hlog2, Hlog1, app_assoc|].
      rewrite fetches_app. unfold overrides in *. cbn [List.filter].
      destruct (Js.truthy (url e)); cbn [List.length]; lia.
    + apply pair_equal_spec in Hrun as [<- <-]. exists evs1.
      split; [exact Hlog1|]. unfold overrides in *. cbn [List.filter owed].
      destruct (Js.truthy (url e)); cbn [List.length]; lia.
Qed.

Lemma saveImage_fetches s ctx (w w' : World) r :
  saveImage s ctx w = (r, w') ->
  exists evs, log w' = log w ++ evs /\
              fetches evs <= overrides (localizedUrls s) + pending s.
Proof.
  intros Hrun. destruct (primaryFileOutputPath s) as [path|] eqn:Hpath.
  - rewrite (saveImage_run s ctx path w Hpath) in Hrun. cbv zeta in Hrun.
    unfold CacheGate, asked, saveLocalizedImages in Hrun.
    destruct (forceRefreshImages (ctx_options ctx)); cbn [negb andb] in Hrun;
      repeat match type of Hrun with
        | (if ?b then _ else _) = _ => destruct b
        | match ?x with _ => _ end = _ => destruct x eqn:?
        end;
      first
        [ apply pair_equal_spec in Hrun as [<- <-];
          eexists; split; [cbn; reflexivity | cbn; lia]
        | destruct (loop_fetches ctx _ _ _ _ _ Hrun) as (evs & Hlog & Hle);
          cbn in Hlog; rewrite <- app_assoc in Hlog;
          eexists; split; [exact Hlog|];
          rewrite fetches_app; cbn [fetches List.filter isFetch List.length];
          lia ].
  - unfold saveImage in Hrun. rewrite Hpath in Hrun.
    apply pair_equal_spec in Hrun as [<- <-]. exists [].
    split; [now rewrite app_nil_r | cbn; lia].
Qed.

Lemma overrides_parsed (ls : list string) (l : list LocalizedUrl) :
  overrides (seeded ls ++ l) <= List.length l.
Proof.
  unfold overrides. rewrite List.filter_app, List.length_app.
  assert (List.filter (fun e => Js.truthy (url e)) (seeded ls) = []) as ->
    by (induction ls as [|x ls IH]; [reflexivity | exact IH]).
  cbn [List.length]. apply List.filter_length_le.
Qed.

Lemma read_pending (b : Buffer) (t : option FileTypeResult) (s : ImageSet) :
  pending (with_primaryImage b t s) = 0 /\
  localizedUrls (with_primaryImage b t s) = localizedUrls s.
Proof. now split. Qed.

Lemma since_refl (w : World) : since w w = [].
Proof. apply since_app. now rewrite app_nil_r. Qed.

End Downloads.

(** X12. In the default and legacy formats a block costs at most one
    download more than its caption has override lines, whatever is on
    disk and whether the refresh is forced: the primary image is never
    downloaded twice, not even when several locales fall back to it. *)
Theorem downloads_per_block `{Host} (block : Block) (ctx : Context)
  (w : World) (ls : list string) :
  imageFileNameFormat (ctx_options ctx) <> FormatContentHash ->
  locales w = Some ls ->
  fetches (since w (snd (markdownToMDImageTransformer block ctx w))) <=
  1 + List.length (omap lineOverride
                     (Js.split "010" (mergedCaption (block_image block)))).
Proof.
  intros Hfmt Hls. rewrite transformer_world.
  set (lines := Js.split "010" (mergedCaption (block_image block))).
  destruct (plannedImageSet block ctx w) as [s|e] eqn:Hplan.
  - assert (overrides (localizedUrls s) <= List.length (omap lineOverride lines))
      as Hover.
    { unfold plannedImageSet in Hplan.
      rewrite (parseImageBlock_ok ls (block_image block) w Hls) in Hplan.
      cbn [fst] in Hplan.
      destruct (plan_fields _ _ _ _ _ _ Hplan) as (_ & _ & _ & _ & -> & _).
      apply overrides_parsed. }
    destruct (planned_shape block ctx w s Hplan)
      as (dir & name & Hpath & _ & Hbuf & Hurl).
    set (path := posix_join dir name) in *.
    assert (pending s = 1) as Hpend by (unfold pending; now rewrite Hbuf).
    destruct (decide (path = "")) as [He|Hne].
    + rewrite He in Hpath.
      rewrite (processImageSet_empty_path block ctx s w Hfmt Hplan Hpath).
      unfold bind at 1. rewrite readPrimaryImage_run.
      destruct (remote w !! primaryUrl s) as [resp|].
      * destruct (saveImage _ ctx _) as [r w'] eqn:Hrun. cbn [snd].
        destruct (saveImage_fetches _ ctx _ w' r Hrun) as (evs & Hlog & Hle).
        cbn in Hlog. rewrite <- app_assoc in Hlog.
        rewrite (since_app w w' _ Hlog), fetches_app.
        rewrite (proj1 (read_pending _ _ _)), (proj2 (read_pending _ _ _)) in Hle.
        cbn [fetches List.filter isFetch List.length app]. lia.
      * cbn [snd].
        rewrite (since_app w (logged [EFetch (primaryUrl s)] w)
                   [EFetch (primaryUrl s)] eq_refl).
        cbn. lia.
    + rewrite (processImageSet_gate block ctx s path w Hfmt Hplan Hpath Hne).
      unfold specPrimaryFirst, CacheGate, asked, saveLocalizedImages.
      destruct (forceRefreshImages (ctx_options ctx)); cbn [negb andb];
        repeat match goal with
          | |- context [if ?b then _ else _] => destruct b
          | |- context [match remote w !! ?u with _ => _ end] =>
              destruct (remote w !! u)
          end;
        first
          [ cbn [snd]; erewrite since_app by (cbn; reflexivity); cbn; lia
          | match goal with
            | |- context [forEach ?f ?l ?s0 ?w0] =>
                destruct (forEach f l s0 w0) as [res w'] eqn:Hrun;
                destruct (loop_fetches ctx _ _ _ _ _ Hrun) as (evs & Hlog & Hle);
                cbn in Hlog; rewrite <- ?app_assoc in Hlog;
                cbn [snd]; rewrite (since_app w w' _ Hlog), fetches_app;
                rewrite ?(proj1 (read_pending _ _ _)),
                  ?(proj2 (read_pending _ _ _)) in Hle;
                cbn [fetches List.filter isFetch List.length app];
                lia
            end ].
  - rewrite (plan_err block ctx w e Hfmt Hplan). cbn [snd].
    rewrite since_refl. cbn. lia.
Qed.

Lemma downloads_per_block_witness :
  fetches (since (Sample.world Sample.found)
             (snd (markdownToMDImageTransformer (H := plainHost) Sample.block
                     (Sample.context true) (Sample.world Sample.found)))) <=
  1 + List.length (omap lineOverride
                     (Js.split "010" (mergedCaption (block_image Sample.block)))).
Proof.
  apply (downloads_per_block (H := plainHost) Sample.block (Sample.context true)
           (Sample.world Sample.found) ["fr"]).
  - discriminate.
  - reflexivity.
Defined.

(** ** Two entries for one locale *)

Section SameLocale.
Context `{Host}.



End SameLocale.



(** ** The sweep *)

Section SweepNeeds.

Lemma cleanup_run (w : World) :
  cleanupOldImages w =
  forEach (fun p (_ : unit) => rm p) (existingImagesNotSeenYetInPull w) tt w.
Proof. reflexivity. Qed.

(** A sweep that returns has found every path, and none twice. *)
Lemma sweep_needs (l : list string) (w w' : World) :
  forEach (fun p (_ : unit) => rm p) l tt w = (Ok tt, w') ->
  NoDup l /\ forall q, q ∈ l -> is_Some (files w !! q).
Proof.
  revert w. induction l as [|p l IH]; intros w Hrun.
  - split; [constructor|]. intros q Hq. now apply not_elem_of_nil in Hq.
  - cbn [forEach] in Hrun. unfold bind, rm at 1 in Hrun.
    destruct (files w !! p) as [b|] eqn:Hp; [|discriminate].
    destruct (IH _ Hrun) as [Hnd Hall]. cbn in Hall.
    split.
    + constructor; [|exact Hnd]. intros Hin.
      apply Hall, lookup_delete_is_Some in Hin as [Hne _]. now apply Hne.
    + intros q Hq. apply elem_of_cons in Hq as [->|Hq]; [now exists b|].
      now apply Hall, lookup_delete_is_Some in Hq as [_ Hq].
Qed.

End SweepNeeds.

(** X14. [cleanupOldImages] returns exactly when every path of the
    registry is on disk and none is listed twice.  It does not empty
    the registry: after a sweep that returned, a second sweep of a
    registry that is not empty throws on its first path. *)
Theorem sweep_succeeds_iff (w : World) :
  ((exists w', cleanupOldImages w = (Ok tt, w')) <->
   NoDup (existingImagesNotSeenYetInPull w) /\
   forall q, q ∈ existingImagesNotSeenYetInPull w -> is_Some (files w !! q)) /\
  (forall w' p l,
     cleanupOldImages w = (Ok tt, w') ->
     existingImagesNotSeenYetInPull w = p :: l ->
     existingImagesNotSeenYetInPull w' = p :: l /\
     cleanupOldImages w' = (Err (ENOENT p), w')).
Proof.
  split.
  - rewrite cleanup_run. split.
    + intros [w' Hrun]. exact (sweep_needs _ w w' Hrun).
    + intros [Hnd Hall].
      destruct (sweep_ok _ w Hnd Hall) as (w' & Hrun & _). now exists w'.
  - intros w' p l Hrun Hreg. rewrite cleanup_run in Hrun.
    destruct (sweep_needs _ w w' Hrun) as [Hnd Hall].
    destruct (sweep_ok _ w Hnd Hall) as (w2 & Hrun2 & _ & Hreg2 & Hfiles).
    rewrite Hrun in Hrun2. injection Hrun2 as <-.
    rewrite Hreg in Hreg2, Hfiles. split; [exact Hreg2|].
    rewrite cleanup_run, Hreg2. cbn [forEach]. unfold bind, rm at 1.
    rewrite (Hfiles p), decide_True by left. reflexivity.
Qed.

Lemma sweep_succeeds_iff_witness :
  let w := set_registry ["old/a.png"]
             (moduleLoaded {[ "old/a.png" := [] ]} ∅) in
  let w' := snd (cleanupOldImages w) in
  existingImagesNotSeenYetInPull w' = ["old/a.png"] /\
  cleanupOldImages w' = (Err (ENOENT "old/a.png"), w').
Proof.
  intros w w'.
  apply (proj2 (sweep_succeeds_iff w) w' "old/a.png" []).
  - vm_compute. reflexivity.
  - reflexivity.
Defined.

(** X15. In the default and legacy formats, after a pull that
    completes, sweep included, the files of every block are on disk:
    the primary file and one copy per entry of its localized list.  The
    sweep removes none of the files the pass has just asked about or
    written. *)
Theorem completed_pull_keeps_its_files `{Host} (options : Options)
  (blocks : list (Block * PageInfo)) (w w2 : World) :
  (forall a b, posix_join a b <> "") ->
  imageFileNameFormat options <> FormatContentHash ->
  pull options blocks w = (Ok tt, w2) ->
  forall b, b ∈ blocks ->
    exists s path,
      plannedImageSet (fst b) {| ctx_options := options; ctx_pageInfo := snd b |} w
      = Ok s /\
      primaryFileOutputPath s = Some path /\ path ∈ targets s /\
      forall p, p ∈ targets s -> fileExists w2 p = true.
Proof.
  intros Hjoin Hfmt Hpull b Hb. unfold pull in Hpull. unfold bind at 1 in Hpull.
  destruct (processBlocks options blocks w) as [[[]|e] w1] eqn:Hpass;
    [|discriminate].
  destruct (first_pass_targets options blocks w w1 Hjoin Hfmt Hpass b Hb)
    as (s & Hplan & Hall).
  destruct (planned_shape _ _ w s Hplan) as (dir & name & Hpath & _).
  exists s, (posix_join dir name). split; [exact Hplan|]. split; [exact Hpath|].
  split; [rewrite (targets_cons s _ Hpath); left|].
  intros p Hp. destruct (Hall p Hp) as [Hout Hthere].
  rewrite cleanup_run in Hpull.
  destruct (sweep_result _ w1 w2 Hpull) as (_ & _ & _ & _ & Hfiles).
  unfold fileExists in *. rewrite (Hfiles p), decide_False by exact Hout.
  exact Hthere.
Qed.

Lemma completed_pull_keeps_its_files_witness :
  let w2 := snd (pull (H := plainHost) (Sample.options false)
                   [(Sample.block, Sample.page)] (Sample.world Sample.found)) in
  fileExists w2 "static/img/intro.b1.png" = true /\
  fileExists w2
    "./i18n/fr/docusaurus-plugin-content-docs/current/guide/intro.b1.png" = true.
Proof.
  intros w2.
  assert (imageFileNameFormat (Sample.options false) <> FormatContentHash)
    as Hfmt by discriminate.
  assert (pull (H := plainHost) (Sample.options false)
            [(Sample.block, Sample.page)] (Sample.world Sample.found) = (Ok tt, w2))
    as Hpull by (vm_compute; reflexivity).
  destruct (completed_pull_keeps_its_files (H := plainHost) (Sample.options false)
              [(Sample.block, Sample.page)] (Sample.world Sample.found) w2
              plainHost_join Hfmt Hpull (Sample.block, Sample.page))
    as (s & path & Hplan & _ & _ & Hall).
  - left.
  - vm_compute in Hplan. injection Hplan as <-.
    split; apply Hall; [left | right; left].
Defined.

(** ** The caption *)

Section CaptionShape.

Lemma lacks_app (c : ascii) (a b : string) :
  Js.lacks c (a +:+ b) = Js.lacks c a && Js.lacks c b.
Proof.
  unfold Js.lacks. induction a as [|x a IH]; [now rewrite app_Empty|].
  rewrite app_String. cbn [Js.every]. now rewrite IH, andb_assoc.
Qed.

Lemma lacks_trimStart (c : ascii) (s : string) :
  Js.lacks c s = true -> Js.lacks c (Js.trimStart s) = true.
Proof.
  unfold Js.lacks. induction s as [|x s IH]; [reflexivity|].
  cbn [Js.trimStart]. destruct (Js.isWhiteSpace x); [|now intros].
  cbn [Js.every]. intros Hs. apply andb_true_iff in Hs as [_ Hs]. now apply IH.
Qed.

Lemma lacks_trimEnd (c : ascii) (s : string) :
  Js.lacks c s = true -> Js.lacks c (Js.trimEnd s) = true.
Proof.
  unfold Js.lacks. induction s as [|x s IH]; [reflexivity|].
  cbn [Js.trimEnd Js.every]. intros Hs. apply andb_true_iff in Hs as [Hx Hs].
  specialize (IH Hs). destruct (Js.trimEnd s) as [|y t].
  - destruct (Js.isWhiteSpace x); [reflexivity|]. cbn [Js.every].
    now rewrite Hx.
  - cbn [Js.every] in *. now rewrite Hx, IH.
Qed.

Lemma trimEnd_idem (s : string) : Js.trimEnd (Js.trimEnd s) = Js.trimEnd s.
Proof.
  induction s as [|x s IH]; [reflexivity|].
  cbn [Js.trimEnd]. destruct (Js.trimEnd s) as [|y t] eqn:Ht.
  - destruct (Js.isWhiteSpace x) eqn:Hx; [reflexivity|].
    cbn [Js.trimEnd]. now rewrite Hx.
  - change (Js.trimEnd (String x (String y t)))
      with (match Js.trimEnd (String y t) with
            | EmptyString => if Js.isWhiteSpace x then EmptyString
                             else String x EmptyString
            | u => String x u
            end).
    now rewrite IH.
Qed.

Lemma trimStart_clean (s : string) : headClean (Js.trimStart s) = true.
Proof.
  induction s as [|x s IH]; [reflexivity|].
  cbn [Js.trimStart]. destruct (Js.isWhiteSpace x) eqn:Hx; [exact IH|].
  cbn [headClean]. now rewrite Hx.
Qed.

Lemma trimStart_of_clean (s : string) :
  headClean s = true -> Js.trimStart s = s.
Proof.
  destruct s as [|x s]; [reflexivity|]. cbn [headClean Js.trimStart].
  now destruct (Js.isWhiteSpace x).
Qed.

Lemma trimEnd_clean (s : string) :
  headClean s = true -> headClean (Js.trimEnd s) = true.
Proof.
  destruct s as [|x s]; [reflexivity|]. cbn [headClean Js.trimEnd].
  intros Hx. destruct (Js.trimEnd s); [|exact Hx].
  destruct (Js.isWhiteSpace x) eqn:E; [discriminate|].
  cbn [headClean]. now rewrite E.
Qed.

Lemma trim_idem (s : string) : Js.trim (Js.trim s) = Js.trim s.
Proof.
  unfold Js.trim.
  rewrite (trimStart_of_clean (Js.trimEnd (Js.trimStart s)))
    by apply trimEnd_clean, trimStart_clean.
  apply trimEnd_idem.
Qed.

Lemma captionText_lacks (c : ascii) (lines : list string) :
  Js.lacks c " " = true ->
  (forall l, l ∈ lines -> Js.lacks c l = true) ->
  Js.lacks c (captionTextOf lines) = true.
Proof.
  intros Hsp. induction lines as [|l lines IH]; intros Hall; [reflexivity|].
  cbn [captionTextOf].
  assert (Js.lacks c (captionTextOf lines) = true) as Hrest
    by (apply IH; intros x Hx; apply Hall; now right).
  destruct (lineOverride l); [exact Hrest|].
  rewrite !lacks_app, Hsp, Hrest, (Hall l) by left. reflexivity.
Qed.

End CaptionShape.

(** X16. The caption that [parseImageBlock] returns is one line,
    trimmed: it holds no line feed, and trimming it again changes
    nothing, so it neither starts nor ends with white space. *)
Theorem caption_is_one_trimmed_line (image : ImageBlock) (w w' : World)
  (s : ImageSet) :
  parseImageBlock image w = (Ok s, w') ->
  Js.lacks "010" (caption s) = true /\
  Js.trim (caption s) = caption s /\
  headClean (caption s) = true.
Proof.
  intros Hrun.
  destruct (locales w) as [ls|] eqn:Hls.
  - rewrite (parseImageBlock_ok ls image w Hls) in Hrun.
    injection Hrun as <- _. cbn [caption]. split; [|split].
    + apply lacks_trimEnd, lacks_trimStart, captionText_lacks; [reflexivity|].
      intros l Hl.
      exact (proj1 (split_pieces "010" "010" (mergedCaption image) l Hl)).
    + apply trim_idem.
    + apply trimEnd_clean, trimStart_clean.
  - unfold parseImageBlock, bind, get in Hrun. rewrite Hls in Hrun. discriminate.
Qed.

Lemma caption_is_one_trimmed_line_witness :
  let image := {| image_source := SourceFile Sample.imageUrl;
                  image_caption := [{| plain_text := "  A picture
fr https://cdn.example.com/pic.fr.png
of a cat  " |}] |} in
  Js.lacks "010" "A picture of a cat" = true /\
  Js.trim "A picture of a cat" = "A picture of a cat" /\
  headClean "A picture of a cat" = true.
Proof.
  intros image.
  apply (caption_is_one_trimmed_line image (Sample.world Sample.found)
           (Sample.world Sample.found)
           {| primaryUrl := Sample.imageUrl; caption := "A picture of a cat";
              localizedUrls := [{| iso632Code := "fr"; url := "" |};
                                {| iso632Code := "fr";
                                   url := "https://cdn.example.com/pic.fr.png" |}];
              pageInfo := None; primaryBuffer := None; fileType := None;
              primaryFileOutputPath := None; outputFileName := None;
              filePathToUseInMarkdown := None |}).
  vm_compute. reflexivity.
Defined.

(** ** What an override line looks like *)

Section OverrideShape.
Import Regex.

(** What a star takes is made of its class, and the position moves by
    its length. *)
Lemma star_run p k (s : string) (i : nat) res :
  star p k s i = Some res ->
  exists pre s', s = pre +:+ s' /\ Js.every p pre = true /\
                 k s' (i + String.length pre) = Some res.
Proof.
  revert i. induction s as [|c s IH]; intros i Hs.
  - exists EmptyString, EmptyString. cbn. rewrite Nat.add_0_r. now repeat split.
  - cbn [star] in Hs. destruct (p c) eqn:Hc.
    + destruct (star p k s (S i)) as [r|] eqn:E.
      * injection Hs as ->.
        destruct (IH _ E) as (pre & s' & -> & Hp & Hk).
        exists (String c pre), s'. rewrite app_String. cbn [Js.every String.length].
        rewrite Hc, Hp. replace (i + S (String.length pre))
          with (S i + String.length pre) by lia. now repeat split.
      * exists EmptyString, (String c s). cbn. rewrite Nat.add_0_r.
        now repeat split.
    + exists EmptyString, (String c s). cbn. rewrite Nat.add_0_r.
      now repeat split.
Qed.

(** The search from the left finds its match at the position it
    reports. *)
Lemma execFrom_at r (s : string) (i : nat) res :
  execFrom r s i = Some res ->
  exists pre s', s = pre +:+ s' /\
                 matchFrom r s' (i + String.length pre) [] = Some res.
Proof.
  revert i. induction s as [|c s IH]; intros i Hs; cbn [execFrom] in Hs.
  - destruct (matchFrom r "" i []) eqn:E; [|discriminate].
    exists EmptyString, EmptyString. cbn. rewrite Nat.add_0_r.
    split; [reflexivity | congruence].
  - destruct (matchFrom r (String c s) i []) eqn:E.
    + exists EmptyString, (String c s). cbn. rewrite Nat.add_0_r.
      split; [reflexivity | congruence].
    + destruct (IH _ Hs) as (pre & s' & -> & Hm).
      exists (String c pre), s'. rewrite app_String. cbn [String.length].
      replace (i + S (String.length pre)) with (S i + String.length pre) by lia.
      now split.
Qed.

(** A line that records an override, taken apart. *)
Lemma override_parts (l : string) (e : LocalizedUrl) :
  lineOverride l = Some e ->
  exists pre c1 c2 ws rest tail,
    l = pre +:+ String c1 (String c2 (ws +:+ ("https://" +:+ rest) +:+ tail)) /\
    Js.isDot c1 = true /\ Js.isDot c2 = true /\
    Js.every Js.isWhiteSpace ws = true /\ Js.every Js.isDot rest = true /\
    e = {| iso632Code := Js.toLowerCase (String c1 (String c2 ""));
           url := "https://" +:+ rest |}.
Proof.
  unfold lineOverride, exec. intros Hl.
  destruct (execFrom localizedLineRegex l 0) as [res|] eqn:Hexec; [|discriminate].
  injection Hl as <-.
  apply execFrom_at in Hexec as (p0 & s0 & Hl & Hm).
  unfold localizedLineRegex in Hm. cbn [app matchFrom] in Hm.
  apply star_run in Hm as (p1 & s1 & -> & _ & Hm). cbn beta in Hm.
  destruct s1 as [|c1 [|c2 s2]]; cbn [matchFrom] in Hm; try discriminate;
    [destruct (Js.isDot c1); discriminate|].
  destruct (Js.isDot c1) eqn:Hc1; [|discriminate].
  destruct (Js.isDot c2) eqn:Hc2; [|discriminate].
  apply star_run in Hm as (ws & s3 & -> & Hws & Hm). cbn beta in Hm.
  change (matchFrom (Paren :: ?r) ?s ?i ?m) with (matchFrom r s i (i :: m)) in Hm.
  cbn [matchFrom] in Hm.
  set (b1 := 0 + String.length p0 + String.length p1) in *.
  set (b2 := S (S b1) + String.length ws) in *.
  change (lit "h" :: lit "t" :: lit "t" :: lit "p" :: lit "s" :: lit ":" ::
          lit "/" :: lit "/" :: [Star Js.isDot; Paren])
    with (lits "https://" ++ [Star Js.isDot; Paren]) in Hm.
  destruct (lits_inv _ _ _ _ _ _ Hm) as (s4 & ->).
  rewrite lits_match in Hm. cbn [matchFrom] in Hm.
  apply star_run in Hm as (rest & tail & -> & Hrest & Hm). cbn beta in Hm.
  injection Hm as <-.
  exists (p0 +:+ p1), c1, c2, ws, rest, tail.
  assert (l = (p0 +:+ p1) +:+
              String c1 (String c2 (ws +:+ ("https://" +:+ rest) +:+ tail)))
    as Hshape by (rewrite Hl, !app_assoc_str; reflexivity).
  split; [exact Hshape|]. do 4 (split; [assumption|]).
  unfold matchGroups. cbn [fst snd]. f_equal.
  - f_equal. rewrite Hshape.
    assert (b1 = String.length (p0 +:+ p1)) as -> by (rewrite length_app_str; lia).
    change (String c1 (String c2 ?x)) with (String c1 (String c2 "") +:+ x).
    replace (S (S (String.length (p0 +:+ p1))))
      with (String.length (p0 +:+ p1) + String.length (String c1 (String c2 "")))
      by (cbn; lia).
    apply slice_middle.
  - rewrite Hshape.
    assert (b2 = String.length ((p0 +:+ p1) +:+ String c1 (String c2 ws))) as ->
      by (unfold b2, b1; rewrite ?length_app_str; cbn [String.length];
          rewrite ?length_app_str; lia).
    replace ((p0 +:+ p1) +:+
             String c1 (String c2 (ws +:+ ("https://" +:+ rest) +:+ tail)))
      with (((p0 +:+ p1) +:+ String c1 (String c2 ws)) +:+
            ("https://" +:+ rest) +:+ tail)
      by (rewrite !app_assoc_str; reflexivity).
    match goal with
    | |- slice _ ?e _ = _ =>
        replace e
          with (String.length ((p0 +:+ p1) +:+ String c1 (String c2 ws)) +
                String.length ("https://" +:+ rest))
          by (unfold b1; rewrite ?length_app_str; cbn [String.length];
              rewrite ?length_app_str; cbn [String.length]; lia)
    end.
    apply slice_middle.
Qed.

Lemma toLowerCase_length (s : string) :
  String.length (Js.toLowerCase s) = String.length s.
Proof. induction s as [|c s IH]; [reflexivity|]. cbn. now rewrite IH. Qed.

End OverrideShape.

(** X17. Every entry of the localized list that [parseImageBlock]
    returns is either the placeholder of a configured locale, with no
    URL, or comes from a line of the caption: two characters that are
    no line terminators give its code, lowercased, white space may
    follow, and its URL starts with https:// and runs on that line
    without a line terminator. *)
Theorem localized_entries_are_well_formed (image : ImageBlock) (w w' : World)
  (s : ImageSet) (e : LocalizedUrl) :
  parseImageBlock image w = (Ok s, w') ->
  e ∈ localizedUrls s ->
  (url e = "" /\ exists ls, locales w = Some ls /\ iso632Code e ∈ ls) \/
  (exists l pre c1 c2 ws tail,
     l ∈ Js.split "010" (mergedCaption image) /\
     l = pre +:+ String c1 (String c2 (ws +:+ url e +:+ tail)) /\
     iso632Code e = Js.toLowerCase (String c1 (String c2 "")) /\
     Js.isDot c1 = true /\ Js.isDot c2 = true /\
     Js.every Js.isWhiteSpace ws = true /\
     String.prefix "https://" (url e) = true /\
     Js.every Js.isDot (url e) = true).
Proof.
  intros Hrun He.
  destruct (locales w) as [ls|] eqn:Hls.
  - rewrite (parseImageBlock_ok ls image w Hls) in Hrun.
    injection Hrun as <- _. cbn [localizedUrls] in He.
    apply elem_of_app in He as [He|He].
    + left. unfold seeded in He.
      apply list_elem_of_fmap in He as (x & -> & Hx).
      split; [reflexivity|]. now exists ls.
    + right. apply list_elem_of_omap in He as (l & Hl & Hov).
      destruct (override_parts l e Hov)
        as (pre & c1 & c2 & ws & rest & tail & Hshape & Hc1 & Hc2 & Hws & Hrest & ->).
      exists l, pre, c1, c2, ws, tail. cbn [url iso632Code].
      do 6 (split; [assumption || reflexivity|]).
      split; [apply prefix_app|].
      change ("https://" +:+ rest)
        with (String "h" (String "t" (String "t" (String "p" (String "s"
               (String ":" (String "/" ("/" +:+ rest)))))))).
      rewrite app_String, app_Empty. cbn [Js.every]. now rewrite Hrest.
  - unfold parseImageBlock, bind, get in Hrun. rewrite Hls in Hrun. discriminate.
Qed.

Lemma localized_entries_are_well_formed_witness :
  let image := {| image_source := SourceFile Sample.imageUrl;
                  image_caption := [{| plain_text := "A picture
FR  https://cdn.example.com/pic.fr.png" |}] |} in
  let e := {| iso632Code := "fr"; url := "https://cdn.example.com/pic.fr.png" |} in
  (url e = "" /\
   exists ls, locales (Sample.world Sample.found) = Some ls /\ iso632Code e ∈ ls) \/
  (exists l pre c1 c2 ws tail,
     l ∈ Js.split "010" (mergedCaption image) /\
     l = pre +:+ String c1 (String c2 (ws +:+ url e +:+ tail)) /\
     iso632Code e = Js.toLowerCase (String c1 (String c2 "")) /\
     Js.isDot c1 = true /\ Js.isDot c2 = true /\
     Js.every Js.isWhiteSpace ws = true /\
     String.prefix "https://" (url e) = true /\
     Js.every Js.isDot (url e) = true).
Proof.
  intros image e.
  apply (localized_entries_are_well_formed image (Sample.world Sample.found)
           (Sample.world Sample.found)
           {| primaryUrl := Sample.imageUrl; caption := "A picture";
              localizedUrls := [{| iso632Code := "fr"; url := "" |}; e];
              pageInfo := None; primaryBuffer := None; fileType := None;
              primaryFileOutputPath := None; outputFileName := None;
              filePathToUseInMarkdown := None |}).
  - vm_compute. reflexivity.
  - right. left.
Defined.

(** ** File names of different blocks *)

Section Names.

Lemma app_inv_head_str (a b c : string) : a +:+ b = a +:+ c -> b = c.
Proof.
  induction a as [|x a IH]; [now rewrite !app_Empty|].
  rewrite !app_String. intros [= Heq]. now apply IH.
Qed.

(** The part of a name before its last dot is determined by the name. *)
Lemma last_dot_unique (a a' e e' : string) :
  Js.lacks "." e = true -> Js.lacks "." e' = true ->
  a +:+ "." +:+ e = a' +:+ "." +:+ e' -> a = a' /\ e = e'.
Proof.
  intros He He'. revert a'. induction a as [|x a IH]; intros [|x' a'] Heq.
  - rewrite !app_Empty in Heq. apply app_inv_head_str in Heq. now split.
  - repeat rewrite ?app_String, ?app_Empty in Heq. injection Heq as <- ->.
    rewrite lacks_app in He. apply andb_true_iff in He as [_ He].
    discriminate.
  - repeat rewrite ?app_String, ?app_Empty in Heq. injection Heq as -> <-.
    rewrite lacks_app in He'. apply andb_true_iff in He' as [_ He'].
    discriminate.
  - repeat rewrite ?app_String, ?app_Empty in Heq. injection Heq as -> Heq.
    destruct (IH a' Heq) as [-> ->]. now split.
Qed.

Lemma plan_default_name `{Host} force s id root prefix s' :
  makeImagePersistencePlanWithoutBuffer
    {| imageFileNameFormat := FormatDefault; forceRefreshImages := force |}
    s id root prefix = Ok s' ->
  outputFileName s' =
  Some (pageSlugPart (pageInfo s) +:+ id +:+ "." +:+
        imageFileExtension (urlBeforeQuery (primaryUrl s))).
Proof.
  unfold makeImagePersistencePlanWithoutBuffer.
  destruct (if Js.truthy root then Some root
            else directoryContainingMarkdown <$> pageInfo s) as [dir|];
    [|discriminate].
  match goal with
  | |- match decodeURI ?n with _ => _ end = _ -> _ =>
      destruct (decodeURI n) as [d|]; [|discriminate]
  end.
  now intros [= <-].
Qed.

End Names.

(** X18. In the default format two blocks of one page never get the
    same file name: the name ends with the block id, a dot and an
    extension that holds no dot, so different ids give different
    names, whatever the URLs. *)
Theorem default_names_do_not_collide `{Host} (force : bool)
  (s1 s2 s1' s2' : ImageSet) (id1 id2 root prefix : string) :
  pageInfo s1 = pageInfo s2 ->
  makeImagePersistencePlanWithoutBuffer
    {| imageFileNameFormat := FormatDefault; forceRefreshImages := force |}
    s1 id1 root prefix = Ok s1' ->
  makeImagePersistencePlanWithoutBuffer
    {| imageFileNameFormat := FormatDefault; forceRefreshImages := force |}
    s2 id2 root prefix = Ok s2' ->
  id1 <> id2 ->
  outputFileName s1' <> outputFileName s2'.
Proof.
  intros Hpage Hplan1 Hplan2 Hid Hname.
  rewrite (plan_default_name force s1 id1 root prefix s1' Hplan1) in Hname.
  rewrite (plan_default_name force s2 id2 root prefix s2' Hplan2) in Hname.
  rewrite Hpage in Hname. injection Hname as Hname.
  apply app_inv_head_str in Hname.
  now destruct (last_dot_unique _ _ _ _ (extension_no_dot _) (extension_no_dot _)
                  Hname).
Qed.

Lemma default_names_do_not_collide_witness :
  let s := {| primaryUrl := Sample.imageUrl; caption := "";
              localizedUrls := []; pageInfo := Some Sample.page;
              primaryBuffer := None; fileType := None;
              primaryFileOutputPath := None; outputFileName := None;
              filePathToUseInMarkdown := None |} in
  bool_decide
    (outputFileName (with_plan "intro.b1.png" "static/img/intro.b1.png"
                       "/img/intro.b1.png" s) =
     outputFileName (with_plan "intro.b2.png" "static/img/intro.b2.png"
                       "/img/intro.b2.png" s)) = false.
Proof.
  intros s. apply bool_decide_eq_false.
  apply (default_names_do_not_collide (H := plainHost) false s s _ _
           "b1" "b2" "static/img" "/img").
  - reflexivity.
  - vm_compute. reflexivity.
  - vm_compute. reflexivity.
  - discriminate.
Defined.

(** ** The path of a localized copy *)

Section LocalizedPath.

Lemma prefix_slashes (c d : ascii) (r : string) :
  String.prefix "//" (String c (String d r)) = Ascii.eqb c "/" && Ascii.eqb d "/".
Proof.
  cbn [String.prefix].
  destruct (Ascii.eqb_spec c "/") as [->|Hc], (Ascii.eqb_spec d "/") as [->|Hd];
    repeat match goal with
      | |- context [ascii_dec ?a ?b] => destruct (ascii_dec a b)
      end;
    first [congruence | destruct r; reflexivity].
Qed.

Lemma prefix_no_slash (c : ascii) (r : string) :
  Ascii.eqb c "/" = false -> String.prefix "//" (String c r) = false.
Proof.
  intros Hc. cbn [String.prefix]. destruct (ascii_dec "/" c) as [<-|_];
    [discriminate | reflexivity].
Qed.

Lemma replaceAll_step (c d : ascii) (r : string) :
  Js.replaceAllSlashSlash (String c (String d r)) =
  if Ascii.eqb c "/" && Ascii.eqb d "/"
  then String "/" (Js.replaceAllSlashSlash r)
  else String c (Js.replaceAllSlashSlash (String d r)).
Proof. reflexivity. Qed.

(** Where there is no doubled slash, nothing is replaced. *)
Lemma replaceAll_id (s : string) :
  Js.includes "//" s = false -> Js.replaceAllSlashSlash s = s.
Proof.
  induction s as [|c r IH]; [reflexivity|].
  cbn [Js.includes]. intros Hs. apply orb_false_elim in Hs as [Hp Hr].
  destruct r as [|d r']; [reflexivity|].
  rewrite prefix_slashes in Hp. rewrite replaceAll_step, Hp.
  now rewrite (IH Hr).
Qed.

(** A doubled slash after a part that has none and does not end with
    a slash becomes one. *)
Lemma replaceAll_collapse (a b : string) :
  Js.includes "//" (a +:+ String "/" "") = false ->
  Js.replaceAllSlashSlash (a +:+ String "/" (String "/" b)) =
  a +:+ String "/" (Js.replaceAllSlashSlash b).
Proof.
  induction a as [|c a IH].
  - intros _. now rewrite !app_Empty.
  - rewrite !app_String. cbn [Js.includes]. intros Hs.
    apply orb_false_elim in Hs as [Hp Hr]. specialize (IH Hr).
    destruct a as [|d a'].
    + rewrite !app_Empty in *. rewrite prefix_slashes in Hp.
      now rewrite replaceAll_step, Hp, IH.
    + rewrite !app_String in *. rewrite prefix_slashes in Hp.
      now rewrite replaceAll_step, Hp, IH.
Qed.

(** A part without slashes hides no doubled slash and joins none. *)
Lemma includes_skip (a b : string) :
  Js.lacks "/" a = true ->
  Js.includes "//" (a +:+ b) = Js.includes "//" b.
Proof.
  unfold Js.lacks. induction a as [|c a IH]; [now rewrite app_Empty|].
  cbn [Js.every]. intros Ha. apply andb_true_iff in Ha as [Hc Ha].
  rewrite app_String. cbn [Js.includes]. rewrite (IH Ha).
  apply negb_true_iff in Hc. now rewrite (prefix_no_slash c _ Hc).
Qed.

End LocalizedPath.

(** X19. The path of a localized copy is the i18n folder of the
    locale, the docs folder, the folder of the page and the file name,
    joined by slashes.  Where this holds no doubled slash it is the
    path as it stands; for a page at the root, whose folder is empty,
    the doubled slash before the file name becomes a single one. *)
Theorem localized_path_shape (s : ImageSet) (pi : PageInfo) (e : LocalizedUrl)
  (name : string) :
  outputFileName s = Some name ->
  let docs := "./i18n/" +:+ iso632Code e +:+
              "/docusaurus-plugin-content-docs/current" in
  let folder := relativeFilePathToFolderContainingPage pi in
  (Js.includes "//" (docs +:+ "/" +:+ folder +:+ "/" +:+ name) = false ->
   localizedPath s pi e = docs +:+ "/" +:+ folder +:+ "/" +:+ name) /\
  (folder = "" ->
   Js.truthy (iso632Code e) = true -> Js.lacks "/" (iso632Code e) = true ->
   Js.includes "//" name = false ->
   localizedPath s pi e = docs +:+ "/" +:+ name).
Proof.
  intros Hname docs folder.
  assert (localizedPath s pi e =
          Js.replaceAllSlashSlash (docs +:+ "/" +:+ folder +:+ "/" +:+ name))
    as Hpath.
  { unfold localizedPath, docs, folder. rewrite Hname. cbn [from_option].
    now rewrite !app_assoc_str. }
  rewrite Hpath. split.
  - apply replaceAll_id.
  - intros -> Hcode Hslash Hfree. rewrite app_Empty.
    change ("/" +:+ "/" +:+ name) with (String "/" (String "/" name)).
    change ("/" +:+ name) with (String "/" name).
    rewrite replaceAll_collapse, (replaceAll_id name Hfree); [reflexivity|].
    unfold docs. rewrite !app_assoc_str.
    destruct (iso632Code e) as [|c code]; [discriminate|].
    unfold Js.lacks in Hslash. cbn [Js.every] in Hslash.
    apply andb_true_iff in Hslash as [Hc Hrest]. apply negb_true_iff in Hc.
    change ("./i18n/" +:+ String c code +:+ ?t)
      with (String "." (String "/" (String "i" (String "1" (String "8"
             (String "n" (String "/" (String c (code +:+ t))))))))).
    cbn [Js.includes]. rewrite !prefix_slashes, Hc.
    rewrite (includes_skip code _ Hrest).
    rewrite (prefix_no_slash c _ Hc). reflexivity.
Qed.

Lemma localized_path_shape_witness :
  let s := with_plan "b1.png" "static/img/b1.png" "/img/b1.png"
             {| primaryUrl := Sample.imageUrl; caption := "";
                localizedUrls := []; pageInfo := None;
                primaryBuffer := None; fileType := None;
                primaryFileOutputPath := None; outputFileName := None;
                filePathToUseInMarkdown := None |} in
  let root := {| slug := ""; directoryContainingMarkdown := "docs";
                 relativeFilePathToFolderContainingPage := "" |} in
  localizedPath s root {| iso632Code := "fr"; url := "" |} =
  "./i18n/fr/docusaurus-plugin-content-docs/current/b1.png".
Proof.
  intros s root.
  apply (proj2 (localized_path_shape s root {| iso632Code := "fr"; url := "" |}
                  "b1.png" eq_refl));
    reflexivity.
Defined.

(** ** A forced refresh *)

Section ForcedRefresh.
Context `{Host}.

Lemma step_writes ctx e s pi (w w' : World) s' :
  pageInfo s = Some pi ->
  forceRefreshImages (ctx_options ctx) = true ->
  saveLocalizedImage ctx e s w = (Ok s', w') ->
  exists evs b, log w' = log w ++ evs /\ EWrite (localizedPath s pi e) b ∈ evs.
Proof.
  intros Hpi Hforce Hrun.
  rewrite (saveLocalizedImage_gate ctx e s pi w Hpi) in Hrun.
  unfold specLocalizedImage, CacheGate, asked in Hrun. rewrite Hforce in Hrun.
  cbn [negb andb app] in Hrun.
  repeat match type of Hrun with
    | (if ?b then _ else _) = _ => destruct b
    | match ?x with _ => _ end = _ => destruct x eqn:?
    end;
    first [discriminate | apply pair_equal_spec in Hrun as [_ <-]];
    eexists _, _; (split; [cbn; reflexivity|]);
    repeat first [left | right].
Qed.

Lemma loop_writes ctx pi (l : list LocalizedUrl) :
  forall s (w w' : World) s',
    pageInfo s = Some pi ->
    forceRefreshImages (ctx_options ctx) = true ->
    forEach (saveLocalizedImage ctx) l s w = (Ok s', w') ->
    exists evs, log w' = log w ++ evs /\
                forall p, p ∈ List.map (localizedPath s pi) l ->
                          exists b, EWrite p b ∈ evs.
Proof.
  induction l as [|e l IH]; intros s w w' s' Hpi Hforce Hrun.
  - apply pair_equal_spec in Hrun as [_ <-]. exists [].
    split; [now rewrite app_nil_r|]. intros p Hp. now apply not_elem_of_nil in Hp.
  - cbn [forEach] in Hrun. unfold bind at 1 in Hrun.
    destruct (saveLocalizedImage ctx e s w) as [[s1|err] w1] eqn:Hstep;
      [|discriminate].
    destruct (step_writes ctx e s pi w w1 s1 Hpi Hforce Hstep)
      as (evs1 & b1 & Hlog1 & Hw1).
    destruct (localized_facts ctx e s pi w w1 (Ok s1) Hpi Hstep) as (_ & Hok & _).
    destruct (Hok s1 eq_refl) as (Hpl & _).
    assert (pageInfo s1 = Some pi) as Hpi1
      by (apply planned_inv in Hpl as (-> & _); exact Hpi).
    destruct (IH s1 w1 w' s' Hpi1 Hforce Hrun) as (evs2 & Hlog2 & Hall).
    exists (evs1 ++ evs2). split; [now rewrite Hlog2, Hlog1, app_assoc|].
    intros p Hp. cbn [List.map] in Hp. apply elem_of_cons in Hp as [->|Hp].
    + exists b1. apply elem_of_app. now left.
    + destruct (Hall p) as [b Hb].
      * apply list_elem_of_fmap in Hp as (x & -> & Hx).
        rewrite <- (localizedPath_planned s s1 pi x Hpl).
        now apply list_elem_of_fmap_2.
      * exists b. apply elem_of_app. now right.
Qed.

End ForcedRefresh.

(** X20. In the default and legacy formats, a block that is processed
    to the end under a forced refresh has written every one of its
    targets: the primary file and each localized copy, whatever was on
    disk. *)
Theorem forced_refresh_rewrites_every_target `{Host} (block : Block)
  (ctx : Context) (w w' : World) (s : ImageSet) (md : string) :
  (forall a b, posix_join a b <> "") ->
  imageFileNameFormat (ctx_options ctx) <> FormatContentHash ->
  forceRefreshImages (ctx_options ctx) = true ->
  plannedImageSet block ctx w = Ok s ->
  markdownToMDImageTransformer block ctx w = (Ok md, w') ->
  forall p, p ∈ targets s -> exists b, EWrite p b ∈ since w w'.
Proof.
  intros Hjoin Hfmt Hforce Hplan Hrun p Hp. rewrite transformer_run in Hrun.
  destruct (processImageSet block ctx w) as [[s'|e] w1] eqn:Hset; [|discriminate].
  injection Hrun as _ <-.
  destruct (planned_shape block ctx w s Hplan) as (dir & name & Hpath & Hpi & _).
  rewrite (processImageSet_gate block ctx s _ w Hfmt Hplan Hpath (Hjoin dir name))
    in Hset.
  unfold specPrimaryFirst, CacheGate, asked in Hset. rewrite Hforce in Hset.
  cbn [negb andb app] in Hset.
  destruct (remote w !! primaryUrl s) as [resp|]; [|discriminate].
  unfold saveLocalizedImages in Hset.
  destruct (loop_writes ctx (ctx_pageInfo ctx) _
              (with_primaryImage (body resp) (fileTypeFromBuffer (body resp)) s)
              _ _ _ Hpi Hforce Hset)
    as (evs & Hlog & Hall).
  cbn in Hlog. rewrite <- app_assoc in Hlog.
  rewrite (since_app w w1 _ Hlog).
  rewrite (targets_cons s _ Hpath), Hpi in Hp.
  apply elem_of_cons in Hp as [->|Hp].
  - exists (body resp). right. left.
  - destruct (Hall p Hp) as [b Hb]. exists b. now do 2 right.
Qed.

Lemma forced_refresh_rewrites_every_target_witness :
  exists b,
    EWrite "./i18n/fr/docusaurus-plugin-content-docs/current/guide/intro.b1.png" b
    ∈ since (Sample.world Sample.found)
        (snd (markdownToMDImageTransformer (H := plainHost) Sample.block
                (Sample.context true) (Sample.world Sample.found))).
Proof.
  eapply (forced_refresh_rewrites_every_target (H := plainHost) Sample.block
            (Sample.context true) (Sample.world Sample.found)).
  - exact plainHost_join.
  - discriminate.
  - reflexivity.
  - vm_compute. reflexivity.
  - vm_compute. reflexivity.
  - right. left.
Defined.
